(** * GraphLibrary (source/graph.js): a shallow embedding and its properties

    The facade class [GraphLibrary] keeps three collections of user
    options (nodes, edges, clusters) and a table of event listeners, and
    its [render] method drives grapher.js: it builds a [grapher.Graph],
    has it built, measured and laid out, and then updates the SVG.

    The embedding follows the class member by member.  JavaScript objects
    with optional keys become records of [option] fields ([None] for
    [undefined]), and where an object is spread over defaults its keys
    tell an absent key from one that holds [undefined]; a [Map] becomes
    an insertion-ordered association list (the order is observable through
    [forEach]), and the calls that leave the class (grapher.js, the DOM,
    the console) become commands of a small program type whose replies are
    supplied by a handler. *)

From Stdlib Require Import String Ascii List ZArith Bool Lia.
Import ListNotations.
Open Scope string_scope.
Open Scope list_scope.

(** ** JavaScript values as the class uses them *)

Module Js.

(** A string is the sequence of the bytes of its UTF-8 encoding. *)

(** [!!s] for a value that is a string or [undefined]: the empty string
    and [undefined] are falsy. *)
Definition truthy (s : option string) : bool :=
  match s with
  | Some s => negb (s =? "")
  | None => false
  end.

(** A number: an integer or [NaN].  (A fraction and the infinities pass
    every test the class makes as an integer other than zero does.) *)
Inductive Number :=
| Num (z : Z)
| NaN.

(** [!!n] for a value that is a number or [undefined]: zero, [NaN] and
    [undefined] are falsy. *)
Definition truthy_num (n : option Number) : bool :=
  match n with
  | Some (Num z) => negb (z =? 0)%Z
  | Some NaN => false
  | None => false
  end.

(** [!!b] for a value that is a boolean or [undefined]. *)
Definition truthy_bool (b : option bool) : bool :=
  match b with
  | Some b => b
  | None => false
  end.

(** [a || d] with a string default. *)
Definition str_or (a : option string) (d : string) : string :=
  match a with
  | Some s => if s =? "" then d else s
  | None => d
  end.

(** [a || b] where both sides are a string or [undefined]. *)
Definition opt_or (a b : option string) : option string :=
  if truthy a then a else b.

(** [n || d] with a numeric default: the default also stands in for zero
    and for [NaN]. *)
Definition num_or (n : option Number) (d : Z) : Z :=
  match n with
  | Some (Num z) => if (z =? 0)%Z then d else z
  | Some NaN => d
  | None => d
  end.

(** [if (x) target = x]: the property is written only for a truthy value. *)
Definition when_truthy (s : option string) : option string :=
  if truthy s then s else None.

Definition when_truthy_num (n : option Number) : option Z :=
  match n with
  | Some (Num z) => if (z =? 0)%Z then None else Some z
  | Some NaN => None
  | None => None
  end.

(** An own key of an object literal handed to the class: the key is
    absent, or it is present with a value, which may be [undefined]. *)
Inductive Key (A : Type) :=
| Absent
| Present (value : option A).

Arguments Absent {A}.
Arguments Present {A} value.

(** [object.key] *)
Definition read {A} (key : Key A) : option A :=
  match key with
  | Absent => None
  | Present value => value
  end.

(** [{ key: default, ...object }.key]: a key that is present overrides
    the default, also when its value is [undefined]. *)
Definition spread {A} (default : option A) (key : Key A) : option A :=
  match key with
  | Absent => default
  | Present value => value
  end.

(** The white space [String.prototype.trim] removes (WhiteSpace and
    LineTerminator of ECMAScript), by the bytes of its encoding:
    U+0009 to U+000D and U+0020; *)
Definition is_space (c : ascii) : bool :=
  let n := nat_of_ascii c in
  (n =? 32)%nat || ((9 <=? n)%nat && (n <=? 13)%nat).

(** U+00A0; *)
Definition is_space2 (c1 c2 : ascii) : bool :=
  (nat_of_ascii c1 =? 194)%nat && (nat_of_ascii c2 =? 160)%nat.

(** U+1680, U+2000 to U+200A, U+2028, U+2029, U+202F, U+205F, U+3000 and
    U+FEFF. *)
Definition is_space3 (c1 c2 c3 : ascii) : bool :=
  let x := nat_of_ascii c1 in
  let y := nat_of_ascii c2 in
  let z := nat_of_ascii c3 in
  ((x =? 225)%nat && (y =? 154)%nat && (z =? 128)%nat)
  || ((x =? 226)%nat && (y =? 128)%nat
      && (((128 <=? z)%nat && (z <=? 138)%nat)
          || (z =? 168)%nat || (z =? 169)%nat || (z =? 175)%nat))
  || ((x =? 226)%nat && (y =? 129)%nat && (z =? 159)%nat)
  || ((x =? 227)%nat && (y =? 128)%nat && (z =? 128)%nat)
  || ((x =? 239)%nat && (y =? 187)%nat && (z =? 191)%nat).

Fixpoint trim_start (s : string) : string :=
  match s with
  | String c1 rest1 =>
      if is_space c1 then trim_start rest1
      else
        match rest1 with
        | String c2 rest2 =>
            if is_space2 c1 c2 then trim_start rest2
            else
              match rest2 with
              | String c3 rest3 => if is_space3 c1 c2 c3 then trim_start rest3 else s
              | EmptyString => s
              end
        | EmptyString => s
        end
  | EmptyString => EmptyString
  end.

(** The string is made of white space only. *)
Fixpoint blank (s : string) : bool :=
  match s with
  | String c1 rest1 =>
      if is_space c1 then blank rest1
      else
        match rest1 with
        | String c2 rest2 =>
            if is_space2 c1 c2 then blank rest2
            else
              match rest2 with
              | String c3 rest3 => is_space3 c1 c2 c3 && blank rest3
              | EmptyString => false
              end
        | EmptyString => false
        end
  | EmptyString => true
  end.

Fixpoint trim_end (s : string) : string :=
  match s with
  | String c rest => if blank s then EmptyString else String c (trim_end rest)
  | EmptyString => EmptyString
  end.

Definition trim (s : string) : string := trim_end (trim_start s).

(** A [Map] keyed by strings.  [forEach] visits the entries in insertion
    order, and [set] on a key that is present replaces the value in
    place. *)
Definition Map (V : Type) : Type := list (string * V).

Fixpoint has {V} (m : Map V) (k : string) : bool :=
  match m with
  | [] => false
  | (k', _) :: rest => if k' =? k then true else has rest k
  end.

Fixpoint get {V} (m : Map V) (k : string) : option V :=
  match m with
  | [] => None
  | (k', v) :: rest => if k' =? k then Some v else get rest k
  end.

Fixpoint set {V} (m : Map V) (k : string) (v : V) : Map V :=
  match m with
  | [] => [(k, v)]
  | (k', v') :: rest =>
      if k' =? k then (k, v) :: rest else (k', v') :: set rest k v
  end.

Definition values {V} (m : Map V) : list V := map snd m.

End Js.

(** ** The option objects handed to the class *)

Module Style.
Record t := {
  backgroundColor : option string;
  borderColor : option string;
  argSeparator : option string;
  width : option Js.Number;
  height : option Js.Number;
  rx : option Js.Number;
  ry : option Js.Number
}.
End Style.

(** The value of one entry of [nodeOpts.arguments]: plain text, one nested
    grapher node, or an array of them. *)
Inductive ArgValue :=
| ArgText (text : string)
| ArgNode (nodeName : string)
| ArgNodes (nodeNames : list string).

(** [label] is the one key of the node and cluster options whose
    presence matters: [addNode] and [addCluster] spread the options over
    a default for it. *)
Module NodeOpts.
Record t := {
  id : option string;
  label : Js.Key string;
  parent : option string;
  styleClass : option string;
  style : option Style.t;
  arguments : list (string * ArgValue)
}.
End NodeOpts.

Module EdgeOpts.
Record t := {
  from : option string;
  to : option string;
  id : option string;
  label : option string;
  styleClass : option string;
  minlen : option Js.Number;
  weight : option Js.Number
}.
End EdgeOpts.

Module ClusterOpts.
Record t := {
  id : option string;
  label : Js.Key string;
  parent : option string;
  styleClass : option string;
  style : option Style.t
}.
End ClusterOpts.

(** The constructor's [options] argument: every key may be absent, and a
    key that is present may hold [undefined]. *)
Module UserOptions.
Record t := {
  direction : Js.Key string;
  nodeSep : Js.Key Js.Number;
  rankSep : Js.Key Js.Number;
  compound : Js.Key bool
}.
End UserOptions.

(** [this.options] after the options are spread over the defaults: a
    value is [undefined] when the options gave the key that way. *)
Module Options.
Record t := {
  direction : option string;
  nodeSep : option Js.Number;
  rankSep : option Js.Number;
  compound : option bool
}.
End Options.

(** ** The instance state *)

(** A DOM element is known by its identity only. *)
Definition Element := nat.

(** The container element: its children, and the inline [style.position]
    the constructor may set. *)
Record Container := {
  children : list Element;
  stylePosition : option string
}.

(** A listener is a JavaScript function, known by its identity. *)
Definition Callback := nat.

(** A [grapher.Graph] instance is an object of grapher.js, known by its
    identity. *)
Definition GraphRef := nat.

Record GraphLibrary := {
  container : Container;
  options : Options.t;
  _nodes : Js.Map NodeOpts.t;
  _edges : list EdgeOpts.t;
  _clusters : Js.Map ClusterOpts.t;
  _eventListeners : Js.Map (list Callback);
  grapherInstance : option GraphRef
}.

Definition with_nodes (g : GraphLibrary) (m : Js.Map NodeOpts.t) : GraphLibrary :=
  {| container := container g; options := options g; _nodes := m;
     _edges := _edges g; _clusters := _clusters g;
     _eventListeners := _eventListeners g; grapherInstance := grapherInstance g |}.

Definition with_edges (g : GraphLibrary) (l : list EdgeOpts.t) : GraphLibrary :=
  {| container := container g; options := options g; _nodes := _nodes g;
     _edges := l; _clusters := _clusters g;
     _eventListeners := _eventListeners g; grapherInstance := grapherInstance g |}.

Definition with_clusters (g : GraphLibrary) (m : Js.Map ClusterOpts.t) : GraphLibrary :=
  {| container := container g; options := options g; _nodes := _nodes g;
     _edges := _edges g; _clusters := m;
     _eventListeners := _eventListeners g; grapherInstance := grapherInstance g |}.

Definition with_listeners (g : GraphLibrary) (m : Js.Map (list Callback)) : GraphLibrary :=
  {| container := container g; options := options g; _nodes := _nodes g;
     _edges := _edges g; _clusters := _clusters g;
     _eventListeners := m; grapherInstance := grapherInstance g |}.

Definition with_children (g : GraphLibrary) (c : list Element) : GraphLibrary :=
  {| container := {| children := c; stylePosition := stylePosition (container g) |};
     options := options g; _nodes := _nodes g;
     _edges := _edges g; _clusters := _clusters g;
     _eventListeners := _eventListeners g; grapherInstance := grapherInstance g |}.

Definition with_instance (g : GraphLibrary) (r : GraphRef) : GraphLibrary :=
  {| container := container g; options := options g; _nodes := _nodes g;
     _edges := _edges g; _clusters := _clusters g;
     _eventListeners := _eventListeners g; grapherInstance := Some r |}.

(** ** The synchronous methods *)

(** How a synchronous call ends. *)
Inductive Completion :=
| Returned
| Threw (message : string).

Inductive ConsoleEntry :=
| Warn (message : string)
| Error (message : string).

(** The outcome of a synchronous method: how it ended, what it wrote to
    the console, and the instance afterwards. *)
Record Call := {
  completion : Completion;
  logged : list ConsoleEntry;
  after : GraphLibrary
}.

Definition returns (g : GraphLibrary) : Call :=
  {| completion := Returned; logged := []; after := g |}.

Definition warns (message : string) (g : GraphLibrary) : Call :=
  {| completion := Returned; logged := [Warn message]; after := g |}.

Definition throws (message : string) (g : GraphLibrary) : Call :=
  {| completion := Threw message; logged := []; after := g |}.

(** [new GraphLibrary(container, options)].  [container] is [None] for a
    value that is not an [HTMLElement]; [computedPosition] is the
    container's computed position, [None] where [window.getComputedStyle]
    is not available. *)
Definition constructor (container : option Container) (computedPosition : option string)
    (options : UserOptions.t) : string + GraphLibrary :=
  match container with
  | None => inl "A valid HTML container element must be provided."
  | Some c =>
      inr {| container :=
               match computedPosition with
               | Some "static" => {| children := children c; stylePosition := Some "relative" |}
               | _ => c
               end;
             options :=
               {| Options.direction :=
                    Js.spread (Some "TB") (UserOptions.direction options);
                  Options.nodeSep :=
                    Js.spread (Some (Js.Num 50)) (UserOptions.nodeSep options);
                  Options.rankSep :=
                    Js.spread (Some (Js.Num 50)) (UserOptions.rankSep options);
                  Options.compound :=
                    Js.spread (Some true) (UserOptions.compound options) |};
             _nodes := [];
             _edges := [];
             _clusters := [];
             _eventListeners := [];
             grapherInstance := None |}
  end.

(** [{ label: nodeOpts.id, ...nodeOpts }] *)
Definition node_entry (o : NodeOpts.t) : NodeOpts.t :=
  {| NodeOpts.id := NodeOpts.id o;
     NodeOpts.label := Js.Present (Js.spread (NodeOpts.id o) (NodeOpts.label o));
     NodeOpts.parent := NodeOpts.parent o;
     NodeOpts.styleClass := NodeOpts.styleClass o;
     NodeOpts.style := NodeOpts.style o;
     NodeOpts.arguments := NodeOpts.arguments o |}.

(** [{ label: clusterOpts.id, ...clusterOpts }] *)
Definition cluster_entry (o : ClusterOpts.t) : ClusterOpts.t :=
  {| ClusterOpts.id := ClusterOpts.id o;
     ClusterOpts.label := Js.Present (Js.spread (ClusterOpts.id o) (ClusterOpts.label o));
     ClusterOpts.parent := ClusterOpts.parent o;
     ClusterOpts.styleClass := ClusterOpts.styleClass o;
     ClusterOpts.style := ClusterOpts.style o |}.

Definition already_exists (id : string) : string :=
  ("Node or cluster with ID '" ++ id ++ "' already exists. Overwriting is not supported.")%string.

(** [addNode(nodeOpts)]; [None] stands for a missing ([undefined] or
    [null]) argument. *)
Definition addNode (nodeOpts : option NodeOpts.t) (this : GraphLibrary) : Call :=
  match nodeOpts with
  | None => throws "Node options with an `id` must be provided." this
  | Some o =>
      match NodeOpts.id o with
      | None => throws "Node options with an `id` must be provided." this
      | Some id =>
          if id =? "" then throws "Node options with an `id` must be provided." this
          else if Js.has (_nodes this) id || Js.has (_clusters this) id
          then warns (already_exists id) this
          else returns (with_nodes this (Js.set (_nodes this) id (node_entry o)))
      end
  end.

(** [addEdge(edgeOpts)] *)
Definition addEdge (edgeOpts : option EdgeOpts.t) (this : GraphLibrary) : Call :=
  match edgeOpts with
  | None => throws "Edge options with `from` and `to` IDs must be provided." this
  | Some o =>
      if negb (Js.truthy (EdgeOpts.from o)) || negb (Js.truthy (EdgeOpts.to o))
      then throws "Edge options with `from` and `to` IDs must be provided." this
      else returns (with_edges this (_edges this ++ [o]))
  end.

(** [addCluster(clusterOpts)] *)
Definition addCluster (clusterOpts : option ClusterOpts.t) (this : GraphLibrary) : Call :=
  if negb (Js.truthy_bool (Options.compound (options this)))
  then warns "Cannot add cluster: graph is not configured as compound. Set `options.compound` to true." this
  else
    match clusterOpts with
    | None => throws "Cluster options with an `id` must be provided." this
    | Some o =>
        match ClusterOpts.id o with
        | None => throws "Cluster options with an `id` must be provided." this
        | Some id =>
            if id =? "" then throws "Cluster options with an `id` must be provided." this
            else if Js.has (_nodes this) id || Js.has (_clusters this) id
            then warns (already_exists id) this
            else returns (with_clusters this (Js.set (_clusters this) id (cluster_entry o)))
        end
    end.

(** The second argument of [on]: a function, or any other value. *)
Inductive JsCallback :=
| Function (f : Callback)
| NotAFunction.

(** [on(eventType, callback)] *)
Definition on (eventType : string) (callback : JsCallback) (this : GraphLibrary) : Call :=
  match callback with
  | NotAFunction =>
      warns ("Callback for event '" ++ eventType ++ "' is not a function.")%string this
  | Function f =>
      let listeners :=
        if Js.has (_eventListeners this) eventType then _eventListeners this
        else Js.set (_eventListeners this) eventType [] in
      match Js.get listeners eventType with
      | Some l => returns (with_listeners this (Js.set listeners eventType (l ++ [f])))
      | None => throws "TypeError: Cannot read properties of undefined (reading 'push')" this
      end
  end.

(** ** Sequences of calls on one instance *)

Inductive Op :=
| OpAddNode (nodeOpts : option NodeOpts.t)
| OpAddEdge (edgeOpts : option EdgeOpts.t)
| OpAddCluster (clusterOpts : option ClusterOpts.t)
| OpOn (eventType : string) (callback : JsCallback).

Definition perform (this : GraphLibrary) (op : Op) : GraphLibrary :=
  after match op with
        | OpAddNode o => addNode o this
        | OpAddEdge o => addEdge o this
        | OpAddCluster o => addCluster o this
        | OpOn ty cb => on ty cb this
        end.

Definition performAll (ops : list Op) (this : GraphLibrary) : GraphLibrary :=
  fold_left perform ops this.

(** ** Events *)

(** What a listener receives: the node id for ['node:click'], an object
    for ['node:argument:click'] and for ['edge:click']. *)
Inductive EventData :=
| NodeClick (nodeId : option string)
| ArgumentClick (nodeId : option string) (name : string) (value : ArgValue)
| EdgeClick (from to id : option string) (label : string).

(** One line of what [_emit] did: a listener was called, or the error a
    listener threw was written to the console. *)
Inductive Delivery :=
| Invoked (f : Callback) (data : EventData)
| ErrorLogged (eventType : string) (error : string).

(** What a listener does to the instance while it runs: it calls the
    public methods.  A call of [render] runs up to its [await] inside the
    listener; of the instance it changes the children of the container,
    which it empties before it may append one SVG root, and the grapher
    instance, which it replaces unless [new grapher.Graph] throws. *)
Inductive Action :=
| Method (op : Op)
| Render (appended : list Element) (created : option GraphRef).

Definition act (this : GraphLibrary) (action : Action) : GraphLibrary :=
  match action with
  | Method op => perform this op
  | Render appended created =>
      {| container := {| children := appended;
                         stylePosition := stylePosition (container this) |};
         options := options this; _nodes := _nodes this; _edges := _edges this;
         _clusters := _clusters this; _eventListeners := _eventListeners this;
         grapherInstance :=
           match created with
           | Some g => Some g
           | None => grapherInstance this
           end |}
  end.

(** What one call of a listener did, as far as this class can see it:
    what it did to the instance, and whether it returned or threw. *)
Record Invocation := {
  thrown : option string;
  actions : list Action
}.

(** What [_emit] leaves behind: how it ended, what was delivered, the
    instance and the listeners' own state afterwards. *)
Record Emitted (W : Type) := {
  ended : Completion;
  delivered : list Delivery;
  instance : GraphLibrary;
  beyond : W
}.

Arguments ended {W} e.
Arguments delivered {W} e.
Arguments instance {W} e.
Arguments beyond {W} e.

Section Emit.

(** The listeners are arbitrary functions: their behaviour is a
    parameter, with a state [W] of their own; a listener sees the data
    and the instance. *)
Context {W : Type}.
Variable behaviour : Callback -> EventData -> GraphLibrary -> W -> Invocation * W.

Definition register (this : GraphLibrary) (r : string * JsCallback) : GraphLibrary :=
  after (on (fst r) (snd r) this).

(** [callback(data)] *)
Definition invoke (callback : Callback) (data : EventData) (this : GraphLibrary) (w : W)
    : Completion * GraphLibrary * W :=
  let (inv, w1) := behaviour callback data this w in
  (match thrown inv with
   | Some error => Threw error
   | None => Returned
   end,
   fold_left act (actions inv) this, w1).

(** The function given to [forEach]:
    [try { callback(data) } catch (error) { console.error(...) }]. *)
Definition guarded (eventType : string) (callback : Callback) (data : EventData)
    (this : GraphLibrary) (w : W) : Completion * list Delivery * GraphLibrary * W :=
  let '(completion, this1, w1) := invoke callback data this w in
  match completion with
  | Returned => (Returned, [Invoked callback data], this1, w1)
  | Threw error =>
      (Returned, [Invoked callback data; ErrorLogged eventType error], this1, w1)
  end.

(** [array.forEach(...)] over the listeners present when the loop starts:
    elements pushed while it runs are not visited, and an exception of
    the function given to it would end the loop. *)
Fixpoint deliver (eventType : string) (listeners : list Callback) (data : EventData)
    (this : GraphLibrary) (w : W) : Completion * list Delivery * GraphLibrary * W :=
  match listeners with
  | [] => (Returned, [], this, w)
  | callback :: rest =>
      let '(completion, log, this1, w1) := guarded eventType callback data this w in
      match completion with
      | Threw error => (Threw error, log, this1, w1)
      | Returned =>
          let '(completion', log', this2, w2) := deliver eventType rest data this1 w1 in
          (completion', log ++ log', this2, w2)
      end
  end.

(** [_emit(eventType, data)] *)
Definition _emit (eventType : string) (data : EventData) (this : GraphLibrary) (w : W)
    : Emitted W :=
  match Js.get (_eventListeners this) eventType with
  | Some listeners =>
      let '(completion, log, this', w') := deliver eventType listeners data this w in
      {| ended := completion; delivered := log; instance := this'; beyond := w' |}
  | None => {| ended := Returned; delivered := []; instance := this; beyond := w |}
  end.

End Emit.

(** The listeners called, in the order of the calls. *)
Fixpoint invoked (log : list Delivery) : list (Callback * EventData) :=
  match log with
  | [] => []
  | Invoked f d :: rest => (f, d) :: invoked rest
  | ErrorLogged _ _ :: rest => invoked rest
  end.

(** The functions a sequence of [on] calls registers for one event type,
    in the order of the calls. *)
Fixpoint registered (calls : list (string * JsCallback)) (eventType : string) : list Callback :=
  match calls with
  | [] => []
  | (ty, Function f) :: rest =>
      if ty =? eventType then f :: registered rest eventType else registered rest eventType
  | (_, NotAFunction) :: rest => registered rest eventType
  end.

Definition listeners_of (this : GraphLibrary) (eventType : string) : list Callback :=
  match Js.get (_eventListeners this) eventType with
  | Some l => l
  | None => []
  end.

(** ** What [render] hands to grapher.js *)

(** The entry [header.add(null, ['node-label'], text, text)] creates, with
    the colours written on it and the event its click handler emits. *)
Module HeaderEntry.
Record t := {
  classes : list string;
  content : option string;
  tooltip : option string;
  backgroundColor : option string;
  borderColor : option string;
  click : string * EventData
}.
End HeaderEntry.

(** A [grapher.Argument] of the node's argument list, with the event its
    [activate] handler emits. *)
Module Argument.
Record t := {
  name : string;
  content : ArgValue;
  separator : option string;
  activate : string * EventData
}.
End Argument.

(** The argument list block: the event of its own click handler, and its
    arguments. *)
Module ArgumentList.
Record t := {
  click : string * EventData;
  items : list Argument.t
}.
End ArgumentList.

(** A [grapher.Node] as [render] fills it in. *)
Module GNode.
Record t := {
  name : option string;
  id : option string;
  class : string;
  rx : option Z;
  ry : option Z;
  _isCluster : bool;
  _clusterLabelText : option string;
  _clusterBackgroundColor : option string;
  header : option HeaderEntry.t;
  list : option ArgumentList.t;
  width : option Z;
  height : option Z
}.
End GNode.

(** A [grapher.Edge] as [render] fills it in; [source] and [target] are the
    two nodes given to its constructor. *)
Module GEdge.
Record t := {
  source : GNode.t;
  target : GNode.t;
  v : option string;
  w : option string;
  id : option string;
  class : string;
  label : string;
  minlen : Z;
  weight : Z
}.
End GEdge.

(** The object assigned to [grapherInstance.options]. *)
Module GOptions.
Record t := {
  direction : option string;
  nodesep : option Js.Number;
  ranksep : option Js.Number
}.
End GOptions.

Definition style_field {A} (f : Style.t -> option A) (s : option Style.t) : option A :=
  match s with
  | Some s => f s
  | None => None
  end.

(** Step 1: the [grapher.Node] of a cluster. *)
Definition cluster_node (clusterOpts : ClusterOpts.t) : GNode.t :=
  {| GNode.name := ClusterOpts.id clusterOpts;
     GNode.id := ClusterOpts.id clusterOpts;
     GNode.class := Js.trim ("cluster " ++ Js.str_or (ClusterOpts.styleClass clusterOpts) "")%string;
     GNode.rx := Js.when_truthy_num (style_field Style.rx (ClusterOpts.style clusterOpts));
     GNode.ry := Js.when_truthy_num (style_field Style.ry (ClusterOpts.style clusterOpts));
     GNode._isCluster := true;
     GNode._clusterLabelText := Js.read (ClusterOpts.label clusterOpts);
     GNode._clusterBackgroundColor :=
       style_field Style.backgroundColor (ClusterOpts.style clusterOpts);
     GNode.header := None;
     GNode.list := None;
     GNode.width := None;
     GNode.height := None |}.

(** The separator of a simple argument. *)
Definition separator_of (nodeOpts : NodeOpts.t) : string :=
  match style_field Style.argSeparator (NodeOpts.style nodeOpts) with
  | Some s => s
  | None => ": "
  end.

Definition argument_of (nodeOpts : NodeOpts.t) (a : string * ArgValue) : Argument.t :=
  {| Argument.name := fst a;
     Argument.content := snd a;
     Argument.separator :=
       match snd a with
       | ArgText _ => Some (separator_of nodeOpts)
       | _ => None
       end;
     Argument.activate :=
       ("node:argument:click", ArgumentClick (NodeOpts.id nodeOpts) (fst a) (snd a)) |}.

(** Step 2: the [grapher.Node] of a regular node. *)
Definition regular_node (nodeOpts : NodeOpts.t) : GNode.t :=
  let text := Js.opt_or (Js.read (NodeOpts.label nodeOpts)) (NodeOpts.id nodeOpts) in
  {| GNode.name := NodeOpts.id nodeOpts;
     GNode.id := NodeOpts.id nodeOpts;
     GNode.class := Js.str_or (NodeOpts.styleClass nodeOpts) "";
     GNode.rx := None;
     GNode.ry := None;
     GNode._isCluster := false;
     GNode._clusterLabelText := None;
     GNode._clusterBackgroundColor := None;
     GNode.header :=
       Some {| HeaderEntry.classes := ["node-label"];
               HeaderEntry.content := text;
               HeaderEntry.tooltip := text;
               HeaderEntry.backgroundColor :=
                 Js.when_truthy (style_field Style.backgroundColor (NodeOpts.style nodeOpts));
               HeaderEntry.borderColor :=
                 Js.when_truthy (style_field Style.borderColor (NodeOpts.style nodeOpts));
               HeaderEntry.click := ("node:click", NodeClick (NodeOpts.id nodeOpts)) |};
     GNode.list :=
       match NodeOpts.arguments nodeOpts with
       | [] => None
       | args =>
           Some {| ArgumentList.click := ("node:click", NodeClick (NodeOpts.id nodeOpts));
                   ArgumentList.items := map (argument_of nodeOpts) args |}
       end;
     GNode.width := Some (Js.num_or (style_field Style.width (NodeOpts.style nodeOpts)) 0);
     GNode.height := Some (Js.num_or (style_field Style.height (NodeOpts.style nodeOpts)) 0) |}.

(** Step 4: the [grapher.Edge] of an edge whose two endpoints were found. *)
Definition edge_of (source target : GNode.t) (edgeOpts : EdgeOpts.t) : GEdge.t :=
  {| GEdge.source := source;
     GEdge.target := target;
     GEdge.v := EdgeOpts.from edgeOpts;
     GEdge.w := EdgeOpts.to edgeOpts;
     GEdge.id := Js.when_truthy (EdgeOpts.id edgeOpts);
     GEdge.class := Js.str_or (EdgeOpts.styleClass edgeOpts) "";
     GEdge.label := Js.str_or (EdgeOpts.label edgeOpts) "";
     GEdge.minlen := Js.num_or (EdgeOpts.minlen edgeOpts) 1;
     GEdge.weight := Js.num_or (EdgeOpts.weight edgeOpts) 1 |}.

(** The event the click listener of an edge emits; step 12 attaches it to
    every edge of the grapher instance. *)
Definition edge_click (gEdge : GEdge.t) : string * EventData :=
  ("edge:click",
   EdgeClick (GEdge.v gEdge) (GEdge.w gEdge) (GEdge.id gEdge) (GEdge.label gEdge)).

(** Step 5: the direction handed to grapher.js. *)
Definition grapherLayoutDirection (direction : option string) : option string :=
  match direction with
  | Some d => if (d =? "TB") || (d =? "BT") then Some "vertical" else direction
  | None => direction
  end.

Definition grapher_options (o : Options.t) : GOptions.t :=
  {| GOptions.direction := grapherLayoutDirection (Options.direction o);
     GOptions.nodesep := Options.nodeSep o;
     GOptions.ranksep := Options.rankSep o |}.

(** ** [render] as a program over the calls that leave the class *)

(** The calls [render] makes.  The index is the type of the value a call
    gives back.  [ApplyCustomStyles], [FitSvgToContent] and
    [AttachEventListeners] are the three private passes over the SVG that
    grapher.js has built; they are kept as single steps.
    [AssignInstance] writes [this.grapherInstance] and [GrapherInstance]
    reads it where the value is used after the [await]. *)
Inductive Cmd : Type -> Type :=
| ClearContainer : Cmd unit
| NewGraph (compound : option bool) : Cmd GraphRef
| AssignInstance (g : GraphRef) : Cmd unit
| GrapherInstance : Cmd GraphRef
| SetNode (g : GraphRef) (node : GNode.t) : Cmd unit
| SetParent (g : GraphRef) (node parent : option string) : Cmd unit
| Node (g : GraphRef) (key : option string) : Cmd (option GNode.t)
| SetEdge (g : GraphRef) (edge : GEdge.t) : Cmd unit
| SetOptions (g : GraphRef) (o : GOptions.t) : Cmd unit
| SetIdentifier (g : GraphRef) (identifier : string) : Cmd unit
| CreateSvg : Cmd Element
| AppendChild (svg : Element) : Cmd unit
| Build (g : GraphRef) (svg : Element) : Cmd unit
| Measure (g : GraphRef) : Cmd unit
| Layout (g : GraphRef) : Cmd string
| ApplyCustomStyles (g : GraphRef) : Cmd unit
| Update (g : GraphRef) : Cmd unit
| FitSvgToContent (svg : Element) : Cmd unit
| AttachEventListeners (g : GraphRef) : Cmd unit
| Console (entry : ConsoleEntry) : Cmd unit.

(** The answer to a call: the exception it threw (for the awaited layout,
    the reason its promise was rejected with), or its value. *)
Definition Reply (X : Type) : Type := string + X.

Inductive Prog (R : Type) : Type :=
| Ret (r : R)
| Raise (error : string)
| Do {X : Type} (c : Cmd X) (k : Reply X -> Prog R).

Arguments Ret {R} r.
Arguments Raise {R} error.
Arguments Do {R X} c k.

Fixpoint bind {A B} (p : Prog A) (f : A -> Prog B) : Prog B :=
  match p with
  | Ret a => f a
  | Raise e => Raise e
  | Do c k => Do c (fun r => bind (k r) f)
  end.

(** A call outside [try]: an exception leaves [render]. *)
Definition call {X} (c : Cmd X) : Prog X :=
  Do c (fun r => match r with inl e => Raise e | inr x => Ret x end).

Notation "x <- p ;; q" := (bind p (fun x => q))
  (at level 61, p at next level, right associativity).
Notation "p ;; q" := (bind p (fun _ => q))
  (at level 61, right associativity).

Fixpoint forEach {A} (l : list A) (body : A -> Prog unit) : Prog unit :=
  match l with
  | [] => Ret tt
  | a :: rest => body a ;; forEach rest body
  end.

Definition show (s : option string) : string :=
  match s with
  | Some s => s
  | None => "undefined"
  end.

Definition cancelled : string := "graph-layout-cancelled".

(** The callback of step 4's [forEach]. *)
Definition renderEdge (g : GraphRef) (edgeOpts : EdgeOpts.t) : Prog unit :=
  sourceNodeEntry <- call (Node g (EdgeOpts.from edgeOpts)) ;;
  targetNodeEntry <- call (Node g (EdgeOpts.to edgeOpts)) ;;
  match sourceNodeEntry, targetNodeEntry with
  | Some source, Some target => call (SetEdge g (edge_of source target edgeOpts))
  | _, _ =>
      call (Console (Warn ("Skipping edge from '" ++ show (EdgeOpts.from edgeOpts)
                           ++ "' to '" ++ show (EdgeOpts.to edgeOpts)
                           ++ "': one or both nodes not found.")%string))
  end.

(** Steps 1 to 5: describe the graph to a new [grapher.Graph].  No other
    code runs between the assignment of [this.grapherInstance] and the
    [await] of step 8, so up to there the field holds [g]. *)
Definition describe (this : GraphLibrary) : Prog GraphRef :=
  g <- call (NewGraph (Options.compound (options this))) ;;
  call (AssignInstance g) ;;
  forEach (Js.values (_clusters this)) (fun clusterOpts =>
    call (SetNode g (cluster_node clusterOpts))) ;;
  forEach (Js.values (_nodes this)) (fun nodeOpts =>
    call (SetNode g (regular_node nodeOpts))) ;;
  (if Js.truthy_bool (Options.compound (options this)) then
     forEach (Js.values (_clusters this)) (fun clusterOpts =>
       if Js.truthy (ClusterOpts.parent clusterOpts)
       then call (SetParent g (ClusterOpts.id clusterOpts) (ClusterOpts.parent clusterOpts))
       else Ret tt) ;;
     forEach (Js.values (_nodes this)) (fun nodeOpts =>
       if Js.truthy (NodeOpts.parent nodeOpts)
       then call (SetParent g (NodeOpts.id nodeOpts) (NodeOpts.parent nodeOpts))
       else Ret tt)
   else Ret tt) ;;
  forEach (_edges this) (renderEdge g) ;;
  call (SetOptions g (grapher_options (options this))) ;;
  call (SetIdentifier g "graphjs-render") ;;
  Ret g.

(** Steps 6 to 12: build, measure, lay out, and, unless the layout was
    cancelled or failed, style, update, fit and attach.  The layout is
    awaited: steps 9, 10 and 12 take the graph from
    [this.grapherInstance] as it is by then. *)
Definition present (g : GraphRef) : Prog unit :=
  svgElement <- call CreateSvg ;;
  call (AppendChild svgElement) ;;
  call (Build g svgElement) ;;
  call (Measure g) ;;
  Do (Layout g) (fun layoutResult =>
    match layoutResult with
    | inl error =>
        call (Console (Error ("Error during graph layout: " ++ error)%string))
    | inr layoutResult =>
        if layoutResult =? cancelled
        then call (Console (Warn "Graph layout was cancelled."))
        else
          styled <- call GrapherInstance ;;
          call (ApplyCustomStyles styled) ;;
          updated <- call GrapherInstance ;;
          call (Update updated) ;;
          call (FitSvgToContent svgElement) ;;
          attached <- call GrapherInstance ;;
          call (AttachEventListeners attached)
    end).

(** [async render()] *)
Definition render (this : GraphLibrary) : Prog unit :=
  call ClearContainer ;;
  g <- describe this ;;
  present g.

(** ** Running a program *)

(** One call and the answer it got. *)
Inductive Event :=
| Ev {X : Type} (c : Cmd X) (reply : Reply X).

Definition Trace := list Event.

(** How an [async] method ends: its promise is fulfilled or rejected. *)
Inductive Outcome (R : Type) :=
| Resolved (r : R)
| Rejected (error : string).

Arguments Resolved {R} r.
Arguments Rejected {R} error.

(** The calls that act on the instance itself and on the container's
    child list.  Reading a graph out of [this.grapherInstance] fails when
    the field is [null]: the method called on it, or with it, throws a
    [TypeError].  Every other call is answered by the handler. *)
Definition own {X} (c : Cmd X) : option (GraphLibrary -> Reply X * GraphLibrary) :=
  match c in Cmd X return option (GraphLibrary -> Reply X * GraphLibrary) with
  | ClearContainer => Some (fun this => (inr tt, with_children this []))
  | AppendChild svg =>
      Some (fun this => (inr tt, with_children this (children (container this) ++ [svg])))
  | AssignInstance g => Some (fun this => (inr tt, with_instance this g))
  | GrapherInstance =>
      Some (fun this =>
              (match grapherInstance this with
               | Some g => inr g
               | None => inl "TypeError: Cannot read properties of null"
               end, this))
  | Console _ => Some (fun this => (inr tt, this))
  | _ => None
  end.

Record Run (W R : Type) := {
  trace : Trace;
  outcome : Outcome R;
  final : GraphLibrary;
  world : W
}.

Arguments trace {W R} r.
Arguments outcome {W R} r.
Arguments final {W R} r.
Arguments world {W R} r.

Definition Handler (W : Type) : Type := forall X, Cmd X -> W -> Reply X * W.

Section Exec.

Context {W : Type}.
Variable handle : Handler W.

Definition answer {X} (c : Cmd X) (this : GraphLibrary) (w : W)
    : Reply X * GraphLibrary * W :=
  match own c with
  | Some f => let (r, this') := f this in (r, this', w)
  | None => let (r, w') := handle X c w in (r, this, w')
  end.

Fixpoint exec {R} (p : Prog R) (this : GraphLibrary) (w : W) : Run W R :=
  match p with
  | Ret r => {| trace := []; outcome := Resolved r; final := this; world := w |}
  | Raise e => {| trace := []; outcome := Rejected e; final := this; world := w |}
  | Do c k =>
      let '(reply, this', w') := answer c this w in
      let run := exec (k reply) this' w' in
      {| trace := Ev c reply :: trace run; outcome := outcome run;
         final := final run; world := world run |}
  end.

(** The call is awaited: other code runs before [render] goes on. *)
Definition awaited {X} (c : Cmd X) : bool :=
  match c with
  | Layout _ => true
  | _ => false
  end.

(** A run during which other code uses the instance: [meanwhile] is what
    that code has done to the instance by the time an awaited call has
    settled.  [exec] is the run of a call that is left alone, as the
    callers are asked to do. *)
Fixpoint execAmid (meanwhile : W -> GraphLibrary -> GraphLibrary) {R} (p : Prog R)
    (this : GraphLibrary) (w : W) : Run W R :=
  match p with
  | Ret r => {| trace := []; outcome := Resolved r; final := this; world := w |}
  | Raise e => {| trace := []; outcome := Rejected e; final := this; world := w |}
  | Do c k =>
      let '(reply, this', w') := answer c this w in
      let run := execAmid meanwhile (k reply)
                   (if awaited c then meanwhile w' this' else this') w' in
      {| trace := Ev c reply :: trace run; outcome := outcome run;
         final := final run; world := world run |}
  end.

(** A run continued by a second one. *)
Definition andThen {A B} (first : Run W A) (next : A -> GraphLibrary -> W -> Run W B)
    : Run W B :=
  match outcome first with
  | Resolved a =>
      let run := next a (final first) (world first) in
      {| trace := trace first ++ trace run; outcome := outcome run;
         final := final run; world := world run |}
  | Rejected e =>
      {| trace := trace first; outcome := Rejected e;
         final := final first; world := world first |}
  end.

(** [n + 1] successive calls of [render] on one instance, the next one
    started when the previous one has settled; the result is the run of
    the last call. *)
Fixpoint renders (n : nat) (this : GraphLibrary) (w : W) : Run W unit :=
  match n with
  | O => exec (render this) this w
  | S n' =>
      let run := exec (render this) this w in
      renders n' (final run) (world run)
  end.

End Exec.

(** *** Classifying the calls of a trace *)

(** Two values that are a string or [undefined] are the same. *)
Definition name_eqb (a b : option string) : bool :=
  match a, b with
  | Some a, Some b => a =? b
  | None, None => true
  | _, _ => false
  end.


Definition command_is (p : forall X, Cmd X -> bool) (e : Event) : bool :=
  match e with
  | Ev c _ => p _ c
  end.

Definition is_build : Event -> bool :=
  command_is (fun _ c => match c with Build _ _ => true | _ => false end).
Definition is_measure : Event -> bool :=
  command_is (fun _ c => match c with Measure _ => true | _ => false end).
Definition is_layout : Event -> bool :=
  command_is (fun _ c => match c with Layout _ => true | _ => false end).
Definition is_styles : Event -> bool :=
  command_is (fun _ c => match c with ApplyCustomStyles _ => true | _ => false end).
Definition is_update : Event -> bool :=
  command_is (fun _ c => match c with Update _ => true | _ => false end).
Definition is_fit : Event -> bool :=
  command_is (fun _ c => match c with FitSvgToContent _ => true | _ => false end).
Definition is_attach : Event -> bool :=
  command_is (fun _ c => match c with AttachEventListeners _ => true | _ => false end).
Definition is_set_edge : Event -> bool :=
  command_is (fun _ c => match c with SetEdge _ _ => true | _ => false end).

(** The steps after the layout: 9 to 12. *)
Definition is_after_layout (e : Event) : bool :=
  is_styles e || is_update e || is_fit e || is_attach e.

(** The call gave a value back (it did not throw). *)
Definition gave_back (e : Event) : bool :=
  match e with
  | Ev _ (inr _) => true
  | Ev _ (inl _) => false
  end.

Definition build_done (e : Event) : bool := is_build e && gave_back e.
Definition measure_done (e : Event) : bool := is_measure e && gave_back e.

(** The layout promise was fulfilled with the given value. *)
Definition layout_resolved_with (result : string) (e : Event) : bool :=
  match e with
  | Ev c reply =>
      match c in Cmd X return Reply X -> bool with
      | Layout _ => fun reply =>
          match reply with
          | inr s => s =? result
          | inl _ => false
          end
      | _ => fun _ => false
      end reply
  end.

(** The layout promise was fulfilled, and not with the cancelled value. *)
Definition layout_succeeded (e : Event) : bool :=
  is_layout e && gave_back e && negb (layout_resolved_with cancelled e).

(** The calls of [describe]: none of them is one of the phases, and none
    touches the container. *)
Definition describing (X : Type) (c : Cmd X) : bool :=
  match c with
  | NewGraph _ | AssignInstance _ | SetNode _ _ | SetParent _ _ _
  | Node _ _ | SetEdge _ _ | SetOptions _ _ | SetIdentifier _ _ | Console _ => true
  | _ => false
  end.

Definition is_describe : Event -> bool := command_is describing.

(** Every call the program can make, whatever the answers, satisfies [P]. *)
Fixpoint only {R} (P : forall X, Cmd X -> bool) (p : Prog R) : Prop :=
  match p with
  | Ret _ => True
  | Raise _ => True
  | Do c k => P _ c = true /\ forall reply, only P (k reply)
  end.


(** The call does not hand a cluster node to grapher.js. *)
Definition no_cluster (X : Type) (c : Cmd X) : bool :=
  match c with
  | SetNode _ node => negb (GNode._isCluster node)
  | _ => true
  end.

(** What the [node] lookups of a trace gave back. *)
Fixpoint lookups (t : Trace) : list (option GNode.t) :=
  match t with
  | [] => []
  | Ev c reply :: rest =>
      match c in Cmd X return Reply X -> list (option GNode.t) with
      | Node _ _ => fun reply =>
          match reply with
          | inr entry => entry :: lookups rest
          | inl _ => lookups rest
          end
      | _ => fun _ => lookups rest
      end reply
  end.

(** The call does not write an error to the console. *)
Definition no_error_log (X : Type) (c : Cmd X) : bool :=
  match c with
  | Console (Error _) => false
  | _ => true
  end.

Definition is_error_log (e : Event) : bool := negb (command_is no_error_log e).




(** Every [Q] call of the trace comes after some [P] call. *)
Definition precedes (P Q : Event -> bool) (t : Trace) : Prop :=
  forall t1 e t2, t = (t1 ++ e :: t2) -> Q e = true -> existsb P t1 = true.

(** The same, as a check along the trace; [seen] tells whether a [P] call
    has occurred so far. *)
Fixpoint precedes_from (P Q : Event -> bool) (seen : bool) (t : Trace) : bool :=
  match t with
  | [] => true
  | e :: rest => implb (Q e) seen && precedes_from P Q (seen || P e) rest
  end.

(** The children of the container after the calls of a trace. *)
Fixpoint children_after (c : list Element) (t : Trace) : list Element :=
  match t with
  | [] => c
  | Ev cmd _ :: rest =>
      children_after
        match cmd with
        | ClearContainer => []
        | AppendChild svg => (c ++ [svg])
        | _ => c
        end rest
  end.

(** The SVG roots a trace appended to the container. *)
Fixpoint appended (t : Trace) : list Element :=
  match t with
  | [] => []
  | Ev cmd _ :: rest =>
      match cmd with
      | AppendChild svg => svg :: appended rest
      | _ => appended rest
      end
  end.

(** ** More classifiers *)

(** A [SetNode] call for a node flagged as a cluster. *)
Definition is_cluster_node (e : Event) : bool :=
  command_is (fun _ c =>
    match c with
    | SetNode _ node => GNode._isCluster node
    | _ => false
    end) e.

Definition is_clear : Event -> bool :=
  command_is (fun _ c => match c with ClearContainer => true | _ => false end).

(** ** A reference grapher.js *)

Module Grapher.

(** The state of the reference handler: the nodes, parents and edges of
    the graph under construction, counters for fresh identities, and
    what the coming layout promises settle to. *)
Record World := {
  compound : bool;
  nodes : list GNode.t;
  parents : list (option string * option string);
  edges : list GEdge.t;
  nextGraph : GraphRef;
  nextElement : Element;
  layouts : list (Reply string)
}.

Definition start (layouts : list (Reply string)) : World :=
  {| compound := true; nodes := []; parents := []; edges := [];
     nextGraph := 0; nextElement := 0; layouts := layouts |}.

(** Modelled from the spec: [node(key)] of grapher.js, the entry of the
    node or undefined. *)
Definition node (w : World) (key : option string) : option GNode.t :=
  find (fun n => name_eqb (GNode.name n) key) w.(nodes).

(** Modelled from the spec: [parent(key)] of grapher.js. *)
Definition parent (w : World) (key : option string) : option (option string) :=
  option_map snd (find (fun p => name_eqb (fst p) key) w.(parents)).

(** Modelled from the spec: the cycle test of [setParent] in grapher.js.
    [node] is [key] or one of the ancestors of [key]; the walk upwards
    is bounded by the number of parent entries. *)
Fixpoint reaches (fuel : nat) (w : World) (key node : option string) : bool :=
  name_eqb key node ||
  match fuel with
  | O => false
  | S fuel' =>
      match parent w key with
      | Some p => reaches fuel' w p node
      | None => false
      end
  end.

(** Modelled from the spec: grapher.js is not among the sources.  This
    handler follows its API documentation: [setNode] adds or updates a
    node, [node] returns the entry or undefined, [setEdge] throws when
    the source or the target node does not exist, [setParent] throws on
    a graph that is not compound and when the new parent would close a
    cycle, and [layout] resolves to the empty string on success and to
    ['graph-layout-cancelled'] when cancelled. *)
Definition handle : Handler World := fun X c w =>
  match c in Cmd X return Reply X * World with
  | NewGraph isCompound =>
      (inr w.(nextGraph),
       {| compound := Js.truthy_bool isCompound; nodes := []; parents := []; edges := [];
          nextGraph := S w.(nextGraph); nextElement := w.(nextElement);
          layouts := w.(layouts) |})
  | SetNode _ n =>
      (inr tt,
       {| compound := w.(compound);
          nodes :=
            if existsb (fun m => name_eqb (GNode.name m) (GNode.name n)) w.(nodes)
            then map (fun m => if name_eqb (GNode.name m) (GNode.name n) then n else m)
                     w.(nodes)
            else w.(nodes) ++ [n];
          parents := w.(parents); edges := w.(edges);
          nextGraph := w.(nextGraph); nextElement := w.(nextElement);
          layouts := w.(layouts) |})
  | SetParent _ child p =>
      if negb w.(compound)
      then (inl "Cannot set parent in a non-compound graph", w)
      else if reaches (length w.(parents)) w p child
      then (inl "Setting the parent would create a cycle", w)
      else
        (inr tt,
         {| compound := w.(compound); nodes := w.(nodes);
            parents := (child, p) :: w.(parents); edges := w.(edges);
            nextGraph := w.(nextGraph); nextElement := w.(nextElement);
            layouts := w.(layouts) |})
  | Node _ key => (inr (node w key), w)
  | SetEdge _ e =>
      match node w (GEdge.v e), node w (GEdge.w e) with
      | Some _, Some _ =>
          (inr tt,
           {| compound := w.(compound); nodes := w.(nodes);
              parents := w.(parents); edges := w.(edges) ++ [e];
              nextGraph := w.(nextGraph); nextElement := w.(nextElement);
              layouts := w.(layouts) |})
      | _, _ => (inl "Source or target node does not exist", w)
      end
  | CreateSvg =>
      (inr w.(nextElement),
       {| compound := w.(compound); nodes := w.(nodes);
          parents := w.(parents); edges := w.(edges);
          nextGraph := w.(nextGraph); nextElement := S w.(nextElement);
          layouts := w.(layouts) |})
  | Layout _ =>
      match w.(layouts) with
      | [] => (inr "", w)
      | r :: rest =>
          (r,
           {| compound := w.(compound); nodes := w.(nodes);
              parents := w.(parents); edges := w.(edges);
              nextGraph := w.(nextGraph); nextElement := w.(nextElement);
              layouts := rest |})
      end
  | GrapherInstance => (inl "not a call of grapher.js", w)
  | ClearContainer | AssignInstance _ | AppendChild _ | Console _
  | SetOptions _ _ | SetIdentifier _ _ | Build _ _ | Measure _
  | ApplyCustomStyles _ | Update _ | FitSvgToContent _ | AttachEventListeners _ =>
      (inr tt, w)
  end.

End Grapher.

(** ** Rank assignment *)

Module Layout.

(** Modelled from the spec: the edges that end in [v], among the edge
    records the layout engine is given (dagre.js is not among the
    sources). *)
Definition in_edges (edges : list GEdge.t) (v : option string) : list GEdge.t :=
  filter (fun e => name_eqb (GEdge.w e) v) edges.

(** Modelled from the spec: the lowest rank that satisfies every
    candidate of the longest-path heuristic (dagre.js is not among the
    sources): the highest of the candidates, [0] when there is none; no
    rank when one of the candidates has none. *)
Fixpoint highest (candidates : list (option Z)) : option Z :=
  match candidates with
  | [] => Some 0%Z
  | c :: rest =>
      match c, highest rest with
      | Some x, Some y => Some (Z.max x y)
      | _, _ => None
      end
  end.

(** Modelled from the spec: the layered layout engine (dagre.js) is not
    among the sources.  Stage 1 of the layout, rank assignment, by the
    longest-path heuristic: a node without incoming edges is on rank 0,
    and any other node is on the lowest rank that leaves every incoming
    edge its minimum length.  [fuel] bounds the length of the paths
    followed; a node that a cycle leads into gets no rank.  The ordering
    constraints that cluster containment adds are left out. *)
Fixpoint longestPath (fuel : nat) (edges : list GEdge.t) (v : option string) : option Z :=
  match fuel with
  | O => None
  | S fuel' =>
      highest
        (map (fun e =>
                match longestPath fuel' edges (GEdge.v e) with
                | Some r => Some (r + GEdge.minlen e)%Z
                | None => None
                end)
             (in_edges edges v))
  end.

(** Modelled from the spec: the rank of a node in a graph of the given
    nodes and edges.  A path without a repeated node has at most as many
    nodes as the graph. *)
Definition rank (nodes : list GNode.t) (edges : list GEdge.t) (v : option string)
    : option Z :=
  longestPath (S (length nodes)) edges v.

(** Modelled from the spec: the layout is successful when every node has
    been given a rank; the result is the table of the ranks. *)
Fixpoint ranks_of (nodes : list GNode.t) (rank : option string -> option Z)
    : option (list (option string * Z)) :=
  match nodes with
  | [] => Some []
  | n :: rest =>
      match rank (GNode.name n), ranks_of rest rank with
      | Some r, Some table => Some ((GNode.name n, r) :: table)
      | _, _ => None
      end
  end.

(** Modelled from the spec: the rank stage of a layout run over the
    nodes and edges [render] has set (dagre.js is not among the
    sources). *)
Definition layout (nodes : list GNode.t) (edges : list GEdge.t)
    : option (list (option string * Z)) :=
  ranks_of nodes (rank nodes edges).

(** The rank a table of ranks gives to a node. *)
Fixpoint rank_in (table : list (option string * Z)) (v : option string) : option Z :=
  match table with
  | [] => None
  | (k, r) :: rest => if name_eqb k v then Some r else rank_in rest v
  end.

(** The position of a node name in an order of the names. *)
Fixpoint position (order : list (option string)) (v : option string) : option nat :=
  match order with
  | [] => None
  | k :: rest =>
      if name_eqb k v then Some O else option_map S (position rest v)
  end.

(** [order] lists the endpoints of every edge, the source before the
    target: the edges have no cycle. *)
Definition topological (order : list (option string)) (edges : list GEdge.t) : Prop :=
  forall e, In e edges ->
    exists i j, position order (GEdge.v e) = Some i
                /\ position order (GEdge.w e) = Some j /\ (i < j)%nat.

End Layout.

(** ** The shape of a delivery *)

Section Shape.

Context {W : Type}.
Variable behaviour : Callback -> EventData -> GraphLibrary -> W -> Invocation * W.

(** [Delivered eventType data listeners this w log]: from the instance
    [this] and the listeners' state [w] on, the log calls the listeners
    one after the other, each exactly once and each with [data]; the call
    of a listener that throws, and no other, is followed by the console
    entry for the error it threw, and the next listener is called all the
    same, on the instance as the calls before it have left it. *)
Inductive Delivered (eventType : string) (data : EventData)
    : list Callback -> GraphLibrary -> W -> list Delivery -> Prop :=
| Delivered_done this w : Delivered eventType data [] this w []
| Delivered_returned f rest this w inv w1 log :
    behaviour f data this w = (inv, w1) ->
    thrown inv = None ->
    Delivered eventType data rest (fold_left act (actions inv) this) w1 log ->
    Delivered eventType data (f :: rest) this w (Invoked f data :: log)
| Delivered_threw f error rest this w inv w1 log :
    behaviour f data this w = (inv, w1) ->
    thrown inv = Some error ->
    Delivered eventType data rest (fold_left act (actions inv) this) w1 log ->
    Delivered eventType data (f :: rest) this w
      (Invoked f data :: ErrorLogged eventType error :: log).

End Shape.

(** ** Sample instances *)

Module Sample.

Definition node (id : string) (parent : option string) : NodeOpts.t :=
  {| NodeOpts.id := Some id; NodeOpts.label := Js.Absent; NodeOpts.parent := parent;
     NodeOpts.styleClass := None; NodeOpts.style := None; NodeOpts.arguments := [] |}.

Definition edge (from to : string) (minlen : option Z) : EdgeOpts.t :=
  {| EdgeOpts.from := Some from; EdgeOpts.to := Some to; EdgeOpts.id := None;
     EdgeOpts.label := None; EdgeOpts.styleClass := None;
     EdgeOpts.minlen := option_map Js.Num minlen; EdgeOpts.weight := None |}.

Definition cluster (id : string) (parent : option string) : ClusterOpts.t :=
  {| ClusterOpts.id := Some id; ClusterOpts.label := Js.Absent;
     ClusterOpts.parent := parent;
     ClusterOpts.styleClass := None; ClusterOpts.style := None |}.

(** A container that still shows an earlier drawing. *)
Definition page : Container := {| children := [41; 42]; stylePosition := None |}.

Definition settings (direction : string) (compound : bool) : UserOptions.t :=
  {| UserOptions.direction := Js.Present (Some direction);
     UserOptions.nodeSep := Js.Absent; UserOptions.rankSep := Js.Absent;
     UserOptions.compound := Js.Present (Some compound) |}.

(** [new GraphLibrary(page, settings)] *)
Definition blank (direction : string) (compound : bool) : GraphLibrary :=
  {| container := {| children := [41; 42]; stylePosition := Some "relative" |};
     options := {| Options.direction := Some direction;
                   Options.nodeSep := Some (Js.Num 50);
                   Options.rankSep := Some (Js.Num 50);
                   Options.compound := Some compound |};
     _nodes := []; _edges := []; _clusters := []; _eventListeners := [];
     grapherInstance := None |}.

(** A cluster [k] holding [a] and [b], a third node [c], the edges
    [a -> b] and [b -> c], and an edge to a node [z] that was never
    added. *)
Definition calls : list Op :=
  [ OpAddCluster (Some (cluster "k" None));
    OpAddNode (Some (node "a" (Some "k")));
    OpAddNode (Some (node "b" (Some "k")));
    OpAddNode (Some (node "c" None));
    OpAddEdge (Some (edge "a" "b" None));
    OpAddEdge (Some (edge "b" "c" (Some 2%Z)));
    OpAddEdge (Some (edge "a" "z" None)) ].

Definition graph : GraphLibrary := performAll calls (blank "TB" true).


(** The same graph, to be drawn bottom-up. *)
Definition upward : GraphLibrary := performAll calls (blank "BT" true).

(** A cluster that names itself as its parent: grapher.js refuses it. *)
Definition knotted : GraphLibrary :=
  performAll [OpAddCluster (Some (cluster "k" (Some "k")))] (blank "TB" true).

(** Listener 1 throws; listener 2 registers listener 3 and adds a node
    [n] while it runs. *)
Definition behaviour (f : Callback) (data : EventData) (this : GraphLibrary) (count : nat)
    : Invocation * nat :=
  (match f with
   | 1 => {| thrown := Some "boom"; actions := [] |}
   | 2 => {| thrown := None;
             actions := [ Method (OpOn "node:click" (Function 3));
                          Method (OpAddNode (Some (node "n" None))) ] |}
   | _ => {| thrown := None; actions := [] |}
   end, S count).

Definition subscriptions : list (string * JsCallback) :=
  [ ("node:click", Function 1); ("edge:click", Function 9);
    ("node:click", NotAFunction); ("node:click", Function 2) ].

End Sample.

(** * The rest of the class *)

(** ** Instances built through the methods *)

Definition keys {V} (m : Js.Map V) : list string := map fst m.

(** An entry of the node map as [addNode] writes it: stored under its own
    id, which is not empty, and with a [label] key, whose value may be
    [undefined]. *)
Definition node_ok (entry : string * NodeOpts.t) : Prop :=
  fst entry <> ""
  /\ NodeOpts.id (snd entry) = Some (fst entry)
  /\ NodeOpts.label (snd entry) <> Js.Absent.

Definition cluster_ok (entry : string * ClusterOpts.t) : Prop :=
  fst entry <> ""
  /\ ClusterOpts.id (snd entry) = Some (fst entry)
  /\ ClusterOpts.label (snd entry) <> Js.Absent.

Definition edge_ok (edgeOpts : EdgeOpts.t) : Prop :=
  Js.truthy (EdgeOpts.from edgeOpts) = true /\ Js.truthy (EdgeOpts.to edgeOpts) = true.

(** What holds of every instance that was constructed and then only
    changed through [addNode], [addEdge], [addCluster] and [on]. *)
Record WellFormed (this : GraphLibrary) : Prop := {
  ids_unique : NoDup (keys (_nodes this) ++ keys (_clusters this));
  nodes_keyed : Forall node_ok (_nodes this);
  clusters_keyed : Forall cluster_ok (_clusters this);
  edges_ended : Forall edge_ok (_edges this)
}.

(** The edges a sequence of calls adds, in the order of the calls. *)
Fixpoint accepted_edges (ops : list Op) : list EdgeOpts.t :=
  match ops with
  | [] => []
  | OpAddEdge (Some edgeOpts) :: rest =>
      if Js.truthy (EdgeOpts.from edgeOpts) && Js.truthy (EdgeOpts.to edgeOpts)
      then edgeOpts :: accepted_edges rest
      else accepted_edges rest
  | _ :: rest => accepted_edges rest
  end.

(** The [on] calls of a sequence of calls. *)
Fixpoint subscriptions_of (ops : list Op) : list (string * JsCallback) :=
  match ops with
  | [] => []
  | OpOn eventType callback :: rest => (eventType, callback) :: subscriptions_of rest
  | _ :: rest => subscriptions_of rest
  end.

(** ** What holds of every run of a program *)

(** [always p Q]: whatever the answers to its calls, a run of [p] has a
    trace and an outcome that satisfy [Q]. *)
Fixpoint always {R} (p : Prog R) (Q : Trace -> Outcome R -> Prop) : Prop :=
  match p with
  | Ret r => Q [] (Resolved r)
  | Raise e => Q [] (Rejected e)
  | Do c k => forall reply, always (k reply) (fun t o => Q (Ev c reply :: t) o)
  end.

Definition fulfilled {R} (o : Outcome R) : Prop := exists r, o = Resolved r.

(** What a trace hands over, call by call. *)
Definition gather {A} (collect : Event -> list A) (t : Trace) : list A :=
  flat_map collect t.

(** [yields p collect S]: in every run of [p] that is fulfilled, what the
    trace hands over satisfies [S]. *)
Definition yields {R A} (p : Prog R) (collect : Event -> list A) (S : list A -> Prop) : Prop :=
  always p (fun t o => fulfilled o -> S (gather collect t)).

(** ** The steps of [render] *)

(** The number of the step of [render] a call belongs to, as the steps
    are numbered in the source; the console is written to, and
    [this.grapherInstance] read, from several steps. *)
Definition step (X : Type) (c : Cmd X) : option nat :=
  match c with
  | ClearContainer | NewGraph _ | AssignInstance _ => Some 0
  | SetNode _ node => Some (if GNode._isCluster node then 1 else 2)
  | SetParent _ _ _ => Some 3
  | Node _ _ | SetEdge _ _ => Some 4
  | SetOptions _ _ | SetIdentifier _ _ => Some 5
  | CreateSvg | AppendChild _ | Build _ _ => Some 6
  | Measure _ => Some 7
  | Layout _ => Some 8
  | ApplyCustomStyles _ => Some 9
  | Update _ => Some 10
  | FitSvgToContent _ => Some 11
  | AttachEventListeners _ => Some 12
  | GrapherInstance | Console _ => None
  end.

Definition step_of (e : Event) : list nat :=
  match e with
  | Ev c _ => match step _ c with Some s => [s] | None => [] end
  end.

(** The step numbers along a trace. *)
Definition steps (t : Trace) : list nat := gather step_of t.

(** The numbers start at [lo] or above and never decrease. *)
Fixpoint ascending_from (lo : nat) (l : list nat) : Prop :=
  match l with
  | [] => True
  | s :: rest => lo <= s /\ ascending_from s rest
  end.

(** ** What [render] hands to grapher.js *)

Definition node_set (e : Event) : list GNode.t :=
  match e with
  | Ev c _ => match c with SetNode _ node => [node] | _ => [] end
  end.

Definition parent_set (e : Event) : list (option string * option string) :=
  match e with
  | Ev c _ => match c with SetParent _ node parent => [(node, parent)] | _ => [] end
  end.

(** The warning of step 4 for an edge that is left out. *)
Definition skip_message (edgeOpts : EdgeOpts.t) : string :=
  ("Skipping edge from '" ++ show (EdgeOpts.from edgeOpts)
   ++ "' to '" ++ show (EdgeOpts.to edgeOpts)
   ++ "': one or both nodes not found.")%string.

(** What became of an edge: the [grapher.Edge] handed over, or the
    warning that it was skipped. *)
Definition edge_settled (e : Event) : list (GEdge.t + string) :=
  match e with
  | Ev c _ =>
      match c with
      | SetEdge _ edge => [inl edge]
      | Console (Warn message) =>
          if String.prefix "Skipping edge from '" message then [inr message] else []
      | _ => []
      end
  end.

(** The parent a cluster or a node asks for, when it asks for one. *)
Definition cluster_parent (clusterOpts : ClusterOpts.t) : list (option string * option string) :=
  if Js.truthy (ClusterOpts.parent clusterOpts)
  then [(ClusterOpts.id clusterOpts, ClusterOpts.parent clusterOpts)]
  else [].

Definition node_parent (nodeOpts : NodeOpts.t) : list (option string * option string) :=
  if Js.truthy (NodeOpts.parent nodeOpts)
  then [(NodeOpts.id nodeOpts, NodeOpts.parent nodeOpts)]
  else [].

(** The graphs a trace created, and the graphs its calls address. *)
Definition graph_created (e : Event) : list GraphRef :=
  match e with
  | Ev c reply =>
      match c in Cmd X return Reply X -> list GraphRef with
      | NewGraph _ => fun reply =>
          match reply with
          | inr g => [g]
          | inl _ => []
          end
      | _ => fun _ => []
      end reply
  end.

Definition graph_of (X : Type) (c : Cmd X) : option GraphRef :=
  match c with
  | AssignInstance g | SetNode g _ | SetParent g _ _ | Node g _ | SetEdge g _
  | SetOptions g _ | SetIdentifier g _ | Build g _ | Measure g | Layout g
  | ApplyCustomStyles g | Update g | AttachEventListeners g => Some g
  | _ => None
  end.

Definition graph_addressed (e : Event) : list GraphRef :=
  match e with
  | Ev c _ => match graph_of _ c with Some g => [g] | None => [] end
  end.

(** The call addresses the graph [g], or no graph at all, and does not
    create or assign one. *)
Definition addresses (g : GraphRef) (X : Type) (c : Cmd X) : bool :=
  match c with
  | NewGraph _ | AssignInstance _ => false
  | _ => match graph_of X c with Some g' => Nat.eqb g' g | None => true end
  end.

(** ** Exceptions *)

(** The exception a call threw, for every call but the layout, whose
    failure [render] catches. *)
Definition failure (e : Event) : option string :=
  match e with
  | Ev c (inl error) => if is_layout (Ev c (inl error)) then None else Some error
  | Ev _ (inr _) => None
  end.

(** The run ends at the first call that fails, rejected with its
    exception; a run without such a call is fulfilled. *)
Fixpoint stops_at_failure {R} (t : Trace) (o : Outcome R) : Prop :=
  match t with
  | [] => fulfilled o
  | e :: rest =>
      match failure e with
      | Some error => rest = [] /\ o = Rejected error
      | None => stops_at_failure rest o
      end
  end.

(** A layout call whose promise was rejected. *)
Definition layout_failed (e : Event) : bool := is_layout e && negb (gave_back e).

(** The call hands grapher.js no node. *)
Definition no_node (X : Type) (c : Cmd X) : bool :=
  match c with SetNode _ _ => false | _ => true end.

(** The call sets no parent. *)
Definition no_parent (X : Type) (c : Cmd X) : bool :=
  match c with SetParent _ _ _ => false | _ => true end.

(** The call settles no edge. *)
Definition no_edge (X : Type) (c : Cmd X) : bool :=
  match c with
  | SetEdge _ _ => false
  | Console (Warn message) => negb (String.prefix "Skipping edge from '" message)
  | _ => true
  end.

(** A parent that is set is a non-empty id. *)
Definition parent_given (X : Type) (c : Cmd X) : bool :=
  match c with
  | SetParent _ _ parent => Js.truthy parent
  | _ => true
  end.

(** A node as grapher.js needs it: named by its id, which is not empty,
    and, when it is not a cluster, with a header text that is not
    empty. *)
Definition named (node : GNode.t) : bool :=
  Js.truthy (GNode.name node)
  && name_eqb (GNode.id node) (GNode.name node)
  && (GNode._isCluster node
      || match GNode.header node with
         | Some entry => Js.truthy (HeaderEntry.content entry)
         | None => false
         end).

Definition hands_named (X : Type) (c : Cmd X) : bool :=
  match c with
  | SetNode _ node => named node
  | _ => true
  end.

(** The reasons the layout promises of a trace were rejected with, and
    the errors a trace wrote to the console. *)
Definition layout_rejection (e : Event) : list string :=
  match e with
  | Ev c reply =>
      match c in Cmd X return Reply X -> list string with
      | Layout _ => fun reply =>
          match reply with
          | inl error => [error]
          | inr _ => []
          end
      | _ => fun _ => []
      end reply
  end.

Definition error_logged (e : Event) : list string :=
  match e with
  | Ev c _ => match c with Console (Error message) => [message] | _ => [] end
  end.

(** ** What the listeners leave in place *)

(** [grown this this']: nothing that [this] holds is missing from
    [this'] or changed in it: every stored node and cluster entry is the
    same, the edges and the listeners of every event type are the former
    ones followed by further ones, and the options and the inline
    position of the container are the same. *)
Definition grown (this this' : GraphLibrary) : Prop :=
  (forall id entry, Js.get (_nodes this) id = Some entry ->
     Js.get (_nodes this') id = Some entry)
  /\ (forall id entry, Js.get (_clusters this) id = Some entry ->
        Js.get (_clusters this') id = Some entry)
  /\ (exists more, _edges this' = _edges this ++ more)
  /\ (forall eventType, exists more,
        listeners_of this' eventType = listeners_of this eventType ++ more)
  /\ options this' = options this
  /\ stylePosition (container this') = stylePosition (container this).

(** In every run of the program the step numbers start at [lo] or above,
    never decrease and stay at [hi] or below. *)
Definition staged {R} (lo hi : nat) (p : Prog R) : Prop :=
  always p (fun t _ => ascending_from lo (steps t) /\ Forall (fun s => s <= hi) (steps t)).

(** The grapher instance of the class after the calls of a trace. *)
Fixpoint instance_after (current : option GraphRef) (t : Trace) : option GraphRef :=
  match t with
  | [] => current
  | Ev c _ :: rest =>
      instance_after
        match c with
        | AssignInstance g => Some g
        | _ => current
        end rest
  end.

(** The call is not awaited. *)
Definition settles_at_once (X : Type) (c : Cmd X) : bool := negb (awaited c).

Definition is_awaited : Event -> bool := command_is (fun _ c => awaited c).

(** The calls of a trace up to the first awaited call, that call
    included, and the calls after it. *)
Fixpoint until_await (t : Trace) : Trace :=
  match t with
  | [] => []
  | e :: rest => if is_awaited e then [e] else e :: until_await rest
  end.

Fixpoint after_await (t : Trace) : Trace :=
  match t with
  | [] => []
  | e :: rest => if is_awaited e then rest else after_await rest
  end.

(** Other code that leaves [this.grapherInstance] alone. *)
Definition keeps_instance {W} (meanwhile : W -> GraphLibrary -> GraphLibrary) : Prop :=
  forall w this, grapherInstance (meanwhile w this) = grapherInstance this.

(** A call of grapher.js that threw while the graph was described, in
    steps 1 to 5 or when the graph was created before them. *)
Definition describe_failed (e : Event) : bool :=
  negb (gave_back e)
  && match e with
     | Ev c _ => match step _ c with Some s => (s <=? 5)%nat | None => false end
     end.

(** The call belongs to step 6 or to a later one. *)
Definition presenting (X : Type) (c : Cmd X) : bool :=
  match step X c with
  | Some s => (6 <=? s)%nat
  | None => true
  end.

(** In every run the program ends at the first failing call. *)
Definition faithful {R} (p : Prog R) : Prop := always p stops_at_failure.

(** ** [saveSvg] *)

(** A style sheet of the document as [saveSvg] meets it: reading
    [cssRules] throws on a sheet from another origin; otherwise it gives
    null or the rules, each with its [cssText]. *)
Inductive StyleSheet :=
| CrossOrigin (error : string)
| Readable (cssRules : option (list string)).

Definition newline : string := String (ascii_of_nat 10) EmptyString.

Definition cross_origin_warning (error : string) : string :=
  ("Cannot read cross-origin stylesheet. Styles from it won't be embedded. " ++ error)%string.

(** The inner loop: [cssText += rule.cssText + '\n'] for every rule. *)
Fixpoint appendRules (rules : list string) (cssText : string) : string :=
  match rules with
  | [] => cssText
  | rule :: rest => appendRules rest (cssText ++ (rule ++ newline))%string
  end.

(** The loop over [document.styleSheets], each sheet in its own
    [try]/[catch]: the text gathered, and what was written to the
    console. *)
Fixpoint collectCss (styleSheets : list StyleSheet) (cssText : string)
    : string * list ConsoleEntry :=
  match styleSheets with
  | [] => (cssText, [])
  | CrossOrigin error :: rest =>
      let (text, log) := collectCss rest cssText in
      (text, Warn (cross_origin_warning error) :: log)
  | Readable None :: rest => collectCss rest cssText
  | Readable (Some rules) :: rest => collectCss rest (appendRules rules cssText)
  end.

(** The rules of the sheets that can be read, in document order. *)
Fixpoint readable_rules (styleSheets : list StyleSheet) : list string :=
  match styleSheets with
  | [] => []
  | Readable (Some rules) :: rest => rules ++ readable_rules rest
  | _ :: rest => readable_rules rest
  end.

Fixpoint unreadable (styleSheets : list StyleSheet) : list string :=
  match styleSheets with
  | [] => []
  | CrossOrigin error :: rest => error :: unreadable rest
  | _ :: rest => unreadable rest
  end.

(** The part of the document [saveSvg] works on. *)
Module Dom.

#[warnings="-register-all"]
Inductive t :=
| El (tag : string) (attributes : Js.Map string) (children : list t)
| Txt (content : string).

(** The first element with the tag, in document order, among a node and
    its descendants, and among a list of nodes and theirs. *)
Fixpoint find (tag : string) (node : t) : option t :=
  match node with
  | Txt _ => None
  | El tag' attributes children =>
      if tag' =? tag then Some node
      else (fix among (nodes : list t) : option t :=
              match nodes with
              | [] => None
              | first :: rest =>
                  match find tag first with
                  | Some found => Some found
                  | None => among rest
                  end
              end) children
  end.

Fixpoint among (tag : string) (nodes : list t) : option t :=
  match nodes with
  | [] => None
  | first :: rest =>
      match find tag first with
      | Some found => Some found
      | None => among tag rest
      end
  end.

(** [element.querySelector(tag)]: the descendants only. *)
Definition querySelector (tag : string) (element : t) : option t :=
  match element with
  | El _ _ children => among tag children
  | Txt _ => None
  end.

(** [querySelector(tag).appendChild(child)] seen from the root: the tree
    with [child] added as the last child of the first element with the
    tag; nothing when there is no such element. *)
Fixpoint appendIn (tag : string) (child : t) (node : t) : option t :=
  match node with
  | Txt _ => None
  | El tag' attributes children =>
      if tag' =? tag then Some (El tag' attributes (children ++ [child]))
      else
        option_map (El tag' attributes)
          ((fix within (nodes : list t) : option (list t) :=
              match nodes with
              | [] => None
              | first :: rest =>
                  match appendIn tag child first with
                  | Some first' => Some (first' :: rest)
                  | None => option_map (cons first) (within rest)
                  end
              end) children)
  end.

Fixpoint appendAmong (tag : string) (child : t) (nodes : list t) : option (list t) :=
  match nodes with
  | [] => None
  | first :: rest =>
      match appendIn tag child first with
      | Some first' => Some (first' :: rest)
      | None => option_map (cons first) (appendAmong tag child rest)
      end
  end.

(** The number of elements with the tag in a node and in a list of
    nodes. *)
Fixpoint count (tag : string) (node : t) : nat :=
  match node with
  | Txt _ => 0
  | El tag' _ children =>
      (if tag' =? tag then 1 else 0)
      + (fix total (nodes : list t) : nat :=
           match nodes with
           | [] => 0
           | first :: rest => count tag first + total rest
           end) children
  end.

Fixpoint total (tag : string) (nodes : list t) : nat :=
  match nodes with
  | [] => 0
  | first :: rest => count tag first + total tag rest
  end.

End Dom.

Definition svg_namespace : string := "http://www.w3.org/2000/svg".

(** [document.createElement('style')] with [textContent = cssText]:
    setting the empty string leaves the element without a child. *)
Definition styleElement (cssText : string) : Dom.t :=
  Dom.El "style" [] (if cssText =? "" then [] else [Dom.Txt cssText]).

(** The clone with the style element in its first [defs]; a clone without
    a [defs] gets a new one as its first child. *)
Definition embedStyle (svgClone : Dom.t) (style : Dom.t) : Dom.t :=
  match svgClone with
  | Dom.Txt content => Dom.Txt content
  | Dom.El tag attributes children =>
      match Dom.appendAmong "defs" style children with
      | Some children' => Dom.El tag attributes children'
      | None => Dom.El tag attributes (Dom.El "defs" [] [style] :: children)
      end
  end.

(** The file handed to the browser through the temporary link: the
    document that is serialised, and the name it is saved under. *)
Record Download := {
  document : Dom.t;
  download : string
}.

Record Saved := {
  said : list ConsoleEntry;
  alerted : list string;
  downloaded : list Download
}.

(** The file name [saveSvg] uses. *)
Definition file_name (filename : option string) : string :=
  match filename with Some name => name | None => "graph.svg" end.

(** [saveSvg(filename = 'graph.svg')], given the content of the container
    and the style sheets of the document. *)
Definition saveSvg (filename : option string) (container : Dom.t)
    (styleSheets : list StyleSheet) : Saved :=
  match Dom.querySelector "svg" container with
  | Some (Dom.El tag attributes children) =>
      let svgClone := Dom.El tag (Js.set attributes "xmlns" svg_namespace) children in
      let (cssText, warnings) := collectCss styleSheets "" in
      {| said := warnings;
         alerted := [];
         downloaded :=
           [ {| document := embedStyle svgClone (styleElement cssText);
                download := file_name filename |} ] |}
  | _ =>
      {| said := [Error "SVG element not found. Please render the graph first."];
         alerted := ["Please render a graph before trying to save it."];
         downloaded := [] |}
  end.

(** Every rule followed by a line feed. *)
Fixpoint lines (rules : list string) : string :=
  match rules with
  | [] => ""
  | rule :: rest => (rule ++ newline ++ lines rest)%string
  end.

(** ** The React component *)

(** The props of [GraphComponent].  An array holds whatever the parent
    put in it, so an item may be missing; a handler is a function or
    absent. *)
Module Props.
Record t := {
  nodes : option (list (option NodeOpts.t));
  edges : option (list (option EdgeOpts.t));
  clusters : option (list (option ClusterOpts.t));
  options : option UserOptions.t;
  onNodeClick : option Callback;
  onEdgeClick : option Callback;
  onNodeArgumentClick : option Callback
}.
End Props.

(** [{ compound: true, ...options }]: a [compound] key of the [options]
    prop overrides the [true], also when its value is [undefined]. *)
Definition component_options (options : option UserOptions.t) : UserOptions.t :=
  match options with
  | None =>
      {| UserOptions.direction := Js.Absent; UserOptions.nodeSep := Js.Absent;
         UserOptions.rankSep := Js.Absent; UserOptions.compound := Js.Present (Some true) |}
  | Some given =>
      {| UserOptions.direction := UserOptions.direction given;
         UserOptions.nodeSep := UserOptions.nodeSep given;
         UserOptions.rankSep := UserOptions.rankSep given;
         UserOptions.compound :=
           Js.Present (Js.spread (Some true) (UserOptions.compound given)) |}
  end.

(** One statement after another: an exception ends the sequence, and what
    was written to the console adds up. *)
Definition andThenCall (first : Call) (next : GraphLibrary -> Call) : Call :=
  match completion first with
  | Threw _ => first
  | Returned =>
      let second := next (after first) in
      {| completion := completion second;
         logged := logged first ++ logged second;
         after := after second |}
  end.

(** [items.forEach(item => graph.method(item))] *)
Fixpoint forEachCall {A} (method : A -> GraphLibrary -> Call) (items : list A)
    (graph : GraphLibrary) : Call :=
  match items with
  | [] => returns graph
  | item :: rest => andThenCall (method item graph) (forEachCall method rest)
  end.

(** [if (items) items.forEach(...)] *)
Definition whenGiven {A} (method : A -> GraphLibrary -> Call) (items : option (list A))
    (graph : GraphLibrary) : Call :=
  match items with
  | Some given => forEachCall method given graph
  | None => returns graph
  end.

(** [if (handler) graph.on(eventType, (data) => { handler(data); })]: the
    listener registered is the arrow function, which hands its argument
    on to the handler and so stands for it. *)
Definition whenHandled (eventType : string) (handler : option Callback)
    (graph : GraphLibrary) : Call :=
  match handler with
  | Some f => on eventType (Function f) graph
  | None => returns graph
  end.

(** The effect from the new instance up to the call of [render]. *)
Definition populate (props : Props.t) (graph : GraphLibrary) : Call :=
  andThenCall (whenGiven addCluster (Props.clusters props) graph) (fun graph =>
  andThenCall (whenGiven addNode (Props.nodes props) graph) (fun graph =>
  andThenCall (whenGiven addEdge (Props.edges props) graph) (fun graph =>
  andThenCall (whenHandled "node:click" (Props.onNodeClick props) graph) (fun graph =>
  andThenCall (whenHandled "edge:click" (Props.onEdgeClick props) graph) (fun graph =>
  whenHandled "node:argument:click" (Props.onNodeArgumentClick props) graph))))).

(** The drawing effect of the component, up to the call of [render]:
    nothing without a mounted container; otherwise the container is
    emptied, a new instance made for it and filled from the props.
    [inl] carries what the constructor threw. *)
Definition draw (props : Props.t) (current : option Container)
    (computedPosition : option string) : option (string + Call) :=
  match current with
  | None => None
  | Some element =>
      let emptied := {| children := []; stylePosition := stylePosition element |} in
      match constructor (Some emptied) computedPosition
              (component_options (Props.options props)) with
      | inl message => Some (inl message)
      | inr graph => Some (inr (populate props graph))
      end
  end.

Definition given {A} (items : option (list A)) : list A :=
  match items with Some l => l | None => [] end.

Definition handled (eventType : string) (handler : option Callback) : list Op :=
  match handler with Some f => [OpOn eventType (Function f)] | None => [] end.

(** The calls the effect makes on the instance when none of them throws. *)
Definition calls_of (props : Props.t) : list Op :=
  map OpAddCluster (given (Props.clusters props))
  ++ map OpAddNode (given (Props.nodes props))
  ++ map OpAddEdge (given (Props.edges props))
  ++ handled "node:click" (Props.onNodeClick props)
  ++ handled "edge:click" (Props.onEdgeClick props)
  ++ handled "node:argument:click" (Props.onNodeArgumentClick props).

(** Items the add methods do not throw on. *)
Definition node_given (item : option NodeOpts.t) : bool :=
  match item with Some nodeOpts => Js.truthy (NodeOpts.id nodeOpts) | None => false end.

Definition cluster_given (item : option ClusterOpts.t) : bool :=
  match item with
  | Some clusterOpts => Js.truthy (ClusterOpts.id clusterOpts)
  | None => false
  end.

Definition edge_given (item : option EdgeOpts.t) : bool :=
  match item with
  | Some edgeOpts => Js.truthy (EdgeOpts.from edgeOpts) && Js.truthy (EdgeOpts.to edgeOpts)
  | None => false
  end.

(** The instance the effect starts from. *)
Definition component_graph (props : Props.t) (element : Container)
    (computedPosition : option string) : string + GraphLibrary :=
  constructor (Some {| children := []; stylePosition := stylePosition element |})
    computedPosition (component_options (Props.options props)).

(** Whether the instance of the component is compound: the component
    switches it on unless the [options] prop has a [compound] key, and
    then the value of that key decides, [undefined] counting as false. *)
Definition component_compound (props : Props.t) : bool :=
  match Props.options props with
  | Some given => Js.truthy_bool (Js.spread (Some true) (UserOptions.compound given))
  | None => true
  end.

Module SampleProps.

(** A cluster and a node that share the id [k], a node in the cluster,
    an edge, and a click handler. *)
Definition clash : Props.t :=
  {| Props.nodes := Some [Some (Sample.node "a" (Some "k")); Some (Sample.node "k" None)];
     Props.edges := Some [Some (Sample.edge "a" "k" None)];
     Props.clusters := Some [Some (Sample.cluster "k" None)];
     Props.options := None;
     Props.onNodeClick := Some 7;
     Props.onEdgeClick := None;
     Props.onNodeArgumentClick := None |}.

(** The instance the component makes on [Sample.page] for these props. *)
Definition mounted : GraphLibrary :=
  {| container := {| children := []; stylePosition := Some "relative" |};
     options := {| Options.direction := Some "TB";
                   Options.nodeSep := Some (Js.Num 50);
                   Options.rankSep := Some (Js.Num 50);
                   Options.compound := Some true |};
     _nodes := []; _edges := []; _clusters := []; _eventListeners := [];
     grapherInstance := None |}.

(** The props with the cluster's id left out. *)
Definition nameless : Props.t :=
  {| Props.nodes := Props.nodes clash;
     Props.edges := Props.edges clash;
     Props.clusters :=
       Some [Some {| ClusterOpts.id := None; ClusterOpts.label := Js.Present (Some "K");
                     ClusterOpts.parent := None; ClusterOpts.styleClass := None;
                     ClusterOpts.style := None |}];
     Props.options := None;
     Props.onNodeClick := None;
     Props.onEdgeClick := None;
     Props.onNodeArgumentClick := None |}.

(** The same props with [options = { compound: undefined }]: the key
    overrides the [true] of the component and the default of the class. *)
Definition undecided : Props.t :=
  {| Props.nodes := Props.nodes nameless;
     Props.edges := Props.edges nameless;
     Props.clusters := Props.clusters nameless;
     Props.options :=
       Some {| UserOptions.direction := Js.Absent; UserOptions.nodeSep := Js.Absent;
               UserOptions.rankSep := Js.Absent; UserOptions.compound := Js.Present None |};
     Props.onNodeClick := None;
     Props.onEdgeClick := None;
     Props.onNodeArgumentClick := None |}.

(** The instance the component makes on [Sample.page] for them. *)
Definition flat : GraphLibrary :=
  {| container := {| children := []; stylePosition := Some "relative" |};
     options := {| Options.direction := Some "TB";
                   Options.nodeSep := Some (Js.Num 50);
                   Options.rankSep := Some (Js.Num 50);
                   Options.compound := None |};
     _nodes := []; _edges := []; _clusters := []; _eventListeners := [];
     grapherInstance := None |}.

End SampleProps.

(** ** Plain text *)

(** An ASCII character other than white space. *)
Definition plain (c : ascii) : bool :=
  (nat_of_ascii c <? 128)%nat && negb (Js.is_space c).

(** ** Clicks *)

(** The events the click handlers of a node emit: the one of its header
    entry, the one of its argument list, and one for each argument. *)
Definition clicks (node : GNode.t) : list (string * EventData) :=
  match GNode.header node with
  | Some entry => [HeaderEntry.click entry]
  | None => []
  end
  ++ match GNode.list node with
     | Some block => ArgumentList.click block :: map Argument.activate (ArgumentList.items block)
     | None => []
     end.

(** * Properties *)

(** ** The map operations *)

Section MapFacts.

Context {V : Type}.
Implicit Types (m : Js.Map V) (k : string) (v : V).

Lemma get_set_same m k v : Js.get (Js.set m k v) k = Some v.
Proof.
  induction m as [|[k' v'] m IH]; simpl.
  - now rewrite String.eqb_refl.
  - destruct (k' =? k) eqn:E; simpl.
    + now rewrite String.eqb_refl.
    + now rewrite E.
Qed.

Lemma get_set_other m k k' v : k <> k' -> Js.get (Js.set m k v) k' = Js.get m k'.
Proof.
  intros Hne. induction m as [|[k0 v0] m IH]; simpl.
  - apply String.eqb_neq in Hne. now rewrite Hne.
  - destruct (k0 =? k) eqn:E; simpl.
    + apply String.eqb_eq in E. subst k0.
      apply String.eqb_neq in Hne. now rewrite Hne.
    + now rewrite IH.
Qed.

Lemma has_false_get m k : Js.has m k = false -> Js.get m k = None.
Proof.
  induction m as [|[k' v'] m IH]; simpl; [reflexivity|].
  destruct (k' =? k); [discriminate | exact IH].
Qed.

Lemma has_true_get m k : Js.has m k = true -> exists v, Js.get m k = Some v.
Proof.
  induction m as [|[k' v'] m IH]; simpl; [discriminate|].
  destruct (k' =? k); [now exists v' | exact IH].
Qed.

End MapFacts.

Lemma name_eqb_eq (a b : option string) : name_eqb a b = true <-> a = b.
Proof.
  destruct a as [a|], b as [b|]; simpl; split; intros H;
    try discriminate; try reflexivity.
  - apply String.eqb_eq in H. now subst.
  - injection H as ->. apply String.eqb_refl.
Qed.

(** ** Adding nodes, edges and clusters *)

(** C1. Node and cluster ids share one namespace, and a duplicate is
    rejected without overwriting: when [id] is a key of the node map or of
    the cluster map, [addNode] and [addCluster] called with that id leave
    the instance, and so the entry stored under [id] and both collections,
    exactly as they were; for an id that is not empty the call ends with
    the warning that the id already exists. *)
Theorem duplicate_id_rejected (this : GraphLibrary) (id : string)
    (present_already : Js.has (_nodes this) id || Js.has (_clusters this) id = true) :
  (forall nodeOpts, NodeOpts.id nodeOpts = Some id ->
     after (addNode (Some nodeOpts) this) = this) /\
  (forall clusterOpts, ClusterOpts.id clusterOpts = Some id ->
     after (addCluster (Some clusterOpts) this) = this) /\
  (forall nodeOpts, NodeOpts.id nodeOpts = Some id -> id <> "" ->
     addNode (Some nodeOpts) this = warns (already_exists id) this) /\
  (forall clusterOpts, ClusterOpts.id clusterOpts = Some id -> id <> "" ->
     Js.truthy_bool (Options.compound (options this)) = true ->
     addCluster (Some clusterOpts) this = warns (already_exists id) this).
Proof.
  repeat apply conj.
  - intros o Hid. unfold addNode. rewrite Hid, present_already.
    now destruct (id =? "").
  - intros o Hid. unfold addCluster. rewrite Hid, present_already.
    destruct (negb (Js.truthy_bool (Options.compound (options this)))); [reflexivity|].
    now destruct (id =? "").
  - intros o Hid Hne. unfold addNode. rewrite Hid, present_already.
    apply String.eqb_neq in Hne. now rewrite Hne.
  - intros o Hid Hne Hc. unfold addCluster. rewrite Hid, present_already, Hc.
    apply String.eqb_neq in Hne. now rewrite Hne.
Qed.

Lemma duplicate_id_rejected_witness :
  Js.has (_nodes Sample.graph) "k" || Js.has (_clusters Sample.graph) "k" = true
  /\ after (addNode (Some (Sample.node "k" None)) Sample.graph) = Sample.graph
  /\ addCluster (Some (Sample.cluster "k" (Some "a"))) Sample.graph
     = warns (already_exists "k") Sample.graph
  /\ Js.get (_clusters (after (addNode (Some (Sample.node "k" None)) Sample.graph))) "k"
     = Some (cluster_entry (Sample.cluster "k" None)).
Proof.
  pose proof (duplicate_id_rejected Sample.graph "k" eq_refl) as (N & _ & _ & C).
  split; [reflexivity|]. split; [apply N; reflexivity|].
  split; [apply C; [reflexivity | discriminate | reflexivity]|].
  rewrite N; reflexivity.
Defined.

(** C8. Structural errors surface at the mutating call and leave no
    partial effect: [addNode] without options or without an id, and
    [addEdge] without options or without a [from] or a [to], end by
    throwing ([throws message this]: the completion is [Threw], nothing is
    logged, and the instance, node map and edge list included, is the one
    from before the call). *)
Theorem structural_errors_thrown_at_the_call (this : GraphLibrary) :
  addNode None this = throws "Node options with an `id` must be provided." this /\
  (forall nodeOpts, Js.truthy (NodeOpts.id nodeOpts) = false ->
     addNode (Some nodeOpts) this
     = throws "Node options with an `id` must be provided." this) /\
  addEdge None this
  = throws "Edge options with `from` and `to` IDs must be provided." this /\
  (forall edgeOpts,
     Js.truthy (EdgeOpts.from edgeOpts) = false \/ Js.truthy (EdgeOpts.to edgeOpts) = false ->
     addEdge (Some edgeOpts) this
     = throws "Edge options with `from` and `to` IDs must be provided." this).
Proof.
  split; [reflexivity|]. split; [|split; [reflexivity|]].
  - intros o H. unfold addNode, Js.truthy in *.
    destruct (NodeOpts.id o) as [id|]; [|reflexivity].
    destruct (id =? ""); [reflexivity | discriminate].
  - intros o H. unfold addEdge.
    destruct H as [H|H]; rewrite H; simpl; [reflexivity|].
    now rewrite orb_true_r.
Qed.

Lemma structural_errors_thrown_at_the_call_witness :
  Js.truthy (NodeOpts.id (Sample.node "" None)) = false
  /\ completion (addNode (Some (Sample.node "" None)) Sample.graph)
     = Threw "Node options with an `id` must be provided."
  /\ Js.truthy (EdgeOpts.to (Sample.edge "a" "" None)) = false
  /\ after (addEdge (Some (Sample.edge "a" "" None)) Sample.graph) = Sample.graph.
Proof.
  pose proof (structural_errors_thrown_at_the_call Sample.graph) as (_ & N & _ & E).
  split; [reflexivity|]. split; [|split; [reflexivity|]].
  - rewrite N; reflexivity.
  - rewrite E; [reflexivity | right; reflexivity].
Defined.

(** C2, the claim as stated fails: on a graph without any node, [addEdge]
    with the endpoints [a] and [z] returns normally and stores the edge. *)
Lemma addEdge_accepts_missing_endpoints :
  let this := Sample.blank "TB" true in
  let edgeOpts := Sample.edge "a" "z" None in
  Js.has (_nodes this) "a" = false /\ Js.has (_nodes this) "z" = false
  /\ completion (addEdge (Some edgeOpts) this) = Returned
  /\ _edges (after (addEdge (Some edgeOpts) this)) = [edgeOpts].
Proof. repeat split. Qed.

(** ** Listeners *)

Lemma listeners_of_on (this : GraphLibrary) (ty ty' : string) (cb : JsCallback) :
  listeners_of (after (on ty cb this)) ty'
  = listeners_of this ty' ++ registered [(ty, cb)] ty'.
Proof.
  unfold listeners_of, on. destruct cb as [f|]; simpl; [|now rewrite app_nil_r].
  destruct (Js.has (_eventListeners this) ty) eqn:Hhas.
  - destruct (has_true_get _ _ Hhas) as [l Hl]. rewrite Hl. simpl.
    destruct (ty =? ty') eqn:E.
    + apply String.eqb_eq in E. subst ty'. now rewrite get_set_same, Hl.
    + apply String.eqb_neq in E. rewrite get_set_other by exact E.
      now rewrite app_nil_r.
  - rewrite get_set_same. simpl.
    destruct (ty =? ty') eqn:E.
    + apply String.eqb_eq in E. subst ty'.
      now rewrite get_set_same, (has_false_get _ _ Hhas).
    + apply String.eqb_neq in E. rewrite !get_set_other by exact E.
      now rewrite app_nil_r.
Qed.

Lemma registered_app (calls calls' : list (string * JsCallback)) (ty : string) :
  registered (calls ++ calls') ty = registered calls ty ++ registered calls' ty.
Proof.
  induction calls as [|[ty0 [f|]] calls IH]; simpl; auto.
  destruct (ty0 =? ty); simpl; now rewrite IH.
Qed.

Lemma listeners_of_registered (calls : list (string * JsCallback))
    (this : GraphLibrary) (ty : string) :
  listeners_of (fold_left register calls this) ty
  = listeners_of this ty ++ registered calls ty.
Proof.
  revert this. induction calls as [|[ty0 cb] calls IH]; intros this.
  - simpl. now rewrite app_nil_r.
  - change (fold_left register ((ty0, cb) :: calls) this)
      with (fold_left register calls (after (on ty0 cb this))).
    rewrite IH, listeners_of_on, <- app_assoc.
    f_equal. symmetry. apply (registered_app [(ty0, cb)]).
Qed.

Lemma invoked_app (log log' : list Delivery) :
  invoked (log ++ log') = invoked log ++ invoked log'.
Proof.
  induction log as [|[f d|ty e] log IH]; simpl; [reflexivity| |exact IH].
  now rewrite IH.
Qed.

Section Delivery.

Context {W : Type}.
Variable behaviour : Callback -> EventData -> GraphLibrary -> W -> Invocation * W.

(** What the guarded call of one listener amounts to. *)
Lemma guarded_call eventType f data this w :
  guarded behaviour eventType f data this w
  = let (inv, w1) := behaviour f data this w in
    (Returned,
     Invoked f data
     :: match thrown inv with
        | Some error => [ErrorLogged eventType error]
        | None => []
        end,
     fold_left act (actions inv) this, w1).
Proof.
  unfold guarded, invoke. destruct (behaviour f data this w) as [inv w1].
  now destruct (thrown inv).
Qed.

Lemma deliver_returns eventType data listeners this w :
  fst (fst (fst (deliver behaviour eventType listeners data this w))) = Returned.
Proof.
  revert this w. induction listeners as [|f rest IH]; intros this w; [reflexivity|].
  cbn [deliver]. rewrite guarded_call.
  destruct (behaviour f data this w) as [inv w1].
  specialize (IH (fold_left act (actions inv) this) w1).
  now destruct (deliver behaviour eventType rest data _ w1) as [[[c log] this2] w2].
Qed.

Lemma deliver_invoked eventType data listeners this w :
  invoked (snd (fst (fst (deliver behaviour eventType listeners data this w))))
  = map (fun f => (f, data)) listeners.
Proof.
  revert this w. induction listeners as [|f rest IH]; intros this w; [reflexivity|].
  cbn [deliver]. rewrite guarded_call.
  destruct (behaviour f data this w) as [inv w1].
  specialize (IH (fold_left act (actions inv) this) w1).
  destruct (deliver behaviour eventType rest data _ w1) as [[[c log] this2] w2].
  cbn [fst snd] in *. rewrite invoked_app, IH.
  now destruct (thrown inv).
Qed.

Lemma deliver_Delivered eventType data listeners this w :
  Delivered behaviour eventType data listeners this w
    (snd (fst (fst (deliver behaviour eventType listeners data this w)))).
Proof.
  revert this w. induction listeners as [|f rest IH]; intros this w; [constructor|].
  cbn [deliver]. rewrite guarded_call.
  destruct (behaviour f data this w) as [inv w1] eqn:B.
  specialize (IH (fold_left act (actions inv) this) w1).
  destruct (deliver behaviour eventType rest data _ w1) as [[[c log] this2] w2].
  cbn [fst snd] in *.
  destruct (thrown inv) as [error|] eqn:T; simpl.
  - exact (Delivered_threw behaviour eventType data f error rest this w inv w1 log B T IH).
  - exact (Delivered_returned behaviour eventType data f rest this w inv w1 log B T IH).
Qed.

Lemma emit_delivers eventType data this w :
  delivered (_emit behaviour eventType data this w)
  = snd (fst (fst (deliver behaviour eventType (listeners_of this eventType) data this w))).
Proof.
  unfold _emit, listeners_of.
  destruct (Js.get (_eventListeners this) eventType) as [l|]; [|reflexivity].
  now destruct (deliver behaviour eventType l data this w) as [[[c log] this'] w'].
Qed.

Lemma emit_returns eventType data this w :
  ended (_emit behaviour eventType data this w) = Returned.
Proof.
  unfold _emit.
  destruct (Js.get (_eventListeners this) eventType) as [l|]; [|reflexivity].
  pose proof (deliver_returns eventType data l this w) as H.
  now destruct (deliver behaviour eventType l data this w) as [[[c log] this'] w'].
Qed.

End Delivery.

(** C7. Delivery is synchronous, ordered and isolated from exceptions:
    after any sequence of [on] calls, [_emit] returns, whatever the
    listeners do (no listener's exception reaches the emitter), and it
    has called every function registered for the event type exactly
    once, with the data, in the order of registration.  The call of a
    listener that throws is followed by the console entry for its error,
    the call of one that returns is not, and either way the next listener
    is called. *)
Theorem emit_calls_every_listener_in_order {W : Type}
    (behaviour : Callback -> EventData -> GraphLibrary -> W -> Invocation * W)
    (this : GraphLibrary) (calls : list (string * JsCallback))
    (eventType : string) (data : EventData) (w : W) :
  let listeners := listeners_of this eventType ++ registered calls eventType in
  let subscribed := fold_left register calls this in
  let emitted := _emit behaviour eventType data subscribed w in
  ended emitted = Returned
  /\ invoked (delivered emitted) = map (fun f => (f, data)) listeners
  /\ Delivered behaviour eventType data listeners subscribed w (delivered emitted).
Proof.
  cbv zeta. split; [apply emit_returns|].
  rewrite emit_delivers, listeners_of_registered.
  split; [apply deliver_invoked | apply deliver_Delivered].
Qed.

Lemma emit_calls_every_listener_in_order_witness :
  invoked (delivered (_emit Sample.behaviour "node:click" (NodeClick (Some "a"))
                        (fold_left register Sample.subscriptions (Sample.blank "TB" true)) 0))
  = [(1, NodeClick (Some "a")); (2, NodeClick (Some "a"))].
Proof.
  exact (proj1 (proj2 (emit_calls_every_listener_in_order Sample.behaviour
                         (Sample.blank "TB" true) Sample.subscriptions
                         "node:click" (NodeClick (Some "a")) 0))).
Defined.

Example cluster_class :
  GNode.class (cluster_node (Sample.cluster "k" None)) = "cluster"
  /\ GNode.class (cluster_node
                    {| ClusterOpts.id := Some "k"; ClusterOpts.label := Js.Absent;
                       ClusterOpts.parent := None; ClusterOpts.styleClass := Some "wide ";
                       ClusterOpts.style := None |}) = "cluster wide".
Proof. split; reflexivity. Qed.

Example new_instance :
  constructor (Some Sample.page) (Some "static") (Sample.settings "LR" false)
  = inr (Sample.blank "LR" false).
Proof. reflexivity. Qed.

Example emit_sample :
  delivered (_emit Sample.behaviour "node:click" (NodeClick (Some "a"))
               (fold_left register Sample.subscriptions (Sample.blank "TB" true)) 0)
  = [Invoked 1 (NodeClick (Some "a")); ErrorLogged "node:click" "boom";
     Invoked 2 (NodeClick (Some "a"))].
Proof. reflexivity. Qed.

(** ** Runs of a program *)

Section Runs.

Context {W : Type}.
Variable h : Handler W.

Lemma exec_bind {A B} (p : Prog A) (f : A -> Prog B) this w :
  exec h (bind p f) this w = andThen (exec h p this w) (fun a => exec h (f a)).
Proof.
  revert this w. induction p as [a|e|X c k IH]; intros this w.
  - unfold andThen. simpl. now destruct (exec h (f a) this w).
  - reflexivity.
  - simpl. destruct (answer h c this w) as [[reply this'] w'].
    rewrite IH. unfold andThen. simpl.
    now destruct (outcome (exec h (k reply) this' w')).
Qed.

Lemma only_bind {A B} P (p : Prog A) (f : A -> Prog B) :
  only P p -> (forall a, only P (f a)) -> only P (bind p f).
Proof.
  intros Hp Hf. induction p as [a|e|X c k IH]; simpl in *; auto.
  destruct Hp as [Hc Hk]. split; auto.
Qed.

Lemma only_call {X} P (c : Cmd X) : P X c = true -> only P (call c).
Proof.
  intros Hc. simpl. split; [exact Hc|]. now intros [e|x].
Qed.

Lemma only_forEach {A} P (l : list A) (body : A -> Prog unit) :
  (forall a, only P (body a)) -> only P (forEach l body).
Proof.
  intros Hbody. induction l as [|a l IH]; simpl; [exact I|].
  apply only_bind; auto.
Qed.

Lemma only_exec {R} P (p : Prog R) this w :
  only P p -> forallb (command_is P) (trace (exec h p this w)) = true.
Proof.
  revert this w. induction p as [a|e|X c k IH]; intros this w Hp; simpl; auto.
  destruct Hp as [Hc Hk].
  destruct (answer h c this w) as [[reply this'] w']. simpl.
  rewrite Hc. simpl. now apply IH.
Qed.

(** The child list of the container changes by the calls of the trace
    and by nothing else. *)
Lemma children_final {R} (p : Prog R) this w :
  children (container (final (exec h p this w)))
  = children_after (children (container this)) (trace (exec h p this w)).
Proof.
  revert this w. induction p as [a|e|X c k IH]; intros this w; simpl; auto.
  unfold answer.
  destruct c; simpl;
    try (destruct (h _ _ w) as [reply w']; simpl; now rewrite IH);
    now rewrite IH.
Qed.

End Runs.

Lemma none_of (P : forall X, Cmd X -> bool) (Q : Event -> bool) (t : Trace) :
  (forall e, command_is P e = true -> Q e = false) ->
  forallb (command_is P) t = true -> existsb Q t = false.
Proof.
  intros HPQ. induction t as [|e t IH]; simpl; [reflexivity|].
  intros H. apply andb_true_iff in H. destruct H as [He Ht].
  now rewrite (HPQ e He), IH.
Qed.

(** Walks through a program built from [bind], [forEach] and [call]. *)
Ltac only_step :=
  lazymatch goal with
  | |- only _ (bind _ _) => apply only_bind; [|intros ?]
  | |- only _ (forEach _ _) => apply only_forEach; intros ?
  | |- only _ (call _) => apply only_call
  | |- only _ (Ret _) => exact I
  | |- only _ (renderEdge _ _) => unfold renderEdge
  | |- only _ (if ?b then _ else _) => destruct b
  | |- only _ (match ?x with Some _ => _ | None => _ end) => destruct x
  end.

Ltac only_program := repeat only_step; try reflexivity.

Lemma describe_only (this : GraphLibrary) : only describing (describe this).
Proof. unfold describe. only_program. Qed.

Section Rendering.

Context {W : Type}.
Variable h : Handler W.

Lemma trace_andThen {A B} (first : Run W A) (next : A -> GraphLibrary -> W -> Run W B) :
  trace (andThen first next)
  = trace first ++
    match outcome first with
    | Resolved a => trace (next a (final first) (world first))
    | Rejected _ => []
    end.
Proof.
  unfold andThen. destruct (outcome first); simpl; [reflexivity|].
  now rewrite app_nil_r.
Qed.

Lemma exec_clear {R} (q : Prog R) this w :
  exec h (call ClearContainer ;; q) this w
  = let rest := exec h q (with_children this []) w in
    {| trace := Ev ClearContainer (inr tt) :: trace rest;
       outcome := outcome rest; final := final rest; world := world rest |}.
Proof. reflexivity. Qed.

(** A run of [render]: the container is cleared, the graph is described,
    and, when that went through, presented. *)
Lemma render_run this w :
  exists described : Run W GraphRef,
    described = exec h (describe this) (with_children this []) w
    /\ forallb is_describe (trace described) = true
    /\ exec h (render this) this w
       = let rest := andThen described (fun g => exec h (present g)) in
         {| trace := Ev ClearContainer (inr tt) :: trace rest;
            outcome := outcome rest; final := final rest; world := world rest |}.
Proof.
  eexists. split; [reflexivity|]. split.
  - apply only_exec, describe_only.
  - unfold render. rewrite exec_clear. cbv zeta. now rewrite exec_bind.
Qed.

Lemma precedes_from_sound P Q t :
  precedes_from P Q false t = true -> precedes P Q t.
Proof.
  assert (G : forall t seen, precedes_from P Q seen t = true ->
            forall t1 e t2, t = t1 ++ e :: t2 -> Q e = true ->
            seen || existsb P t1 = true).
  { clear t. induction t as [|e0 t IH]; intros seen Hc t1 e t2 Heq Hq.
    - now destruct t1.
    - simpl in Hc. apply andb_true_iff in Hc. destruct Hc as [Himp Hrest].
      destruct t1 as [|e1 t1]; simpl in Heq; injection Heq as <- ->.
      + rewrite Hq in Himp. simpl in *. now rewrite Himp.
      + simpl. rewrite orb_assoc. eapply IH; eauto. }
  intros Hc t1 e t2 Heq Hq. exact (G t false Hc t1 e t2 Heq Hq).
Qed.

Lemma precedes_from_skip P Q seen t0 t :
  (forall e, is_describe e = true -> P e = false /\ Q e = false) ->
  forallb is_describe t0 = true ->
  precedes_from P Q seen (t0 ++ t) = precedes_from P Q seen t.
Proof.
  intros Hd. induction t0 as [|e t0 IH]; simpl; [reflexivity|].
  intros H. apply andb_true_iff in H. destruct H as [He Ht0].
  destruct (Hd e He) as [-> ->]. simpl. rewrite orb_false_r. now apply IH.
Qed.

Lemma existsb_skip P t0 :
  (forall e, is_describe e = true -> P e = false) ->
  forallb is_describe t0 = true -> existsb P t0 = false.
Proof.
  intros Hd. induction t0 as [|e t0 IH]; simpl; [reflexivity|].
  intros H. apply andb_true_iff in H. destruct H as [He Ht0].
  rewrite (Hd e He). now apply IH.
Qed.

Lemma filter_skip P t0 t :
  (forall e, is_describe e = true -> P e = false) ->
  forallb is_describe t0 = true -> filter P (t0 ++ t) = filter P t.
Proof.
  intros Hd. induction t0 as [|e t0 IH]; simpl; [reflexivity|].
  intros H. apply andb_true_iff in H. destruct H as [He Ht0].
  rewrite (Hd e He). now apply IH.
Qed.

End Rendering.

(** A describing call is none of the phase calls. *)
Ltac not_a_phase :=
  let e := fresh "e" in
  intros e; destruct e as [X c reply]; destruct c; simpl; intros;
  try discriminate; repeat split; reflexivity.

(** Splits a run of [present] by the answers the handler gives. *)
Ltac present_cases h :=
  repeat (simpl; unfold answer; simpl;
          match goal with
          | |- context [h ?X ?c ?w] =>
              let e := fresh "error" in
              let x := fresh "value" in
              let w' := fresh "w" in
              destruct (h X c w) as [[e|x] w']
          | |- context [if ?s =? cancelled then _ else _] =>
              let E := fresh "E" in destruct (s =? cancelled) eqn:E
          | |- context [match grapherInstance ?t with Some _ => _ | None => _ end] =>
              let g := fresh "held" in destruct (grapherInstance t) as [g|]
          end);
  simpl.

(** C6. The phases of a run come in strict sequence: each of [build],
    [measure], [layout] and [update] is called at most once, on the whole
    graph; a [measure] call is made only after [build] has returned, the
    [layout] call only after [measure] has returned, and an [update] call
    only after the layout promise has been fulfilled with a value other
    than the cancelled one; so [update] is never reached before [measure]
    and [layout]. *)
Theorem phases_in_strict_sequence {W : Type} (h : Handler W)
    (this : GraphLibrary) (w : W) :
  let t := trace (exec h (render this) this w) in
  precedes build_done is_measure t
  /\ precedes measure_done is_layout t
  /\ precedes layout_succeeded is_update t
  /\ precedes measure_done is_update t
  /\ length (filter is_build t) <= 1
  /\ length (filter is_measure t) <= 1
  /\ length (filter is_layout t) <= 1
  /\ length (filter is_update t) <= 1.
Proof.
  cbv zeta.
  destruct (render_run h this w) as (described & _ & Hd & ->).
  cbv zeta. cbn [trace]. rewrite trace_andThen.
  repeat apply conj.
  1-4: apply precedes_from_sound; cbn [precedes_from];
    (rewrite precedes_from_skip; [|not_a_phase|exact Hd]);
    (destruct (outcome described) as [g|e]; [|reflexivity]);
    present_cases h;
    unfold layout_succeeded, layout_resolved_with, cancelled in *; simpl;
    try match goal with E : (_ =? _) = _ |- _ => rewrite E end;
    reflexivity.
  all: cbn [filter is_build is_measure is_layout is_update command_is];
    (rewrite filter_skip; [|not_a_phase|exact Hd]);
    (destruct (outcome described) as [g|e]; [|simpl; lia]);
    present_cases h; lia.
Qed.

Lemma phases_in_strict_sequence_witness :
  let t := trace (exec Grapher.handle (render Sample.graph) Sample.graph (Grapher.start [])) in
  t = firstn 28 t ++ Ev (Update 0) (inr tt) :: skipn 29 t
  /\ existsb layout_succeeded (firstn 28 t) = true
  /\ existsb measure_done (firstn 28 t) = true.
Proof.
  cbv zeta.
  assert (E : trace (exec Grapher.handle (render Sample.graph) Sample.graph (Grapher.start []))
              = firstn 28 (trace (exec Grapher.handle (render Sample.graph) Sample.graph
                                    (Grapher.start [])))
                ++ Ev (Update 0) (inr tt)
                   :: skipn 29 (trace (exec Grapher.handle (render Sample.graph) Sample.graph
                                         (Grapher.start []))))
    by (vm_compute; reflexivity).
  pose proof (phases_in_strict_sequence Grapher.handle Sample.graph (Grapher.start []))
    as (_ & _ & Hlayout & Hmeasure & _).
  split; [exact E|]. split.
  - exact (Hlayout _ _ _ E eq_refl).
  - exact (Hmeasure _ _ _ E eq_refl).
Defined.

(** The run of the sample graph against the reference grapher.js, the
    layout going through: every phase is reached. *)
Example sample_run_phases :
  let run := exec Grapher.handle (render Sample.graph) Sample.graph (Grapher.start []) in
  outcome run = Resolved tt
  /\ filter (fun e => is_build e || is_measure e || is_layout e || is_after_layout e)
       (trace run)
     = [ Ev (Build 0 0) (inr tt); Ev (Measure 0) (inr tt); Ev (Layout 0) (inr "");
         Ev (ApplyCustomStyles 0) (inr tt); Ev (Update 0) (inr tt);
         Ev (FitSvgToContent 0) (inr tt); Ev (AttachEventListeners 0) (inr tt) ].
Proof. split; reflexivity. Qed.

Lemma describe_no_error_log (this : GraphLibrary) : only no_error_log (describe this).
Proof. unfold describe. only_program. Qed.

(** C3. A cancelled layout is an outcome of its own and applies nothing:
    when the layout promise of a run is fulfilled with
    ['graph-layout-cancelled'], the promise of [render] is fulfilled (it
    is not rejected), nothing is written to the console as an error, and
    the run contains none of the later steps: no style application, no
    update, no fitting, no listener attachment. *)
Theorem cancelled_layout_applies_nothing {W : Type} (h : Handler W)
    (this : GraphLibrary) (w : W) :
  let run := exec h (render this) this w in
  existsb (layout_resolved_with cancelled) (trace run) = true ->
  outcome run = Resolved tt
  /\ existsb is_after_layout (trace run) = false
  /\ existsb is_error_log (trace run) = false.
Proof.
  cbv zeta.
  destruct (render_run h this w) as (described & Hdesc & Hd & ->).
  cbv zeta. cbn [trace outcome]. rewrite trace_andThen.
  cbn [existsb]. rewrite !existsb_app.
  rewrite (existsb_skip _ (trace described)); [|not_a_phase|exact Hd].
  rewrite (existsb_skip is_after_layout (trace described)); [|not_a_phase|exact Hd].
  rewrite (none_of no_error_log is_error_log (trace described));
    [|intros e He; unfold is_error_log; now rewrite He
     |rewrite Hdesc; apply only_exec, describe_no_error_log].
  unfold andThen. destruct (outcome described) as [g|e]; [|discriminate].
  cbn [outcome].
  present_cases h;
    unfold layout_resolved_with, cancelled in *; simpl;
    try match goal with E : (_ =? _) = _ |- _ => rewrite E end;
    simpl; intros; try discriminate; repeat split; reflexivity.
Qed.

Lemma cancelled_layout_applies_nothing_witness :
  let run := exec Grapher.handle (render Sample.graph) Sample.graph
               (Grapher.start [inr cancelled]) in
  existsb (layout_resolved_with cancelled) (trace run) = true
  /\ outcome run = Resolved tt
  /\ existsb is_after_layout (trace run) = false
  /\ existsb is_error_log (trace run) = false.
Proof.
  cbv zeta. split; [reflexivity|].
  apply (cancelled_layout_applies_nothing Grapher.handle Sample.graph
           (Grapher.start [inr cancelled])).
  reflexivity.
Defined.

(** A layout that fails is another outcome: the error goes to the console,
    and the later steps are left out as well. *)
Example failed_layout_run :
  let run := exec Grapher.handle (render Sample.graph) Sample.graph
               (Grapher.start [inl "layout failed"]) in
  outcome run = Resolved tt
  /\ existsb is_error_log (trace run) = true
  /\ existsb is_after_layout (trace run) = false.
Proof. repeat split. Qed.

(** ** The container *)

Section Container.

Context {W : Type}.
Variable h : Handler W.

Lemma children_after_skip c t0 t :
  forallb is_describe t0 = true ->
  children_after c (t0 ++ t) = children_after c t.
Proof.
  revert c. induction t0 as [|[X cmd reply] t0 IH]; intros c H; [reflexivity|].
  simpl in H. apply andb_true_iff in H. destruct H as [He Ht0].
  destruct cmd; try discriminate; simpl; now apply IH.
Qed.

Lemma appended_skip t0 t :
  forallb is_describe t0 = true -> appended (t0 ++ t) = appended t.
Proof.
  induction t0 as [|[X cmd reply] t0 IH]; intros H; [reflexivity|].
  simpl in H. apply andb_true_iff in H. destruct H as [He Ht0].
  destruct cmd; try discriminate; simpl; now apply IH.
Qed.

(** One run: whatever the container held, afterwards it holds the SVG
    roots this run appended, and that is at most one. *)
Lemma render_container this w :
  let run := exec h (render this) this w in
  hd_error (trace run) = Some (Ev ClearContainer (inr tt))
  /\ existsb is_clear (tl (trace run)) = false
  /\ children (container (final run)) = appended (trace run)
  /\ length (appended (trace run)) <= 1
  /\ (existsb is_build (trace run) = true -> length (appended (trace run)) = 1).
Proof.
  cbv zeta. rewrite children_final.
  destruct (render_run h this w) as (described & _ & Hd & ->).
  cbv zeta. cbn [trace]. rewrite trace_andThen.
  cbn [hd_error tl children_after appended existsb is_build command_is].
  rewrite children_after_skip, appended_skip by exact Hd.
  rewrite !existsb_app.
  rewrite (existsb_skip is_clear (trace described)); [|not_a_phase|exact Hd].
  rewrite (existsb_skip is_build (trace described)); [|not_a_phase|exact Hd].
  split; [reflexivity|].
  destruct (outcome described) as [g|e];
    [|simpl; repeat split; auto; discriminate].
  present_cases h; repeat split; auto; discriminate.
Qed.

Lemma renders_last n this w :
  exists this' w', renders h n this w = exec h (render this') this' w'.
Proof.
  revert this w. induction n as [|n IH]; intros this w; simpl; eauto.
Qed.

End Container.

(** ** What grapher.js is handed *)

Lemma present_only P (g : GraphRef) :
  (forall X (c : Cmd X), describing X c = false -> P X c = true) ->
  (forall entry, P unit (Console entry) = true) ->
  only P (present g).
Proof.
  intros HP HC. unfold present.
  do 4 (apply only_bind; [apply only_call, HP; reflexivity|]; intros ?).
  split; [apply HP; reflexivity|].
  intros [error|result].
  - apply only_call, HC.
  - destruct (result =? cancelled).
    + apply only_call, HC.
    + do 6 (apply only_bind; [apply only_call, HP; reflexivity|]; intros ?).
      apply only_call, HP. reflexivity.
Qed.



(** ** Graphs that are not compound *)

Lemma perform_keeps_flat (this : GraphLibrary) (op : Op) :
  Js.truthy_bool (Options.compound (options this)) = false -> _clusters this = [] ->
  Js.truthy_bool (Options.compound (options (perform this op))) = false /\ _clusters (perform this op) = [].
Proof.
  intros Hc Hk. destruct op as [o|o|o|ty cb]; unfold perform.
  - unfold addNode. destruct o as [o|]; [|(simpl; now split)].
    destruct (NodeOpts.id o) as [id|]; [|(simpl; now split)].
    destruct (id =? ""); [(simpl; now split)|].
    destruct (Js.has (_nodes this) id || Js.has (_clusters this) id); (simpl; now split).
  - unfold addEdge. destruct o as [o|]; [|(simpl; now split)].
    destruct (negb (Js.truthy (EdgeOpts.from o)) || negb (Js.truthy (EdgeOpts.to o)));
      (simpl; now split).
  - unfold addCluster. rewrite Hc. (simpl; now split).
  - unfold on. destruct cb as [f|]; [|(simpl; now split)].
    destruct (Js.get _ ty); (simpl; now split).
Qed.

Lemma performAll_keeps_flat (ops : list Op) (this : GraphLibrary) :
  Js.truthy_bool (Options.compound (options this)) = false -> _clusters this = [] ->
  Js.truthy_bool (Options.compound (options (performAll ops this))) = false
  /\ _clusters (performAll ops this) = [].
Proof.
  revert this. induction ops as [|op ops IH]; intros this Hc Hk; [now split|].
  destruct (perform_keeps_flat this op Hc Hk) as [Hc' Hk'].
  exact (IH (perform this op) Hc' Hk').
Qed.

Lemma render_no_cluster (this : GraphLibrary) :
  _clusters this = [] -> only no_cluster (render this).
Proof.
  intros Hk. unfold render.
  apply only_bind; [apply only_call; reflexivity|]. intros _.
  apply only_bind.
  - unfold describe. rewrite Hk. cbn [Js.values map forEach]. only_program.
  - intros g. apply present_only; [|reflexivity].
    intros X c. now destruct c.
Qed.

(** C9. Without the compound option [addCluster] does nothing: on an
    instance whose [options.compound] is false (or another falsy value)
    the call returns, whatever its argument (a missing one included),
    with the instance unchanged and a warning on the console; so an
    instance constructed with [compound: false] (or with [compound]
    given as [undefined]) never has a cluster, whatever is called on it,
    and no run of [render] hands a cluster node to grapher.js. *)
Theorem addCluster_without_compound_is_a_no_op :
  (forall this clusterOpts,
     Js.truthy_bool (Options.compound (options this)) = false ->
     addCluster clusterOpts this
     = warns "Cannot add cluster: graph is not configured as compound. Set `options.compound` to true."
             this)
  /\ (forall element position userOptions new ops,
        Js.truthy_bool (Js.spread (Some true) (UserOptions.compound userOptions)) = false ->
        constructor (Some element) position userOptions = inr new ->
        let this := performAll ops new in
        _clusters this = []
        /\ forall W (h : Handler W) (w : W),
             existsb is_cluster_node (trace (exec h (render this) this w)) = false).
Proof.
  split.
  - intros this clusterOpts Hc. unfold addCluster. now rewrite Hc.
  - intros element position userOptions new ops Hu Hnew. cbv zeta.
    assert (Hflat : Js.truthy_bool (Options.compound (options new)) = false
                    /\ _clusters new = []).
    { unfold constructor in Hnew. injection Hnew as <-. simpl. now rewrite Hu. }
    destruct Hflat as [Hc Hk].
    destruct (performAll_keeps_flat ops new Hc Hk) as [_ Hk'].
    split; [exact Hk'|]. intros W h w.
    apply (none_of no_cluster).
    + intros [X c reply]. destruct c; simpl; try reflexivity.
      now destruct (GNode._isCluster node).
    + apply only_exec, render_no_cluster, Hk'.
Qed.

Lemma addCluster_without_compound_is_a_no_op_witness :
  let this := performAll Sample.calls (Sample.blank "LR" false) in
  Js.truthy_bool (Js.spread (Some true) (UserOptions.compound (Sample.settings "LR" false)))
  = false
  /\ constructor (Some Sample.page) (Some "static") (Sample.settings "LR" false)
     = inr (Sample.blank "LR" false)
  /\ after (addCluster (Some (Sample.cluster "k" None)) this) = this
  /\ _clusters this = []
  /\ map fst (_nodes this) = ["a"; "b"; "c"].
Proof.
  cbv zeta.
  destruct addCluster_without_compound_is_a_no_op as [Hno Hflat].
  split; [reflexivity|]. split; [reflexivity|]. split; [|split].
  - rewrite Hno; reflexivity.
  - exact (proj1 (Hflat Sample.page (Some "static") (Sample.settings "LR" false)
                    (Sample.blank "LR" false) Sample.calls eq_refl eq_refl)).
  - reflexivity.
Defined.

(** ** Edges whose endpoints are missing *)

(** C2, as the code has it.  [addEdge] does not look at the node map: when
    [from] and [to] are both given it returns and appends the edge to the
    edge list, whether or not the endpoints are registered, and there is no
    option to choose otherwise.  The endpoints are looked up when the graph
    is rendered: [render] hands an edge to grapher.js only when grapher.js
    has found an entry for both endpoints, and an edge with an endpoint
    that is not found is skipped with a warning, after which the run goes
    on. *)
Theorem addEdge_stores_and_render_skips_dangling :
  (forall this edgeOpts,
     Js.truthy (EdgeOpts.from edgeOpts) = true ->
     Js.truthy (EdgeOpts.to edgeOpts) = true ->
     addEdge (Some edgeOpts) this = returns (with_edges this (_edges this ++ [edgeOpts])))
  /\ (forall W (h : Handler W) g edgeOpts this w,
        let run := exec h (renderEdge g edgeOpts) this w in
        existsb is_set_edge (trace run) = true ->
        exists source target reply,
          trace run
          = [ Ev (Node g (EdgeOpts.from edgeOpts)) (inr (Some source));
              Ev (Node g (EdgeOpts.to edgeOpts)) (inr (Some target));
              Ev (SetEdge g (edge_of source target edgeOpts)) reply ])
  /\ (forall W (h : Handler W) g edgeOpts this w found found',
        let run := exec h (renderEdge g edgeOpts) this w in
        lookups (trace run) = [found; found'] ->
        found = None \/ found' = None ->
        outcome run = Resolved tt
        /\ skipn 2 (trace run)
           = [ Ev (Console (Warn ("Skipping edge from '" ++ show (EdgeOpts.from edgeOpts)
                                    ++ "' to '" ++ show (EdgeOpts.to edgeOpts)
                                    ++ "': one or both nodes not found.")%string))
                  (inr tt) ]).
Proof.
  split; [|split].
  - intros this o Hf Ht. unfold addEdge. now rewrite Hf, Ht.
  - intros W h g o this w. cbv zeta. unfold renderEdge.
    present_cases h; try discriminate.
    destruct value as [source|], value0 as [target|]; present_cases h;
      try discriminate; intros _; eauto.
  - intros W h g o this w found found'. cbv zeta. unfold renderEdge.
    present_cases h; try discriminate.
    destruct value as [source|], value0 as [target|]; present_cases h;
      intros Heq [Hn|Hn]; subst; try discriminate; split; reflexivity.
Qed.

Lemma addEdge_stores_and_render_skips_dangling_witness :
  let described := exec Grapher.handle (describe Sample.graph) Sample.graph (Grapher.start []) in
  let skipped := exec Grapher.handle (renderEdge 0 (Sample.edge "a" "z" None))
                   (final described) (world described) in
  let kept := exec Grapher.handle (renderEdge 0 (Sample.edge "a" "c" None))
                (final described) (world described) in
  Js.truthy (EdgeOpts.from (Sample.edge "a" "z" None)) = true
  /\ Js.truthy (EdgeOpts.to (Sample.edge "a" "z" None)) = true
  /\ Js.has (_nodes (Sample.blank "TB" true)) "z" = false
  /\ _edges (after (addEdge (Some (Sample.edge "a" "z" None)) (Sample.blank "TB" true)))
     = [Sample.edge "a" "z" None]
  /\ lookups (trace skipped)
     = [Some (regular_node (node_entry (Sample.node "a" (Some "k")))); None]
  /\ outcome skipped = Resolved tt
  /\ existsb is_set_edge (trace kept) = true
  /\ length (trace kept) = 3.
Proof.
  cbv zeta.
  destruct addEdge_stores_and_render_skips_dangling as (Hadd & Hkept & Hskip).
  split; [reflexivity|]. split; [reflexivity|]. split; [reflexivity|].
  split; [rewrite Hadd; reflexivity|].
  assert (E : lookups (trace (exec Grapher.handle (renderEdge 0 (Sample.edge "a" "z" None))
                (final (exec Grapher.handle (describe Sample.graph) Sample.graph
                          (Grapher.start [])))
                (world (exec Grapher.handle (describe Sample.graph) Sample.graph
                          (Grapher.start [])))))
              = [Some (regular_node (node_entry (Sample.node "a" (Some "k")))); None])
    by (vm_compute; reflexivity).
  assert (K : existsb is_set_edge
                (trace (exec Grapher.handle (renderEdge 0 (Sample.edge "a" "c" None))
                (final (exec Grapher.handle (describe Sample.graph) Sample.graph
                          (Grapher.start [])))
                (world (exec Grapher.handle (describe Sample.graph) Sample.graph
                          (Grapher.start []))))) = true)
    by (vm_compute; reflexivity).
  split; [exact E|].
  split; [exact (proj1 (Hskip _ Grapher.handle 0 (Sample.edge "a" "z" None) _ _ _ _ E
                          (or_intror eq_refl)))|].
  split; [exact K|].
  destruct (Hkept _ Grapher.handle 0 (Sample.edge "a" "c" None) _ _ K)
    as (source & target & reply & ->).
  reflexivity.
Defined.

(** In the run of the sample graph grapher.js receives the two edges whose
    endpoints exist, and not the edge to the node that was never added. *)
Example sample_run_edges :
  let run := exec Grapher.handle (render Sample.graph) Sample.graph (Grapher.start []) in
  map (fun e => (GEdge.v e, GEdge.w e, GEdge.minlen e)) (Grapher.edges (world run))
  = [ (Some "a", Some "b", 1%Z); (Some "b", Some "c", 2%Z) ].
Proof. reflexivity. Qed.

(** ** Ranks *)

Module LayoutFacts.

Import Layout.

Lemma highest_Some (l : list (option Z)) (r : Z) :
  highest l = Some r ->
  forall c, In c l -> exists x, c = Some x /\ (x <= r)%Z.
Proof.
  revert r. induction l as [|c0 l IH]; intros r H c Hin; [contradiction|].
  simpl in H. destruct c0 as [x0|]; [|discriminate].
  destruct (highest l) as [y|] eqn:Hl; [|discriminate].
  injection H as <-. destruct Hin as [<-|Hin].
  - exists x0. split; [reflexivity | lia].
  - destruct (IH y eq_refl c Hin) as (x & -> & Hx).
    exists x. split; [reflexivity | lia].
Qed.

Lemma highest_all (l : list (option Z)) :
  (forall c, In c l -> exists x, c = Some x) -> exists r, highest l = Some r.
Proof.
  induction l as [|c l IH]; intros H; simpl; [eauto|].
  destruct (H c (or_introl eq_refl)) as [x ->].
  destruct IH as [y ->]; [intros; apply H; now right|]. eauto.
Qed.

Lemma highest_map_ext {A} (f g : A -> option Z) (l : list A) (r : Z) :
  (forall a x, In a l -> f a = Some x -> g a = Some x) ->
  highest (map f l) = Some r -> highest (map g l) = Some r.
Proof.
  revert r. induction l as [|a l IH]; intros r Hfg H; [exact H|].
  simpl in *. destruct (f a) as [x|] eqn:Hf; [|discriminate].
  rewrite (Hfg a x (or_introl eq_refl) Hf).
  destruct (highest (map f l)) as [y|] eqn:Hl; [|discriminate].
  rewrite (IH y); auto.
Qed.

Lemma longestPath_S (edges : list GEdge.t) (n : nat) (v : option string) :
  longestPath (S n) edges v
  = highest (map (fun e => match longestPath n edges (GEdge.v e) with
                           | Some r => Some (r + GEdge.minlen e)%Z
                           | None => None
                           end) (in_edges edges v)).
Proof. reflexivity. Qed.

(** More fuel does not change a rank that has been found. *)
Lemma longestPath_more (edges : list GEdge.t) (n : nat) :
  forall v r, longestPath n edges v = Some r -> longestPath (S n) edges v = Some r.
Proof.
  induction n as [|n IH]; intros v r H; [discriminate|].
  change (longestPath (S (S n)) edges v)
    with (highest (map (fun e => match longestPath (S n) edges (GEdge.v e) with
                                 | Some r => Some (r + GEdge.minlen e)%Z
                                 | None => None
                                 end) (in_edges edges v))).
  revert H. simpl. apply highest_map_ext.
  intros e x _ He.
  destruct (longestPath n edges (GEdge.v e)) as [ru|] eqn:Hu; [|discriminate].
  change (match longestPath (S n) edges (GEdge.v e) with
          | Some r => Some (r + GEdge.minlen e)%Z
          | None => None
          end = Some x).
  now rewrite (IH _ _ Hu).
Qed.

Lemma longestPath_le (edges : list GEdge.t) (n m : nat) v r :
  n <= m -> longestPath n edges v = Some r -> longestPath m edges v = Some r.
Proof.
  induction 1 as [|m Hle IH]; intros H; [exact H|].
  apply longestPath_more. now apply IH.
Qed.

(** The rank of the target leaves the edge its minimum length. *)
Lemma longestPath_edge (edges : list GEdge.t) (n : nat) (e : GEdge.t) (rw : Z) :
  In e edges ->
  longestPath (S n) edges (GEdge.w e) = Some rw ->
  exists rv, longestPath n edges (GEdge.v e) = Some rv
             /\ (rv + GEdge.minlen e <= rw)%Z.
Proof.
  intros Hin H. simpl in H.
  destruct (highest_Some _ _ H
              (match longestPath n edges (GEdge.v e) with
               | Some r => Some (r + GEdge.minlen e)%Z
               | None => None
               end)) as (x & Hx & Hle).
  - apply in_map_iff. exists e. split; [reflexivity|].
    apply filter_In. split; [exact Hin|]. now apply name_eqb_eq.
  - destruct (longestPath n edges (GEdge.v e)) as [rv|]; [|discriminate].
    injection Hx as <-. eauto.
Qed.

Lemma ranks_of_sound nodes rank table :
  ranks_of nodes rank = Some table ->
  forall v r, rank_in table v = Some r -> rank v = Some r.
Proof.
  revert table. induction nodes as [|n nodes IH]; intros table H v r Hr.
  - injection H as <-. discriminate.
  - simpl in H. destruct (rank (GNode.name n)) as [r0|] eqn:Hn; [|discriminate].
    destruct (ranks_of nodes rank) as [table'|]; [|discriminate].
    injection H as <-. simpl in Hr.
    destruct (name_eqb (GNode.name n) v) eqn:E.
    + apply name_eqb_eq in E. subst v. now injection Hr as <-.
    + eapply IH; eauto.
Qed.

Lemma ranks_of_complete nodes rank table :
  ranks_of nodes rank = Some table ->
  forall n, In n nodes -> exists r, rank_in table (GNode.name n) = Some r.
Proof.
  revert table. induction nodes as [|n0 nodes IH]; intros table H n Hin;
    [contradiction|].
  simpl in H. destruct (rank (GNode.name n0)) as [r0|] eqn:Hn; [|discriminate].
  destruct (ranks_of nodes rank) as [table'|]; [|discriminate].
  injection H as <-. simpl.
  destruct (name_eqb (GNode.name n0) (GNode.name n)) eqn:E; [eauto|].
  destruct Hin as [->|Hin].
  - assert (name_eqb (GNode.name n) (GNode.name n) = true) by now apply name_eqb_eq.
    congruence.
  - eapply IH; eauto.
Qed.

Lemma ranks_of_total nodes rank :
  (forall v, exists r, rank v = Some r) -> exists table, ranks_of nodes rank = Some table.
Proof.
  intros H. induction nodes as [|n nodes [table IH]]; simpl; [eauto|].
  destruct (H (GNode.name n)) as [r ->]. rewrite IH. eauto.
Qed.

Lemma position_lt order v i : position order v = Some i -> i < length order.
Proof.
  revert i. induction order as [|k order IH]; intros i H; [discriminate|].
  simpl in *. destruct (name_eqb k v).
  - injection H as <-. lia.
  - destruct (position order v) as [j|]; [|discriminate].
    injection H as <-. specialize (IH j eq_refl). lia.
Qed.

(** Without a cycle among the edges, fuel beyond the position of a node
    in the order finds its rank. *)
Lemma longestPath_topological order edges :
  topological order edges ->
  forall n v, (forall j, position order v = Some j -> j < n) ->
  exists r, longestPath (S n) edges v = Some r.
Proof.
  intros Htopo. induction n as [|n IH]; intros v Hv; rewrite longestPath_S;
    apply highest_all; intros c Hc;
    apply in_map_iff in Hc; destruct Hc as (e & <- & He);
    apply filter_In in He; destruct He as [He Hw];
    apply name_eqb_eq in Hw; subst v;
    destruct (Htopo e He) as (i & j & Hi & Hj & Hij);
    specialize (Hv j Hj).
  - lia.
  - destruct (IH (GEdge.v e)) as [r Hr].
    + intros j' Hj'. rewrite Hi in Hj'. injection Hj' as <-. lia.
    + rewrite Hr. eauto.
Qed.

(** The layout of a graph whose edges have no cycle is successful. *)
Lemma layout_succeeds_without_cycle nodes edges order :
  topological order edges -> length order <= length nodes ->
  exists table, layout nodes edges = Some table.
Proof.
  intros Htopo Hlen. apply ranks_of_total. intros v. unfold rank.
  destruct (longestPath_topological order edges Htopo (length order) v) as [r Hr].
  - intros j Hj. now apply position_lt in Hj.
  - exists r. eapply longestPath_le; [|exact Hr]. lia.
Qed.

End LayoutFacts.

(** C5. In every successful layout every edge keeps its minimum length:
    for an edge as [render] hands it to grapher.js, with [minlen] taken
    from the edge options and [1] when they give none, the rank of the
    target minus the rank of the source is at least that [minlen]. *)
Theorem rank_constraint_on_every_edge
    (nodes : list GNode.t) (edges : list GEdge.t) (table : list (option string * Z))
    (source target : GNode.t) (edgeOpts : EdgeOpts.t) :
  Layout.layout nodes edges = Some table ->
  In (edge_of source target edgeOpts) edges ->
  (exists n, In n nodes /\ GNode.name n = EdgeOpts.from edgeOpts) ->
  (exists n, In n nodes /\ GNode.name n = EdgeOpts.to edgeOpts) ->
  exists rs rt,
    Layout.rank_in table (EdgeOpts.from edgeOpts) = Some rs
    /\ Layout.rank_in table (EdgeOpts.to edgeOpts) = Some rt
    /\ (rt - rs >= GEdge.minlen (edge_of source target edgeOpts))%Z
    /\ GEdge.minlen (edge_of source target edgeOpts) = Js.num_or (EdgeOpts.minlen edgeOpts) 1
    /\ (EdgeOpts.minlen edgeOpts = None -> (rt - rs >= 1)%Z).
Proof.
  intros Hlayout Hin (ns & Hns & Hs) (nt & Hnt & Ht).
  unfold Layout.layout in Hlayout.
  destruct (LayoutFacts.ranks_of_complete _ _ _ Hlayout ns Hns) as [rs Hrs].
  destruct (LayoutFacts.ranks_of_complete _ _ _ Hlayout nt Hnt) as [rt Hrt].
  rewrite Hs in Hrs. rewrite Ht in Hrt.
  pose proof (LayoutFacts.ranks_of_sound _ _ _ Hlayout _ _ Hrs) as Rs.
  pose proof (LayoutFacts.ranks_of_sound _ _ _ Hlayout _ _ Hrt) as Rt.
  unfold Layout.rank in Rs, Rt.
  destruct (LayoutFacts.longestPath_edge edges (length nodes)
              (edge_of source target edgeOpts) rt Hin Rt) as (rv & Hrv & Hle).
  apply LayoutFacts.longestPath_more in Hrv. simpl GEdge.v in Hrv.
  rewrite Rs in Hrv. injection Hrv as <-.
  exists rs, rt. split; [exact Hrs|]. split; [exact Hrt|].
  split; [lia|]. split; [reflexivity|].
  intros Hnone. simpl in Hle. rewrite Hnone in Hle. simpl in Hle. lia.
Qed.

Lemma rank_constraint_on_every_edge_witness :
  let run := exec Grapher.handle (render Sample.graph) Sample.graph (Grapher.start []) in
  let a := regular_node (node_entry (Sample.node "a" (Some "k"))) in
  let b := regular_node (node_entry (Sample.node "b" (Some "k"))) in
  Layout.layout (Grapher.nodes (world run)) (Grapher.edges (world run))
  = Some [(Some "k", 0%Z); (Some "a", 0%Z); (Some "b", 1%Z); (Some "c", 3%Z)]
  /\ In (edge_of a b (Sample.edge "a" "b" None)) (Grapher.edges (world run))
  /\ exists rs rt,
       Layout.rank_in [(Some "k", 0%Z); (Some "a", 0%Z); (Some "b", 1%Z); (Some "c", 3%Z)]
         (Some "a") = Some rs
       /\ Layout.rank_in [(Some "k", 0%Z); (Some "a", 0%Z); (Some "b", 1%Z); (Some "c", 3%Z)]
            (Some "b") = Some rt
       /\ (rt - rs >= 1)%Z.
Proof.
  cbv zeta.
  assert (L : Layout.layout
                (Grapher.nodes (world (exec Grapher.handle (render Sample.graph)
                                         Sample.graph (Grapher.start []))))
                (Grapher.edges (world (exec Grapher.handle (render Sample.graph)
                                         Sample.graph (Grapher.start []))))
              = Some [(Some "k", 0%Z); (Some "a", 0%Z); (Some "b", 1%Z); (Some "c", 3%Z)])
    by (vm_compute; reflexivity).
  assert (E : In (edge_of (regular_node (node_entry (Sample.node "a" (Some "k"))))
                    (regular_node (node_entry (Sample.node "b" (Some "k"))))
                    (Sample.edge "a" "b" None))
                (Grapher.edges (world (exec Grapher.handle (render Sample.graph)
                                         Sample.graph (Grapher.start [])))))
    by (vm_compute; left; reflexivity).
  split; [exact L|]. split; [exact E|].
  destruct (rank_constraint_on_every_edge _ _ _ _ _ _ L E) as (rs & rt & Hs & Ht & _ & _ & H1).
  - eexists. split; [vm_compute; right; left; reflexivity | reflexivity].
  - eexists. split; [vm_compute; right; right; left; reflexivity | reflexivity].
  - exists rs, rt. split; [exact Hs|]. split; [exact Ht|]. apply H1. reflexivity.
Defined.

(** A layout of the sample graph's edges closed into a cycle is not
    successful: the rank constraint cannot be met around a cycle. *)
Example cycle_has_no_layout :
  let a := regular_node (node_entry (Sample.node "a" None)) in
  let b := regular_node (node_entry (Sample.node "b" None)) in
  Layout.layout [a; b]
    [edge_of a b (Sample.edge "a" "b" None); edge_of b a (Sample.edge "b" "a" None)]
  = None.
Proof. reflexivity. Qed.

(** * Further properties *)

(** ** Building the graph *)

Section MapMore.

Context {V : Type}.
Implicit Types (m : Js.Map V) (k : string) (v : V).

Lemma set_new m k v : Js.has m k = false -> Js.set m k v = m ++ [(k, v)].
Proof.
  induction m as [|[k' v'] m IH]; simpl; [reflexivity|].
  destruct (k' =? k); [discriminate|]. intros H. now rewrite IH.
Qed.

Lemma has_keys m k : Js.has m k = true <-> In k (keys m).
Proof.
  induction m as [|[k' v'] m IH]; simpl; [split; [discriminate | contradiction]|].
  destruct (k' =? k) eqn:E.
  - apply String.eqb_eq in E. intuition.
  - apply String.eqb_neq in E. rewrite IH. intuition.
Qed.

Lemma has_false_keys m k : Js.has m k = false -> ~ In k (keys m).
Proof.
  intros H Hin. apply has_keys in Hin. congruence.
Qed.

Lemma get_some_has m k v : Js.get m k = Some v -> Js.has m k = true.
Proof.
  induction m as [|[k' v'] m IH]; simpl; [discriminate|].
  destruct (k' =? k); auto.
Qed.

Lemma keys_app m m' : keys (m ++ m') = keys m ++ keys m'.
Proof. apply map_app. Qed.

End MapMore.

(** X1. A node with a new id is stored and can be looked up: when the id
    is not empty and is a key of neither map, [addNode] returns without a
    warning and the node map gets the entry at its end, under the id.  The
    entry has the id as its label when the options have no [label] key,
    and the label as given, [undefined] included, when they have one.
    Every other entry of the map is as before, and the edges, clusters
    and listeners are untouched. *)
Theorem addNode_stores_a_new_node (this : GraphLibrary) (nodeOpts : NodeOpts.t) (id : string) :
  NodeOpts.id nodeOpts = Some id -> id <> "" ->
  Js.has (_nodes this) id = false -> Js.has (_clusters this) id = false ->
  let done := addNode (Some nodeOpts) this in
  completion done = Returned /\ logged done = []
  /\ _nodes (after done) = _nodes this ++ [(id, node_entry nodeOpts)]
  /\ Js.get (_nodes (after done)) id = Some (node_entry nodeOpts)
  /\ NodeOpts.label (node_entry nodeOpts)
     = Js.Present (match NodeOpts.label nodeOpts with
                   | Js.Absent => Some id
                   | Js.Present given => given
                   end)
  /\ (forall other, other <> id ->
        Js.get (_nodes (after done)) other = Js.get (_nodes this) other)
  /\ _edges (after done) = _edges this
  /\ _clusters (after done) = _clusters this
  /\ _eventListeners (after done) = _eventListeners this.
Proof.
  intros Hid Hne Hn Hc. cbv zeta. unfold addNode. rewrite Hid, Hn, Hc.
  apply String.eqb_neq in Hne. rewrite Hne. simpl.
  repeat apply conj; try reflexivity.
  - now apply set_new.
  - apply get_set_same.
  - unfold node_entry. simpl. rewrite Hid. now destruct (NodeOpts.label nodeOpts).
  - intros other Ho. apply get_set_other. congruence.
Qed.

Lemma addNode_stores_a_new_node_witness :
  let unlabelled :=
    {| NodeOpts.id := Some "d"; NodeOpts.label := Js.Present None;
       NodeOpts.parent := None; NodeOpts.styleClass := None;
       NodeOpts.style := None; NodeOpts.arguments := [] |} in
  Js.has (_nodes Sample.graph) "d" = false
  /\ Js.has (_clusters Sample.graph) "d" = false
  /\ keys (_nodes (after (addNode (Some (Sample.node "d" None)) Sample.graph)))
     = ["a"; "b"; "c"; "d"]
  /\ NodeOpts.label (node_entry (Sample.node "d" None)) = Js.Present (Some "d")
  /\ option_map NodeOpts.label
       (Js.get (_nodes (after (addNode (Some unlabelled) Sample.graph))) "d")
     = Some (Js.Present None).
Proof.
  intros unlabelled.
  split; [reflexivity|]. split; [reflexivity|].
  pose proof (addNode_stores_a_new_node Sample.graph (Sample.node "d" None) "d"
                eq_refl ltac:(discriminate) eq_refl eq_refl) as (_ & _ & E & _ & L & _).
  pose proof (addNode_stores_a_new_node Sample.graph unlabelled "d"
                eq_refl ltac:(discriminate) eq_refl eq_refl) as (_ & _ & _ & G & L' & _).
  split; [rewrite E; reflexivity|]. split; [exact L|].
  rewrite G. cbn [option_map]. now rewrite L'.
Defined.

(** X2. A cluster with a new id is stored and can be looked up: on a
    compound graph, when the id is not empty and is a key of neither map,
    [addCluster] returns without a warning and the cluster map gets the
    entry at its end, under the id.  The entry has the id as its label
    when the options have no [label] key, and the label as given,
    [undefined] included, when they have one.  Every other entry is as
    before, and the nodes, edges and listeners are untouched. *)
Theorem addCluster_stores_a_new_cluster
    (this : GraphLibrary) (clusterOpts : ClusterOpts.t) (id : string) :
  Js.truthy_bool (Options.compound (options this)) = true ->
  ClusterOpts.id clusterOpts = Some id -> id <> "" ->
  Js.has (_nodes this) id = false -> Js.has (_clusters this) id = false ->
  let done := addCluster (Some clusterOpts) this in
  completion done = Returned /\ logged done = []
  /\ _clusters (after done) = _clusters this ++ [(id, cluster_entry clusterOpts)]
  /\ Js.get (_clusters (after done)) id = Some (cluster_entry clusterOpts)
  /\ ClusterOpts.label (cluster_entry clusterOpts)
     = Js.Present (match ClusterOpts.label clusterOpts with
                   | Js.Absent => Some id
                   | Js.Present given => given
                   end)
  /\ (forall other, other <> id ->
        Js.get (_clusters (after done)) other = Js.get (_clusters this) other)
  /\ _nodes (after done) = _nodes this
  /\ _edges (after done) = _edges this
  /\ _eventListeners (after done) = _eventListeners this.
Proof.
  intros Hcompound Hid Hne Hn Hc. cbv zeta. unfold addCluster.
  rewrite Hcompound, Hid, Hn, Hc.
  apply String.eqb_neq in Hne. rewrite Hne. simpl.
  repeat apply conj; try reflexivity.
  - now apply set_new.
  - apply get_set_same.
  - unfold cluster_entry. simpl. rewrite Hid. now destruct (ClusterOpts.label clusterOpts).
  - intros other Ho. apply get_set_other. congruence.
Qed.

Lemma addCluster_stores_a_new_cluster_witness :
  let unlabelled :=
    {| ClusterOpts.id := Some "m"; ClusterOpts.label := Js.Present None;
       ClusterOpts.parent := None; ClusterOpts.styleClass := None;
       ClusterOpts.style := None |} in
  Js.truthy_bool (Options.compound (options Sample.graph)) = true
  /\ Js.has (_nodes Sample.graph) "m" = false
  /\ Js.has (_clusters Sample.graph) "m" = false
  /\ keys (_clusters (after (addCluster (Some (Sample.cluster "m" (Some "k"))) Sample.graph)))
     = ["k"; "m"]
  /\ ClusterOpts.label (cluster_entry (Sample.cluster "m" (Some "k")))
     = Js.Present (Some "m")
  /\ option_map ClusterOpts.label
       (Js.get (_clusters (after (addCluster (Some unlabelled) Sample.graph))) "m")
     = Some (Js.Present None).
Proof.
  intros unlabelled.
  split; [reflexivity|]. split; [reflexivity|]. split; [reflexivity|].
  pose proof (addCluster_stores_a_new_cluster Sample.graph (Sample.cluster "m" (Some "k")) "m"
                eq_refl eq_refl ltac:(discriminate) eq_refl eq_refl)
    as (_ & _ & E & _ & L & _).
  pose proof (addCluster_stores_a_new_cluster Sample.graph unlabelled "m"
                eq_refl eq_refl ltac:(discriminate) eq_refl eq_refl)
    as (_ & _ & _ & G & L' & _).
  split; [rewrite E; reflexivity|]. split; [exact L|].
  rewrite G. cbn [option_map]. now rewrite L'.
Defined.

Lemma NoDup_insert {A} (l l' : list A) (a : A) :
  NoDup (l ++ l') -> ~ In a (l ++ l') -> NoDup (l ++ a :: l').
Proof.
  intros Hnd Hin. apply (NoDup_Add (Add_app a l l')). now split.
Qed.

Lemma perform_well_formed (this : GraphLibrary) (op : Op) :
  WellFormed this -> WellFormed (perform this op).
Proof.
  intros [Hu Hn Hc He]. destruct op as [o|o|o|ty cb]; unfold perform.
  - unfold addNode. destruct o as [o|]; [|now split].
    destruct (NodeOpts.id o) as [id|] eqn:Hid; [|now split].
    destruct (id =? "") eqn:Hne; [now split|].
    destruct (Js.has (_nodes this) id) eqn:Hhn; [now split|].
    destruct (Js.has (_clusters this) id) eqn:Hhc; [now split|].
    simpl. rewrite set_new by exact Hhn. split; simpl; auto.
    + rewrite keys_app, <- app_assoc. simpl. apply NoDup_insert; [exact Hu|].
      intros Hin. apply in_app_iff in Hin. destruct Hin as [Hin|Hin].
      * now apply has_false_keys in Hhn.
      * now apply has_false_keys in Hhc.
    + apply Forall_app. split; [exact Hn|]. constructor; [|constructor].
      unfold node_ok. simpl. apply String.eqb_neq in Hne.
      rewrite Hid. repeat split; auto. now destruct (NodeOpts.label o).
  - unfold addEdge. destruct o as [o|]; [|now split].
    destruct (Js.truthy (EdgeOpts.from o)) eqn:Hf; [|now split].
    destruct (Js.truthy (EdgeOpts.to o)) eqn:Ht; [|now split].
    simpl. split; simpl; auto.
    apply Forall_app. split; [exact He|]. constructor; [|constructor]. now split.
  - unfold addCluster. destruct (negb (Js.truthy_bool (Options.compound (options this)))); [now split|].
    destruct o as [o|]; [|now split].
    destruct (ClusterOpts.id o) as [id|] eqn:Hid; [|now split].
    destruct (id =? "") eqn:Hne; [now split|].
    destruct (Js.has (_nodes this) id) eqn:Hhn; [now split|].
    destruct (Js.has (_clusters this) id) eqn:Hhc; [now split|].
    simpl. rewrite set_new by exact Hhc. split; simpl; auto.
    + rewrite keys_app, app_assoc.
      replace ((keys (_nodes this) ++ keys (_clusters this)) ++ keys [(id, cluster_entry o)])
        with ((keys (_nodes this) ++ keys (_clusters this)) ++ id :: []) by reflexivity.
      apply NoDup_insert; rewrite app_nil_r; [exact Hu|].
      intros Hin. apply in_app_iff in Hin. destruct Hin as [Hin|Hin].
      * now apply has_false_keys in Hhn.
      * now apply has_false_keys in Hhc.
    + apply Forall_app. split; [exact Hc|]. constructor; [|constructor].
      unfold cluster_ok. simpl. apply String.eqb_neq in Hne.
      rewrite Hid. repeat split; auto. now destruct (ClusterOpts.label o).
  - unfold on. destruct cb as [f|]; [|now split].
    destruct (Js.get _ ty); now split.
Qed.

Lemma constructed_well_formed
    (element : Container) (position : option string) (userOptions : UserOptions.t)
    (new : GraphLibrary) (ops : list Op) :
  constructor (Some element) position userOptions = inr new ->
  WellFormed (performAll ops new).
Proof.
  intros Hnew.
  assert (Hwf : WellFormed new).
  { unfold constructor in Hnew. injection Hnew as <-.
    split; simpl; constructor. }
  clear Hnew. revert new Hwf. induction ops as [|op ops IH]; intros new Hwf; [exact Hwf|].
  apply (IH (perform new op)), perform_well_formed, Hwf.
Qed.

(** X3. Ids stay unique across the two maps: an instance that was
    constructed and then changed through any calls of [addNode],
    [addEdge], [addCluster] and [on] has no id twice among its nodes and
    clusters taken together; every node and cluster is stored under its
    own id, which is not empty, and has a [label] key (whose value is
    [undefined] when the options gave it that way); and every edge has a
    [from] and a [to]. *)
Theorem built_instances_are_well_formed
    (element : Container) (position : option string) (userOptions : UserOptions.t)
    (new : GraphLibrary) (ops : list Op) :
  constructor (Some element) position userOptions = inr new ->
  WellFormed (performAll ops new).
Proof. apply constructed_well_formed. Qed.

Lemma sample_well_formed : WellFormed Sample.graph.
Proof.
  exact (constructed_well_formed Sample.page (Some "static") (Sample.settings "TB" true)
           (Sample.blank "TB" true) Sample.calls eq_refl).
Qed.

Lemma built_instances_are_well_formed_witness :
  constructor (Some Sample.page) (Some "static") (Sample.settings "TB" true)
  = inr (Sample.blank "TB" true)
  /\ NoDup (keys (_nodes Sample.graph) ++ keys (_clusters Sample.graph))
  /\ keys (_nodes Sample.graph) ++ keys (_clusters Sample.graph) = ["a"; "b"; "c"; "k"].
Proof.
  split; [reflexivity|]. split; [|reflexivity].
  exact (ids_unique _ (built_instances_are_well_formed Sample.page (Some "static")
                         (Sample.settings "TB" true) (Sample.blank "TB" true)
                         Sample.calls eq_refl)).
Defined.

Lemma perform_keeps_entries (this : GraphLibrary) (op : Op) :
  (forall id entry, Js.get (_nodes this) id = Some entry ->
     Js.get (_nodes (perform this op)) id = Some entry)
  /\ (forall id entry, Js.get (_clusters this) id = Some entry ->
        Js.get (_clusters (perform this op)) id = Some entry).
Proof.
  destruct op as [o|o|o|ty cb]; unfold perform.
  - unfold addNode. destruct o as [o|]; [|now split].
    destruct (NodeOpts.id o) as [id'|]; [|now split].
    destruct (id' =? ""); [now split|].
    destruct (Js.has (_nodes this) id') eqn:Hhn; [now split|].
    destruct (Js.has (_clusters this) id'); [now split|].
    simpl. split; [|auto]. intros id entry Hget.
    rewrite get_set_other; [exact Hget|].
    intros <-. apply get_some_has in Hget. congruence.
  - unfold addEdge. destruct o as [o|]; [|now split].
    destruct (negb (Js.truthy (EdgeOpts.from o)) || negb (Js.truthy (EdgeOpts.to o)));
      now split.
  - unfold addCluster. destruct (negb (Js.truthy_bool (Options.compound (options this)))); [now split|].
    destruct o as [o|]; [|now split].
    destruct (ClusterOpts.id o) as [id'|]; [|now split].
    destruct (id' =? ""); [now split|].
    destruct (Js.has (_nodes this) id'); [now split|].
    destruct (Js.has (_clusters this) id') eqn:Hhc; [now split|].
    simpl. split; [auto|]. intros id entry Hget.
    rewrite get_set_other; [exact Hget|].
    intros <-. apply get_some_has in Hget. congruence.
  - unfold on. destruct cb as [f|]; [|now split].
    destruct (Js.get _ ty); now split.
Qed.

Lemma performAll_keeps_entries (ops : list Op) (this : GraphLibrary) :
  (forall id entry, Js.get (_nodes this) id = Some entry ->
     Js.get (_nodes (performAll ops this)) id = Some entry)
  /\ (forall id entry, Js.get (_clusters this) id = Some entry ->
        Js.get (_clusters (performAll ops this)) id = Some entry).
Proof.
  revert this. induction ops as [|op ops IH]; intros this; [now split|].
  destruct (perform_keeps_entries this op) as [Hn Hc].
  destruct (IH (perform this op)) as [IHn IHc].
  split; intros id entry Hget; [apply IHn, Hn | apply IHc, Hc]; exact Hget.
Qed.

(** X4. The first write wins: an entry of the node map or of the cluster
    map is never changed or removed by later calls of [addNode],
    [addEdge], [addCluster] and [on], whatever their arguments. *)
Theorem stored_entries_never_change (ops : list Op) (this : GraphLibrary) :
  (forall id entry, Js.get (_nodes this) id = Some entry ->
     Js.get (_nodes (performAll ops this)) id = Some entry)
  /\ (forall id entry, Js.get (_clusters this) id = Some entry ->
        Js.get (_clusters (performAll ops this)) id = Some entry).
Proof. exact (performAll_keeps_entries ops this). Qed.

Lemma stored_entries_never_change_witness :
  Js.get (_nodes Sample.graph) "a" = Some (node_entry (Sample.node "a" (Some "k")))
  /\ Js.get (_nodes (performAll [OpAddNode (Some (Sample.node "a" None));
                                 OpAddCluster (Some (Sample.cluster "a" None));
                                 OpAddNode (Some (Sample.node "d" None))] Sample.graph)) "a"
     = Some (node_entry (Sample.node "a" (Some "k"))).
Proof.
  split; [reflexivity|].
  apply (stored_entries_never_change _ Sample.graph). reflexivity.
Defined.

(** X5. Edges are kept in the order of the calls, duplicates included,
    and none is ever dropped: after any calls of the four methods the edge
    list is the former list followed by the options of every [addEdge] call
    that had a [from] and a [to]. *)
Theorem edges_accumulate_in_call_order (ops : list Op) (this : GraphLibrary) :
  _edges (performAll ops this) = _edges this ++ accepted_edges ops.
Proof.
  revert this. induction ops as [|op ops IH]; intros this; simpl.
  - now rewrite app_nil_r.
  - unfold performAll in IH. rewrite IH.
    destruct op as [o|o|o|ty cb]; unfold perform.
    + unfold addNode. destruct o as [o|]; [|reflexivity].
      destruct (NodeOpts.id o) as [id|]; [|reflexivity].
      destruct (id =? ""); [reflexivity|].
      now destruct (Js.has (_nodes this) id || Js.has (_clusters this) id).
    + unfold addEdge. destruct o as [o|]; [|reflexivity].
      destruct (Js.truthy (EdgeOpts.from o)), (Js.truthy (EdgeOpts.to o)); simpl;
        try reflexivity.
      now rewrite <- app_assoc.
    + unfold addCluster. destruct (negb (Js.truthy_bool (Options.compound (options this)))); [reflexivity|].
      destruct o as [o|]; [|reflexivity].
      destruct (ClusterOpts.id o) as [id|]; [|reflexivity].
      destruct (id =? ""); [reflexivity|].
      now destruct (Js.has (_nodes this) id || Js.has (_clusters this) id).
    + unfold on. destruct cb as [f|]; [|reflexivity].
      now destruct (Js.get _ ty).
Qed.

Lemma perform_listeners (this : GraphLibrary) (op : Op) (eventType : string) :
  listeners_of (perform this op) eventType
  = listeners_of this eventType ++ registered (subscriptions_of [op]) eventType.
Proof.
  destruct op as [o|o|o|ty cb]; unfold perform; simpl subscriptions_of.
  - unfold addNode. destruct o as [o|]; simpl; [|now rewrite app_nil_r].
    destruct (NodeOpts.id o) as [id|]; simpl; [|now rewrite app_nil_r].
    destruct (id =? ""); simpl; [now rewrite app_nil_r|].
    destruct (Js.has (_nodes this) id || Js.has (_clusters this) id); simpl;
      now rewrite app_nil_r.
  - unfold addEdge. destruct o as [o|]; simpl; [|now rewrite app_nil_r].
    destruct (negb (Js.truthy (EdgeOpts.from o)) || negb (Js.truthy (EdgeOpts.to o)));
      simpl; now rewrite app_nil_r.
  - unfold addCluster.
    destruct (negb (Js.truthy_bool (Options.compound (options this)))); simpl; [now rewrite app_nil_r|].
    destruct o as [o|]; simpl; [|now rewrite app_nil_r].
    destruct (ClusterOpts.id o) as [id|]; simpl; [|now rewrite app_nil_r].
    destruct (id =? ""); simpl; [now rewrite app_nil_r|].
    destruct (Js.has (_nodes this) id || Js.has (_clusters this) id); simpl;
      now rewrite app_nil_r.
  - apply listeners_of_on.
Qed.

Lemma perform_frame (this : GraphLibrary) (op : Op) :
  container (perform this op) = container this
  /\ options (perform this op) = options this
  /\ grapherInstance (perform this op) = grapherInstance this.
Proof.
  destruct op as [o|o|o|ty cb]; unfold perform.
  - unfold addNode. destruct o as [o|]; [|now repeat split].
    destruct (NodeOpts.id o) as [id|]; [|now repeat split].
    destruct (id =? ""); [now repeat split|].
    destruct (Js.has (_nodes this) id || Js.has (_clusters this) id); now repeat split.
  - unfold addEdge. destruct o as [o|]; [|now repeat split].
    destruct (negb (Js.truthy (EdgeOpts.from o)) || negb (Js.truthy (EdgeOpts.to o)));
      now repeat split.
  - unfold addCluster.
    destruct (negb (Js.truthy_bool (Options.compound (options this)))); [now repeat split|].
    destruct o as [o|]; [|now repeat split].
    destruct (ClusterOpts.id o) as [id|]; [|now repeat split].
    destruct (id =? ""); [now repeat split|].
    destruct (Js.has (_nodes this) id || Js.has (_clusters this) id); now repeat split.
  - unfold on. destruct cb as [f|]; [|now repeat split].
    destruct (Js.get _ ty); now repeat split.
Qed.

(** X6. Listeners accumulate per event type, and the four methods touch
    nothing else: after any calls of [addNode], [addEdge], [addCluster]
    and [on] the listeners of an event type are the former ones followed
    by the functions the [on] calls registered for that type, in the order
    of the calls, while the container, the options and the grapher
    instance are what they were. *)
Theorem listeners_accumulate_and_the_rest_is_untouched
    (ops : list Op) (this : GraphLibrary) (eventType : string) :
  listeners_of (performAll ops this) eventType
  = listeners_of this eventType ++ registered (subscriptions_of ops) eventType
  /\ container (performAll ops this) = container this
  /\ options (performAll ops this) = options this
  /\ grapherInstance (performAll ops this) = grapherInstance this.
Proof.
  revert this. induction ops as [|op ops IH]; intros this.
  - simpl. now rewrite app_nil_r.
  - change (performAll (op :: ops) this) with (performAll ops (perform this op)).
    destruct (IH (perform this op)) as (Hl & Hc & Ho & Hg).
    destruct (perform_frame this op) as (Hc' & Ho' & Hg').
    assert (E : subscriptions_of (op :: ops) = subscriptions_of [op] ++ subscriptions_of ops)
      by (destruct op; reflexivity).
    rewrite Hl, Hc, Ho, Hg, Hc', Ho', Hg', perform_listeners, <- app_assoc, E, registered_app.
    repeat split.
Qed.

(** ** Emitting *)

Lemma register_frame (this : GraphLibrary) (r : string * JsCallback) :
  _nodes (register this r) = _nodes this
  /\ _edges (register this r) = _edges this
  /\ _clusters (register this r) = _clusters this
  /\ options (register this r) = options this
  /\ container (register this r) = container this
  /\ grapherInstance (register this r) = grapherInstance this.
Proof.
  unfold register, on. destruct (snd r) as [f|]; [|now repeat split].
  destruct (Js.get _ (fst r)); now repeat split.
Qed.

Lemma registers_frame (rs : list (string * JsCallback)) (this : GraphLibrary) :
  _nodes (fold_left register rs this) = _nodes this
  /\ _edges (fold_left register rs this) = _edges this
  /\ _clusters (fold_left register rs this) = _clusters this
  /\ options (fold_left register rs this) = options this
  /\ container (fold_left register rs this) = container this
  /\ grapherInstance (fold_left register rs this) = grapherInstance this.
Proof.
  revert this. induction rs as [|r rs IH]; intros this; [now repeat split|].
  simpl. destruct (IH (register this r)) as (H1 & H2 & H3 & H4 & H5 & H6).
  destruct (register_frame this r) as (F1 & F2 & F3 & F4 & F5 & F6).
  rewrite H1, H2, H3, H4, H5, H6. now repeat split.
Qed.

Lemma perform_edges (this : GraphLibrary) (op : Op) :
  exists more, _edges (perform this op) = _edges this ++ more.
Proof.
  destruct op as [o|o|o|ty cb]; unfold perform.
  - exists []. rewrite app_nil_r. unfold addNode. destruct o as [o|]; [|reflexivity].
    destruct (NodeOpts.id o) as [id|]; [|reflexivity].
    destruct (id =? ""); [reflexivity|].
    now destruct (Js.has (_nodes this) id || Js.has (_clusters this) id).
  - unfold addEdge. destruct o as [o|]; [|exists []; now rewrite app_nil_r].
    destruct (negb (Js.truthy (EdgeOpts.from o)) || negb (Js.truthy (EdgeOpts.to o)));
      [exists []; now rewrite app_nil_r | now exists [o]].
  - exists []. rewrite app_nil_r. unfold addCluster.
    destruct (negb (Js.truthy_bool (Options.compound (options this)))); [reflexivity|].
    destruct o as [o|]; [|reflexivity].
    destruct (ClusterOpts.id o) as [id|]; [|reflexivity].
    destruct (id =? ""); [reflexivity|].
    now destruct (Js.has (_nodes this) id || Js.has (_clusters this) id).
  - exists []. rewrite app_nil_r. unfold on. destruct cb as [f|]; [|reflexivity].
    now destruct (Js.get _ ty).
Qed.

Lemma grown_refl (this : GraphLibrary) : grown this this.
Proof.
  repeat split; auto.
  - exists []. now rewrite app_nil_r.
  - intros ty. exists []. now rewrite app_nil_r.
Qed.

Lemma grown_trans (a b c : GraphLibrary) : grown a b -> grown b c -> grown a c.
Proof.
  intros (N1 & C1 & [e1 E1] & L1 & O1 & P1) (N2 & C2 & [e2 E2] & L2 & O2 & P2).
  repeat split; auto.
  - exists (e1 ++ e2). now rewrite E2, E1, app_assoc.
  - intros ty. destruct (L1 ty) as [m1 M1], (L2 ty) as [m2 M2].
    exists (m1 ++ m2). now rewrite M2, M1, app_assoc.
  - congruence.
  - congruence.
Qed.

Lemma perform_grown (this : GraphLibrary) (op : Op) : grown this (perform this op).
Proof.
  destruct (perform_keeps_entries this op) as [Hn Hc].
  destruct (perform_frame this op) as (Hk & Ho & _).
  repeat split; auto.
  - apply perform_edges.
  - intros ty. rewrite perform_listeners. eauto.
  - now rewrite Hk.
Qed.

Lemma act_grown (this : GraphLibrary) (action : Action) : grown this (act this action).
Proof.
  destruct action as [op|appended created]; [apply perform_grown|].
  repeat split; auto.
  - exists []. now rewrite app_nil_r.
  - intros ty. exists []. now rewrite app_nil_r.
Qed.

Lemma acts_grown (actions : list Action) (this : GraphLibrary) :
  grown this (fold_left act actions this).
Proof.
  revert this. induction actions as [|action actions IH]; intros this; [apply grown_refl|].
  exact (grown_trans _ _ _ (act_grown this action) (IH (act this action))).
Qed.

Section EmitMore.

Context {W : Type}.
Variable behaviour : Callback -> EventData -> GraphLibrary -> W -> Invocation * W.

Lemma deliver_grown eventType data listeners this w :
  grown this (snd (fst (deliver behaviour eventType listeners data this w))).
Proof.
  revert this w. induction listeners as [|f rest IH]; intros this w; [apply grown_refl|].
  cbn [deliver]. rewrite guarded_call.
  destruct (behaviour f data this w) as [inv w1].
  specialize (IH (fold_left act (actions inv) this) w1).
  pose proof (deliver_returns behaviour eventType data rest
                (fold_left act (actions inv) this) w1) as R.
  destruct (deliver behaviour eventType rest data _ w1) as [[[c log] this2] w2].
  cbn [fst snd] in *.
  exact (grown_trans _ _ _ (acts_grown (actions inv) this) IH).
Qed.

End EmitMore.

(** X7. Emitting never takes anything away from the instance, whatever
    the listeners do with it through the public methods, a call of
    [render] included: after [_emit] every node and cluster entry stored
    before is unchanged, the edges and the listeners of every event type
    are the former ones followed by those added during the delivery, and
    the options and the inline position of the container are the same;
    and when the event type has no listener nothing is called and the
    instance is the same. *)
Theorem emit_takes_nothing_away {W : Type}
    (behaviour : Callback -> EventData -> GraphLibrary -> W -> Invocation * W)
    (eventType : string) (data : EventData) (this : GraphLibrary) (w : W) :
  let emitted := _emit behaviour eventType data this w in
  grown this (instance emitted)
  /\ (listeners_of this eventType = [] ->
      delivered emitted = [] /\ instance emitted = this).
Proof.
  cbv zeta. unfold _emit, listeners_of.
  destruct (Js.get (_eventListeners this) eventType) as [[|f rest]|].
  - split; [apply grown_refl | now split].
  - pose proof (deliver_grown behaviour eventType data (f :: rest) this w) as H.
    destruct (deliver behaviour eventType (f :: rest) data this w) as [[[c log] this'] w'].
    split; [exact H | discriminate].
  - split; [apply grown_refl | now split].
Qed.

(** Listener 2 of the sample adds a node and a listener while the event
    is delivered: both are there afterwards, behind what was there. *)
Example emit_sample_grows :
  let subscribed := fold_left register Sample.subscriptions Sample.graph in
  let emitted := _emit Sample.behaviour "node:click" (NodeClick (Some "a")) subscribed 0 in
  keys (_nodes subscribed) = ["a"; "b"; "c"]
  /\ keys (_nodes (instance emitted)) = ["a"; "b"; "c"; "n"]
  /\ listeners_of subscribed "node:click" = [1; 2]
  /\ listeners_of (instance emitted) "node:click" = [1; 2; 3].
Proof. repeat split. Qed.

(** ** A logic of runs *)

Section Always.

Lemma always_mono {R} (p : Prog R) (Q Q' : Trace -> Outcome R -> Prop) :
  (forall t o, Q t o -> Q' t o) -> always p Q -> always p Q'.
Proof.
  revert Q Q'. induction p as [r|e|X c k IH]; intros Q Q' HQ; simpl;
    [apply HQ|apply HQ|].
  intros H reply. eapply IH; [|apply H]. intros t o. apply HQ.
Qed.

Lemma always_and {R} (p : Prog R) (Q Q' : Trace -> Outcome R -> Prop) :
  always p Q -> always p Q' -> always p (fun t o => Q t o /\ Q' t o).
Proof.
  revert Q Q'. induction p as [r|e|X c k IH]; intros Q Q'; simpl; [tauto|tauto|].
  intros H H' reply. apply (IH reply _ _ (H reply) (H' reply)).
Qed.

Lemma always_bind {A B} (p : Prog A) (f : A -> Prog B) (Q : Trace -> Outcome B -> Prop) :
  always p (fun t1 o1 =>
              match o1 with
              | Resolved a => always (f a) (fun t2 o2 => Q (t1 ++ t2) o2)
              | Rejected e => Q t1 (Rejected e)
              end) ->
  always (bind p f) Q.
Proof.
  revert Q. induction p as [a|e|X c k IH]; intros Q; simpl; [tauto|tauto|].
  intros H reply. apply IH. exact (H reply).
Qed.

Lemma always_call {X} (c : Cmd X) (Q : Trace -> Outcome X -> Prop) :
  (forall e, Q [Ev c (inl e)] (Rejected e)) ->
  (forall x, Q [Ev c (inr x)] (Resolved x)) ->
  always (call c) Q.
Proof.
  intros He Hx [e|x]; simpl; auto.
Qed.

Lemma always_exec {W R} (h : Handler W) (p : Prog R) (Q : Trace -> Outcome R -> Prop) :
  always p Q ->
  forall this w, Q (trace (exec h p this w)) (outcome (exec h p this w)).
Proof.
  revert Q. induction p as [r|e|X c k IH]; intros Q H this w; simpl;
    [exact H|exact H|].
  destruct (answer h c this w) as [[reply this'] w']. simpl.
  exact (IH reply _ (H reply) this' w').
Qed.

Lemma only_always {R} P (p : Prog R) :
  only P p -> always p (fun t _ => forallb (command_is P) t = true).
Proof.
  induction p as [r|e|X c k IH]; simpl; [reflexivity|reflexivity|].
  intros [Hc Hk] reply. eapply always_mono; [|apply (IH reply), Hk].
  intros t o Ht. simpl. now rewrite Hc.
Qed.

Lemma only_forEach_in {A} P (l : list A) (body : A -> Prog unit) :
  (forall a, In a l -> only P (body a)) -> only P (forEach l body).
Proof.
  induction l as [|a l IH]; intros Hbody; simpl; [exact I|].
  apply only_bind; [apply Hbody; now left|]. intros _. apply IH.
  intros b Hb. apply Hbody. now right.
Qed.

Lemma not_fulfilled {R} (e : string) : ~ fulfilled (@Rejected R e).
Proof. intros [r Hr]. discriminate. Qed.

Lemma gather_app {A} (collect : Event -> list A) (t1 t2 : Trace) :
  gather collect (t1 ++ t2) = gather collect t1 ++ gather collect t2.
Proof. apply flat_map_app. Qed.

Lemma gather_only {A} (collect : Event -> list A) P (t : Trace) :
  (forall X (c : Cmd X) reply, P X c = true -> collect (Ev c reply) = []) ->
  forallb (command_is P) t = true -> gather collect t = [].
Proof.
  intros HP. induction t as [|[X c reply] t IH]; simpl; [reflexivity|].
  intros H. apply andb_true_iff in H. destruct H as [Hc Ht].
  now rewrite (HP X c reply Hc), IH.
Qed.

Variable A : Type.
Variable collect : Event -> list A.

Lemma yields_mono {R} (p : Prog R) (S S' : list A -> Prop) :
  (forall l, S l -> S' l) -> yields p collect S -> yields p collect S'.
Proof.
  intros HS. apply always_mono. intros t o H Hf. apply HS, H, Hf.
Qed.

Lemma yields_ret {R} (r : R) (S : list A -> Prop) : S [] -> yields (Ret r) collect S.
Proof. intros H _. exact H. Qed.

Lemma yields_call {X} (c : Cmd X) (l : list A) :
  (forall reply, collect (Ev c reply) = l) -> yields (call c) collect (eq l).
Proof.
  intros H. apply always_call.
  - intros e Hf. now apply not_fulfilled in Hf.
  - intros x _. simpl. now rewrite app_nil_r, H.
Qed.

Lemma yields_bind {R R'} (p : Prog R) (f : R -> Prog R') (S1 S2 : list A -> Prop) :
  yields p collect S1 -> (forall a, yields (f a) collect S2) ->
  yields (bind p f) collect (fun l => exists l1 l2, l = l1 ++ l2 /\ S1 l1 /\ S2 l2).
Proof.
  intros Hp Hf. apply always_bind. eapply always_mono; [|exact Hp].
  intros t1 [a|e] H1.
  - eapply always_mono; [|exact (Hf a)]. intros t2 o2 H2 Hful.
    exists (gather collect t1), (gather collect t2).
    split; [apply gather_app|]. split; [apply H1; now exists a | now apply H2].
  - intros Hful. now apply not_fulfilled in Hful.
Qed.

Lemma yields_bind_eq {R R'} (p : Prog R) (f : R -> Prog R') (l1 l2 : list A) :
  yields p collect (eq l1) -> (forall a, yields (f a) collect (eq l2)) ->
  yields (bind p f) collect (eq (l1 ++ l2)).
Proof.
  intros Hp Hf. eapply yields_mono; [|exact (yields_bind p f _ _ Hp Hf)].
  intros l (x1 & x2 & -> & <- & <-). reflexivity.
Qed.

Lemma yields_forEach {B} (l : list B) (body : B -> Prog unit) (R : B -> list A -> Prop) :
  (forall b, yields (body b) collect (R b)) ->
  yields (forEach l body) collect
    (fun out => exists pieces, Forall2 R l pieces /\ out = concat pieces).
Proof.
  intros Hbody. induction l as [|b l IH]; simpl.
  - intros _. exists []. split; [constructor | reflexivity].
  - eapply yields_mono; [|exact (yields_bind _ _ _ _ (Hbody b) (fun _ => IH))].
    intros out (l1 & l2 & -> & H1 & (pieces & HF & ->)).
    exists (l1 :: pieces). split; [now constructor | reflexivity].
Qed.

Lemma yields_forEach_eq {B} (l : list B) (body : B -> Prog unit) (spec : B -> list A) :
  (forall b, yields (body b) collect (eq (spec b))) ->
  yields (forEach l body) collect (eq (flat_map spec l)).
Proof.
  intros Hbody. eapply yields_mono; [|exact (yields_forEach l body _ Hbody)].
  intros out (pieces & HF & ->). clear Hbody.
  induction HF as [|b piece l pieces Hb HF IH]; simpl; [reflexivity|].
  now rewrite IH, Hb.
Qed.

Lemma yields_none {R} P (p : Prog R) :
  (forall X (c : Cmd X) reply, P X c = true -> collect (Ev c reply) = []) ->
  only P p -> yields p collect (eq []).
Proof.
  intros HP Hp. eapply always_mono; [|exact (only_always P p Hp)].
  intros t o Ht _. symmetry. now apply (gather_only collect P).
Qed.

End Always.

(** ** What a completed description hands to grapher.js *)

Lemma present_quiet P (g : GraphRef) :
  (forall X (c : Cmd X), describing X c = false -> P X c = true) ->
  (forall error,
     P unit (Console (Error ("Error during graph layout: " ++ error)%string)) = true) ->
  P unit (Console (Warn "Graph layout was cancelled.")) = true ->
  only P (present g).
Proof.
  intros HP He Hw. unfold present.
  do 4 (apply only_bind; [apply only_call, HP; reflexivity|]; intros ?).
  split; [apply HP; reflexivity|].
  intros [error|result].
  - apply only_call, He.
  - destruct (result =? cancelled).
    + apply only_call, Hw.
    + do 6 (apply only_bind; [apply only_call, HP; reflexivity|]; intros ?).
      apply only_call, HP. reflexivity.
Qed.

Section Gathering.

Context {A : Type}.
Variable collect : Event -> list A.
Variable P : forall X, Cmd X -> bool.
Hypothesis P_collects_nothing :
  forall X (c : Cmd X) reply, P X c = true -> collect (Ev c reply) = [].
Hypothesis P_present : forall g, only P (present g).
Hypothesis P_clear : P unit ClearContainer = true.

(** What the description yields is what a run that gets to the build step
    has handed over. *)
Lemma render_gathers {W} (h : Handler W) (S : list A -> Prop) this w :
  yields (describe this) collect S ->
  existsb is_build (trace (exec h (render this) this w)) = true ->
  S (gather collect (trace (exec h (render this) this w))).
Proof.
  intros Hy.
  destruct (render_run h this w) as (described & Hdesc & Hd & ->).
  cbv zeta. cbn [trace]. rewrite trace_andThen.
  change (Ev ClearContainer (inr tt) :: ?t) with ([Ev ClearContainer (inr tt)] ++ t).
  rewrite gather_app, gather_app, existsb_app, existsb_app.
  rewrite (existsb_skip is_build (trace described)); [|not_a_phase|exact Hd].
  rewrite (gather_only collect P [Ev ClearContainer (inr tt)]);
    [|exact P_collects_nothing|simpl; now rewrite P_clear].
  pose proof (always_exec h (describe this) _ Hy (with_children this []) w) as Hdone.
  rewrite <- Hdesc in Hdone.
  destruct (outcome described) as [g|e]; [|discriminate].
  intros _.
  rewrite (gather_only collect P (trace (exec h (present g) _ _)));
    [|exact P_collects_nothing|apply only_exec, P_present].
  simpl. rewrite app_nil_r. apply Hdone. now exists g.
Qed.

End Gathering.

Lemma flat_map_single {A B} (f : A -> B) (l : list A) :
  flat_map (fun a => [f a]) l = map f l.
Proof. induction l as [|a l IH]; simpl; [reflexivity | now rewrite IH]. Qed.

(** A call, and what it hands over whatever the answer. *)
Ltac quiet_call := apply yields_call; intros ?; simpl; reflexivity.

Lemma describe_nodes (this : GraphLibrary) :
  yields (describe this) node_set
    (eq (map cluster_node (Js.values (_clusters this))
         ++ map regular_node (Js.values (_nodes this)))).
Proof.
  assert (N : forall X (c : Cmd X) reply, no_node X c = true -> node_set (Ev c reply) = [])
    by (intros X c reply; now destruct c).
  unfold describe.
  eapply yields_mono; cycle 1.
  - apply yields_bind_eq; [quiet_call|]. intros g.
    apply yields_bind_eq; [quiet_call|]. intros _.
    apply yields_bind_eq.
    { apply (yields_forEach_eq _ _ _ _ (fun c => [cluster_node c])).
      intros c. quiet_call. }
    intros _. apply yields_bind_eq.
    { apply (yields_forEach_eq _ _ _ _ (fun n => [regular_node n])).
      intros n. quiet_call. }
    intros _. apply (yields_none _ _ no_node); [exact N|]. only_program.
  - intros l <-. simpl. now rewrite !flat_map_single, app_nil_r.
Qed.

Lemma nodes_handed_over {W : Type} (h : Handler W) (this : GraphLibrary) (w : W) :
  existsb is_build (trace (exec h (render this) this w)) = true ->
  gather node_set (trace (exec h (render this) this w))
  = map cluster_node (Js.values (_clusters this))
    ++ map regular_node (Js.values (_nodes this)).
Proof.
  intros Hb. symmetry.
  apply (render_gathers node_set no_node) with (S := eq _); auto.
  - intros X c reply. now destruct c.
  - intros g. apply present_quiet; [|reflexivity|reflexivity].
    intros X c. now destruct c.
  - apply describe_nodes.
Qed.

(** X8. Every stored cluster and node reaches grapher.js, clusters first:
    in a run of [render] that gets to the build step, the nodes handed to
    [setNode] are, in this order, one cluster node for every entry of the
    cluster map and one regular node for every entry of the node map, each
    in insertion order; nothing is left out and nothing is set twice. *)
Theorem render_hands_over_every_node {W : Type} (h : Handler W)
    (this : GraphLibrary) (w : W) :
  let t := trace (exec h (render this) this w) in
  existsb is_build t = true ->
  gather node_set t
  = map cluster_node (Js.values (_clusters this))
    ++ map regular_node (Js.values (_nodes this)).
Proof. exact (nodes_handed_over h this w). Qed.

Lemma render_hands_over_every_node_witness :
  let t := trace (exec Grapher.handle (render Sample.graph) Sample.graph (Grapher.start [])) in
  existsb is_build t = true
  /\ map GNode.name (gather node_set t) = [Some "k"; Some "a"; Some "b"; Some "c"].
Proof.
  cbv zeta. split; [reflexivity|].
  rewrite (render_hands_over_every_node Grapher.handle Sample.graph (Grapher.start []));
    reflexivity.
Defined.

Lemma prefix_append (s t : string) : String.prefix s (s ++ t) = true.
Proof.
  induction s as [|a s IH]; simpl; [now destruct t|].
  destruct (ascii_dec a a) as [_|Hne]; [exact IH | now elim Hne].
Qed.

Lemma skip_message_settled (edgeOpts : EdgeOpts.t) reply :
  edge_settled (Ev (Console (Warn (skip_message edgeOpts))) reply)
  = [inr (skip_message edgeOpts)].
Proof.
  unfold edge_settled, skip_message. now rewrite prefix_append.
Qed.

Lemma describe_parents (this : GraphLibrary) :
  yields (describe this) parent_set
    (eq (if Js.truthy_bool (Options.compound (options this))
         then flat_map cluster_parent (Js.values (_clusters this))
              ++ flat_map node_parent (Js.values (_nodes this))
         else [])).
Proof.
  assert (N : forall X (c : Cmd X) reply, no_parent X c = true -> parent_set (Ev c reply) = [])
    by (intros X c reply; now destruct c).
  unfold describe. destruct (Js.truthy_bool (Options.compound (options this))).
  - eapply yields_mono; cycle 1.
    + apply yields_bind_eq; [quiet_call|]. intros g.
      apply yields_bind_eq; [quiet_call|]. intros _.
      apply yields_bind_eq;
        [apply (yields_none _ _ no_parent); [exact N | only_program]|]. intros _.
      apply yields_bind_eq;
        [apply (yields_none _ _ no_parent); [exact N | only_program]|]. intros _.
      apply yields_bind_eq.
      { apply yields_bind_eq.
        - apply (yields_forEach_eq _ _ _ _ cluster_parent). intros c.
          unfold cluster_parent. destruct (Js.truthy (ClusterOpts.parent c));
            [quiet_call | now apply yields_ret].
        - intros _. apply (yields_forEach_eq _ _ _ _ node_parent). intros n.
          unfold node_parent. destruct (Js.truthy (NodeOpts.parent n));
            [quiet_call | now apply yields_ret]. }
      intros _. apply (yields_none _ _ no_parent); [exact N | only_program].
    + intros l <-. simpl. now rewrite app_nil_r.
  - apply (yields_none _ _ no_parent); [exact N | only_program].
Qed.

Lemma render_parents_given (this : GraphLibrary) : only parent_given (render this).
Proof.
  unfold render.
  apply only_bind; [apply only_call; reflexivity|]. intros _.
  apply only_bind.
  - unfold describe.
    repeat first
      [ match goal with
        | |- only _ (if Js.truthy ?p then _ else _) =>
            let E := fresh "E" in
            destruct (Js.truthy p) eqn:E; [apply only_call; exact E | exact I]
        end
      | only_step ];
      reflexivity.
  - intros g. apply present_only; [|reflexivity].
    intros X c. now destruct c.
Qed.

Lemma render_no_parent (this : GraphLibrary) :
  Js.truthy_bool (Options.compound (options this)) = false -> only no_parent (render this).
Proof.
  intros Hc. unfold render.
  apply only_bind; [apply only_call; reflexivity|]. intros _.
  apply only_bind.
  - unfold describe. rewrite Hc. only_program.
  - intros g. apply present_only; [|reflexivity].
    intros X c. now destruct c.
Qed.

Lemma gather_forall {A} (collect : Event -> list A) P (Q : A -> Prop) (t : Trace) :
  (forall X (c : Cmd X) reply, P X c = true -> Forall Q (collect (Ev c reply))) ->
  forallb (command_is P) t = true -> Forall Q (gather collect t).
Proof.
  intros HP. induction t as [|[X c reply] t IH]; simpl; [constructor|].
  intros H. apply andb_true_iff in H. destruct H as [Hc Ht].
  apply Forall_app. split; [now apply HP | now apply IH].
Qed.

(** X9. Parents are set only on compound graphs, only when given, and
    then all of them: in every run of [render] each parent handed to
    [setParent] is a non-empty id, and on a graph that is not compound
    there is no [setParent] call at all, whatever the nodes ask for; in a
    run that gets to the build step of a compound graph the calls are, in
    this order, one for every cluster with a parent and one for every node
    with a parent. *)
Theorem render_sets_the_parents {W : Type} (h : Handler W)
    (this : GraphLibrary) (w : W) :
  let t := trace (exec h (render this) this w) in
  Forall (fun p => Js.truthy (snd p) = true) (gather parent_set t)
  /\ (Js.truthy_bool (Options.compound (options this)) = false -> gather parent_set t = [])
  /\ (existsb is_build t = true ->
      gather parent_set t
      = if Js.truthy_bool (Options.compound (options this))
        then flat_map cluster_parent (Js.values (_clusters this))
             ++ flat_map node_parent (Js.values (_nodes this))
        else []).
Proof.
  cbv zeta. split; [|split].
  - apply (gather_forall parent_set parent_given).
    + intros X c reply Hc. destruct c; simpl; constructor; auto.
    + apply only_exec, render_parents_given.
  - intros Hc. apply (gather_only parent_set no_parent).
    + intros X c reply. now destruct c.
    + apply only_exec, render_no_parent, Hc.
  - intros Hb. symmetry.
    apply (render_gathers parent_set no_parent) with (S := eq _); auto.
    + intros X c reply. now destruct c.
    + intros g. apply present_quiet; [|reflexivity|reflexivity].
      intros X c. now destruct c.
    + apply describe_parents.
Qed.

Lemma render_sets_the_parents_witness :
  let flat := performAll Sample.calls (Sample.blank "TB" false) in
  let t := trace (exec Grapher.handle (render Sample.graph) Sample.graph (Grapher.start [])) in
  Js.truthy_bool (Options.compound (options flat)) = false
  /\ gather parent_set (trace (exec Grapher.handle (render flat) flat (Grapher.start []))) = []
  /\ existsb is_build t = true
  /\ gather parent_set t = [(Some "a", Some "k"); (Some "b", Some "k")].
Proof.
  cbv zeta. split; [reflexivity|].
  split.
  - apply (render_sets_the_parents Grapher.handle
             (performAll Sample.calls (Sample.blank "TB" false)) (Grapher.start [])).
    reflexivity.
  - split; [reflexivity|].
    rewrite (proj2 (proj2 (render_sets_the_parents Grapher.handle Sample.graph
                             (Grapher.start []))));
      reflexivity.
Defined.

Lemma renderEdge_settles (g : GraphRef) (edgeOpts : EdgeOpts.t) :
  yields (renderEdge g edgeOpts) edge_settled
    (fun piece => exists o, piece = [o]
       /\ ((exists source target, o = inl (edge_of source target edgeOpts))
           \/ o = inr (skip_message edgeOpts))).
Proof.
  unfold yields, renderEdge. cbn [always bind call].
  intros [e|source]; cbn [always bind]; [intros Hf; now apply not_fulfilled in Hf|].
  intros [e|target]; cbn [always bind]; [intros Hf; now apply not_fulfilled in Hf|].
  destruct source as [source|], target as [target|]; cbn [always bind call];
    intros [e|[]]; cbn [always]; try (intros Hf; now apply not_fulfilled in Hf);
    intros _; unfold gather; cbn [flat_map];
    try (fold (skip_message edgeOpts); rewrite skip_message_settled);
    simpl; eexists; (split; [reflexivity|]); eauto.
Qed.

Lemma yields_after_nothing {A R R'} (collect : Event -> list A)
    (p : Prog R) (f : R -> Prog R') (S : list A -> Prop) :
  yields p collect (eq []) -> (forall a, yields (f a) collect S) ->
  yields (bind p f) collect S.
Proof.
  intros Hp Hf. eapply yields_mono; [|exact (yields_bind _ _ p f _ _ Hp Hf)].
  intros l (l1 & l2 & -> & <- & H). exact H.
Qed.

Lemma yields_then_nothing {A R R'} (collect : Event -> list A)
    (p : Prog R) (f : R -> Prog R') (S : list A -> Prop) :
  yields p collect S -> (forall a, yields (f a) collect (eq [])) ->
  yields (bind p f) collect S.
Proof.
  intros Hp Hf. eapply yields_mono; [|exact (yields_bind _ _ p f _ _ Hp Hf)].
  intros l (l1 & l2 & -> & H & <-). now rewrite app_nil_r.
Qed.





Lemma describe_edges (this : GraphLibrary) :
  yields (describe this) edge_settled
    (Forall2 (fun edgeOpts o =>
                (exists source target, o = inl (edge_of source target edgeOpts))
                \/ o = inr (skip_message edgeOpts))
             (_edges this)).
Proof.
  assert (N : forall X (c : Cmd X) reply, no_edge X c = true -> edge_settled (Ev c reply) = []).
  { intros X c reply. destruct c; try discriminate; try reflexivity.
    destruct entry as [message|message]; simpl; [|reflexivity].
    now destruct (String.prefix _ message). }
  unfold describe.
  apply yields_after_nothing; [quiet_call|]. intros g.
  apply yields_after_nothing; [quiet_call|]. intros _.
  do 3 (apply yields_after_nothing;
        [apply (yields_none _ _ no_edge); [exact N | only_program]|]; intros _).
  apply yields_then_nothing.
  - eapply yields_mono; [|exact (yields_forEach _ _ _ _ _ (renderEdge_settles g))].
    intros out (pieces & HF & ->).
    induction HF as [|a piece l pieces (o & -> & Ho) HF IH]; simpl; now constructor.
  - intros _. apply (yields_none _ _ no_edge); [exact N | only_program].
Qed.

(** X10. No edge is dropped silently: in a run of [render] that gets to
    the build step, every entry of the edge list has been settled, in the
    order of the list, in one of two ways: a [grapher.Edge] built from it
    was handed to [setEdge], or the warning that names its [from] and [to]
    was written to the console. *)
Theorem render_settles_every_edge {W : Type} (h : Handler W)
    (this : GraphLibrary) (w : W) :
  let t := trace (exec h (render this) this w) in
  existsb is_build t = true ->
  Forall2 (fun edgeOpts o =>
             (exists source target, o = inl (edge_of source target edgeOpts))
             \/ o = inr (skip_message edgeOpts))
          (_edges this) (gather edge_settled t).
Proof.
  cbv zeta. intros Hb.
  apply (render_gathers edge_settled no_edge); auto.
  - intros X c reply. destruct c; try discriminate; try reflexivity.
    destruct entry as [message|message]; simpl; [|reflexivity].
    now destruct (String.prefix _ message).
  - intros g. apply present_quiet; [|reflexivity|reflexivity].
    intros X c. now destruct c.
  - apply describe_edges.
Qed.

Lemma render_settles_every_edge_witness :
  let t := trace (exec Grapher.handle (render Sample.graph) Sample.graph (Grapher.start [])) in
  existsb is_build t = true
  /\ length (gather edge_settled t) = length (_edges Sample.graph)
  /\ map (fun o => match o with inl e => GEdge.w e | inr _ => None end)
         (gather edge_settled t)
     = [Some "b"; Some "c"; None].
Proof.
  cbv zeta. split; [reflexivity|]. split; [|reflexivity].
  symmetry.
  exact (Forall2_length (render_settles_every_edge Grapher.handle Sample.graph
                           (Grapher.start []) eq_refl)).
Defined.

(** ** The order of the steps *)

Lemma ascending_weaken lo lo' l : lo' <= lo -> ascending_from lo l -> ascending_from lo' l.
Proof.
  destruct l as [|s l]; simpl; [auto|]. intros Hle [Hs Hl]. split; [lia | exact Hl].
Qed.

Lemma ascending_app lo mid l1 l2 :
  ascending_from lo l1 -> Forall (fun s => s <= mid) l1 -> lo <= mid ->
  ascending_from mid l2 -> ascending_from lo (l1 ++ l2).
Proof.
  revert lo. induction l1 as [|s l1 IH]; intros lo H1 Hmid Hlo H2; simpl.
  - now apply (ascending_weaken mid).
  - destruct H1 as [Hs H1]. inversion Hmid as [|? ? Hsm Hmid']; subst.
    split; [exact Hs|]. now apply IH.
Qed.

Lemma ascending_pairwise lo l :
  ascending_from lo l ->
  forall l1 a l2 b l3, l = l1 ++ a :: l2 ++ b :: l3 -> a <= b.
Proof.
  assert (G : forall l lo, ascending_from lo l -> Forall (fun s => lo <= s) l).
  { clear. induction l as [|s l IH]; intros lo H; constructor.
    - apply H.
    - destruct H as [Hs Hl]. eapply Forall_impl; [|apply (IH s Hl)].
      intros x Hx. simpl in Hx. lia. }
  revert lo. induction l as [|s l IH]; intros lo H l1 a l2 b l3 Heq.
  - now destruct l1.
  - destruct H as [Hs Hl]. destruct l1 as [|s1 l1]; simpl in Heq; injection Heq as -> ->.
    + apply G in Hl. rewrite Forall_forall in Hl. apply Hl.
      apply in_app_iff. right. now left.
    + eapply IH; eauto.
Qed.

Lemma staged_weaken {R} lo hi lo' hi' (p : Prog R) :
  lo' <= lo -> hi <= hi' -> staged lo hi p -> staged lo' hi' p.
Proof.
  intros Hlo Hhi. apply always_mono. intros t o [Ha Hf]. split.
  - now apply (ascending_weaken lo).
  - eapply Forall_impl; [|exact Hf]. intros s Hs. simpl in Hs. lia.
Qed.

Lemma staged_ret {R} lo hi (r : R) : staged lo hi (Ret r).
Proof. split; constructor. Qed.

Lemma staged_call {X} lo hi s (c : Cmd X) :
  step X c = Some s -> lo <= s -> s <= hi -> staged lo hi (call c).
Proof.
  intros Hs Hlo Hhi. apply always_call; intros; unfold steps; simpl; rewrite Hs; simpl;
    repeat split; auto.
Qed.

Lemma staged_console lo hi entry : staged lo hi (call (Console entry)).
Proof.
  apply always_call; intros; unfold steps; simpl; split; constructor.
Qed.

Lemma staged_bind {A B} lo mid hi (p : Prog A) (f : A -> Prog B) :
  lo <= mid -> mid <= hi ->
  staged lo mid p -> (forall a, staged mid hi (f a)) -> staged lo hi (bind p f).
Proof.
  intros Hlo Hhi Hp Hf. apply always_bind. eapply always_mono; [|exact Hp].
  intros t1 [a|e] [Ha1 Hf1].
  - eapply always_mono; [|exact (Hf a)]. intros t2 o2 [Ha2 Hf2].
    unfold steps in *. rewrite gather_app. split.
    + now apply (ascending_app lo mid).
    + apply Forall_app. split; [|exact Hf2].
      eapply Forall_impl; [|exact Hf1]. intros s Hs. simpl in Hs. lia.
  - split; [exact Ha1|]. eapply Forall_impl; [|exact Hf1]. intros s Hs. simpl in Hs. lia.
Qed.

Lemma staged_forEach {A} s (l : list A) (body : A -> Prog unit) :
  (forall a, staged s s (body a)) -> staged s s (forEach l body).
Proof.
  intros Hbody. induction l as [|a l IH]; simpl; [apply staged_ret|].
  apply (staged_bind s s s); auto.
Qed.

Lemma staged_read lo hi : staged lo hi (call GrapherInstance).
Proof.
  apply always_call; intros; unfold steps; simpl; split; constructor.
Qed.

Lemma renderEdge_staged g edgeOpts : staged 4 4 (renderEdge g edgeOpts).
Proof.
  unfold renderEdge.
  apply (staged_bind 4 4 4); auto; [now apply (staged_call 4 4 4)|]. intros source.
  apply (staged_bind 4 4 4); auto; [now apply (staged_call 4 4 4)|]. intros target.
  destruct source, target; first [now apply (staged_call 4 4 4) | apply staged_console].
Qed.

Lemma describe_staged this : staged 0 5 (describe this).
Proof.
  unfold describe.
  apply (staged_bind 0 0 5); [lia|lia|now apply (staged_call 0 0 0)|]. intros g.
  apply (staged_bind 0 0 5); [lia|lia|now apply (staged_call 0 0 0)|]. intros _.
  apply (staged_bind 0 1 5); [lia|lia| |].
  { apply (staged_weaken 1 1); [lia|lia|]. apply staged_forEach. intros c.
    now apply (staged_call 1 1 1). }
  intros _. apply (staged_bind 1 2 5); [lia|lia| |].
  { apply (staged_weaken 2 2); [lia|lia|]. apply staged_forEach. intros n.
    now apply (staged_call 2 2 2). }
  intros _. apply (staged_bind 2 3 5); [lia|lia| |].
  { apply (staged_weaken 3 3); [lia|lia|].
    destruct (Js.truthy_bool (Options.compound (options this))); [|apply staged_ret].
    apply (staged_bind 3 3 3); auto.
    - apply staged_forEach. intros c.
      destruct (Js.truthy _); [now apply (staged_call 3 3 3) | apply staged_ret].
    - intros _. apply staged_forEach. intros n.
      destruct (Js.truthy _); [now apply (staged_call 3 3 3) | apply staged_ret]. }
  intros _. apply (staged_bind 3 4 5); [lia|lia| |].
  { apply (staged_weaken 4 4); [lia|lia|]. apply staged_forEach, renderEdge_staged. }
  intros _. apply (staged_bind 4 5 5); [lia|lia|now apply (staged_call 4 5 5); [|lia|lia]|].
  intros _. apply (staged_bind 5 5 5); [lia|lia|now apply (staged_call 5 5 5)|].
  intros _. apply staged_ret.
Qed.

Lemma present_staged g : staged 5 12 (present g).
Proof.
  unfold present.
  apply (staged_bind 5 6 12); [lia|lia|now apply (staged_call 5 6 6); [|lia|lia]|]. intros svg.
  apply (staged_bind 6 6 12); [lia|lia|now apply (staged_call 6 6 6)|]. intros _.
  apply (staged_bind 6 6 12); [lia|lia|now apply (staged_call 6 6 6)|]. intros _.
  apply (staged_bind 6 7 12); [lia|lia|now apply (staged_call 6 7 7); [|lia|lia]|]. intros _.
  intros reply.
  assert (K : staged 8 12
                match reply with
                | inl error =>
                    call (Console (Error ("Error during graph layout: " ++ error)%string))
                | inr layoutResult =>
                    if layoutResult =? cancelled
                    then call (Console (Warn "Graph layout was cancelled."))
                    else
                      styled <- call GrapherInstance ;;
                      call (ApplyCustomStyles styled) ;;
                      updated <- call GrapherInstance ;;
                      call (Update updated) ;;
                      call (FitSvgToContent svg) ;;
                      attached <- call GrapherInstance ;;
                      call (AttachEventListeners attached)
                end).
  { destruct reply as [error|result]; [apply staged_console|].
    destruct (result =? cancelled); [apply staged_console|].
    apply (staged_bind 8 8 12); [lia|lia|apply staged_read|]. intros styled.
    apply (staged_bind 8 9 12); [lia|lia|now apply (staged_call 8 9 9); [|lia|lia]|]. intros _.
    apply (staged_bind 9 9 12); [lia|lia|apply staged_read|]. intros updated.
    apply (staged_bind 9 10 12); [lia|lia|now apply (staged_call 9 10 10); [|lia|lia]|].
    intros _.
    apply (staged_bind 10 11 12); [lia|lia|now apply (staged_call 10 11 11); [|lia|lia]|].
    intros _.
    apply (staged_bind 11 11 12); [lia|lia|apply staged_read|]. intros attached.
    now apply (staged_call 11 12 12); [|lia|lia]. }
  eapply always_mono; [|exact K]. intros t o [Ha Hf]. unfold steps in *. simpl. split.
  - split; [lia | exact Ha].
  - constructor; [lia | exact Hf].
Qed.

Lemma render_staged this : staged 0 12 (render this).
Proof.
  unfold render.
  apply (staged_bind 0 0 12); [lia|lia|now apply (staged_call 0 0 0)|]. intros _.
  apply (staged_bind 0 5 12); [lia|lia|apply describe_staged|]. intros g.
  apply present_staged.
Qed.

(** X12. The calls of a run come in the order of the numbered steps of
    [render]: along the trace of every run, whatever grapher.js answers,
    the step number of the calls never decreases; so all cluster nodes are
    set before any regular node, all nodes before any parent, all parents
    before any edge is looked up, the options after the last edge, and the
    SVG element is created only after the graph has been described. *)
Theorem render_steps_never_go_back {W : Type} (h : Handler W)
    (this : GraphLibrary) (w : W) :
  let numbers := steps (trace (exec h (render this) this w)) in
  ascending_from 0 numbers
  /\ Forall (fun s => s <= 12) numbers
  /\ forall before earlier between later after,
       numbers = before ++ earlier :: between ++ later :: after -> earlier <= later.
Proof.
  cbv zeta.
  destruct (always_exec h (render this) _ (render_staged this) this w) as [Ha Hf].
  split; [exact Ha|]. split; [exact Hf|]. exact (ascending_pairwise 0 _ Ha).
Qed.

Lemma render_steps_never_go_back_witness :
  let numbers := steps (trace (exec Grapher.handle (render Sample.graph) Sample.graph
                                 (Grapher.start []))) in
  numbers = [0; 0; 0; 1; 2] ++ 2 :: [2; 3; 3; 4; 4; 4; 4; 4; 4; 4; 4; 5; 5; 6; 6; 6; 7; 8; 9]
            ++ 10 :: [11; 12]
  /\ 2 <= 10.
Proof.
  cbv zeta.
  assert (E : steps (trace (exec Grapher.handle (render Sample.graph) Sample.graph
                              (Grapher.start [])))
              = [0; 0; 0; 1; 2] ++ 2 :: [2; 3; 3; 4; 4; 4; 4; 4; 4; 4; 4; 5; 5; 6; 6; 6; 7; 8; 9]
                ++ 10 :: [11; 12]) by (vm_compute; reflexivity).
  split; [exact E|].
  exact (proj2 (proj2 (render_steps_never_go_back Grapher.handle Sample.graph
                         (Grapher.start []))) _ _ _ _ _ E).
Defined.

(** ** The grapher instance *)

Section Instance.

Context {W : Type}.
Variable h : Handler W.

Lemma instance_final {R} (p : Prog R) this w :
  grapherInstance (final (exec h p this w))
  = instance_after (grapherInstance this) (trace (exec h p this w)).
Proof.
  revert this w. induction p as [r|e|X c k IH]; intros this w; simpl; auto.
  unfold answer.
  destruct c; simpl;
    try (destruct (h _ _ w) as [reply w']; simpl; now rewrite IH);
    now rewrite IH.
Qed.

Lemma instance_after_addresses g current t :
  forallb (command_is (addresses g)) t = true -> instance_after current t = current.
Proof.
  revert current. induction t as [|[X c reply] t IH]; intros current H; [reflexivity|].
  simpl in H. apply andb_true_iff in H. destruct H as [Hc Ht].
  destruct c; try discriminate; simpl; now apply IH.
Qed.

End Instance.

Lemma always_bind_call {X B} (c : Cmd X) (f : X -> Prog B) (Q : Trace -> Outcome B -> Prop) :
  (forall e, Q [Ev c (inl e)] (Rejected e)) ->
  (forall x, always (f x) (fun t o => Q (Ev c (inr x) :: t) o)) ->
  always (bind (call c) f) Q.
Proof.
  intros He Hx [e|x]; simpl; auto.
Qed.

Lemma always_assoc {A B C} (p : Prog A) (f : A -> Prog B) (g : B -> Prog C)
    (Q : Trace -> Outcome C -> Prop) :
  always (bind p (fun a => bind (f a) g)) Q -> always (bind (bind p f) g) Q.
Proof.
  revert Q. induction p as [a|e|X c k IH]; intros Q; simpl; [tauto|tauto|].
  intros H reply. apply IH, H.
Qed.

Lemma only_assoc {A B C} P (p : Prog A) (f : A -> Prog B) (g : B -> Prog C) :
  only P (bind p (fun a => bind (f a) g)) -> only P (bind (bind p f) g).
Proof.
  induction p as [a|e|X c k IH]; simpl; [tauto|tauto|].
  intros [Hc Hk]. split; [exact Hc|]. intros reply. apply IH, Hk.
Qed.

Lemma always_result {A B} (p : Prog A) (f : A -> Prog B) (Q : Outcome B -> Prop) :
  (forall e, Q (Rejected e)) ->
  (forall a, always (f a) (fun _ o => Q o)) ->
  always (bind p f) (fun _ o => Q o).
Proof.
  intros He Hf. induction p as [a|e|X c k IH]; simpl; auto.
Qed.

(** The description addresses the graph it created, leaves it in
    [grapherInstance], and gives it back. *)
Lemma describe_own_graph (this : GraphLibrary) :
  always (describe this) (fun t o =>
    (gather graph_created t = [] /\ gather graph_addressed t = []
     /\ exists e, o = Rejected e)
    \/ (exists g, gather graph_created t = [g]
                  /\ Forall (eq g) (gather graph_addressed t)
                  /\ (forall current, instance_after current t = Some g)
                  /\ forall r, o = Resolved r -> r = g)).
Proof.
  unfold describe.
  apply always_bind_call; [intros e; left; repeat split; now exists e|]. intros g.
  apply always_bind_call.
  { intros e. right. exists g. repeat split; [now repeat constructor|discriminate]. }
  intros [].
  eapply always_mono; cycle 1.
  - apply always_and.
    + apply (only_always (addresses g)). only_program; simpl; apply Nat.eqb_refl.
    + apply (always_result _ _ (fun o => forall r, o = Resolved r -> r = g));
        [discriminate|]. intros _.
      do 5 (apply (always_result _ _ (fun o => forall r, o = Resolved r -> r = g));
            [discriminate|]; intros _).
      simpl. now intros r [= <-].
  - intros t o [Ht Hr]. right. exists g.
    change (Ev (NewGraph (Options.compound (options this))) (inr g)
              :: Ev (AssignInstance g) (inr tt) :: t)
      with ([Ev (NewGraph (Options.compound (options this))) (inr g);
             Ev (AssignInstance g) (inr tt)] ++ t).
    rewrite !gather_app. split; [|split; [|split]].
    + rewrite (gather_only graph_created (addresses g) t); [reflexivity| |exact Ht].
      intros X c reply. now destruct c.
    + apply Forall_app. split; [simpl; now repeat constructor|].
      apply (gather_forall graph_addressed (addresses g)); [|exact Ht].
      intros X c reply Hc. destruct c; simpl in *; try discriminate; try constructor;
        try (now apply Nat.eqb_eq in Hc); constructor.
    + intros current. simpl. now apply (instance_after_addresses g).
    + exact Hr.
Qed.

Lemma describe_settles_at_once (this : GraphLibrary) :
  only settles_at_once (describe this).
Proof. unfold describe. only_program. Qed.

Lemma until_await_quiet (t0 t : Trace) :
  forallb (command_is settles_at_once) t0 = true ->
  until_await (t0 ++ t) = t0 ++ until_await t
  /\ after_await (t0 ++ t) = after_await t.
Proof.
  induction t0 as [|[X c reply] t0 IH]; intros H; [now split|].
  simpl in H. apply andb_true_iff in H. destruct H as [Hc Ht0].
  destruct (IH Ht0) as [IH1 IH2].
  assert (E : is_awaited (Ev c reply) = false)
    by (unfold settles_at_once in Hc; now apply negb_true_iff in Hc).
  cbn [app until_await after_await]. now rewrite E, IH1, IH2.
Qed.

Section Amid.

Context {W : Type}.
Variable h : Handler W.
Variable meanwhile : W -> GraphLibrary -> GraphLibrary.

Lemma execAmid_bind {A B} (p : Prog A) (f : A -> Prog B) this w :
  execAmid h meanwhile (bind p f) this w
  = andThen (execAmid h meanwhile p this w) (fun a => execAmid h meanwhile (f a)).
Proof.
  revert this w. induction p as [a|e|X c k IH]; intros this w.
  - unfold andThen. simpl. now destruct (execAmid h meanwhile (f a) this w).
  - reflexivity.
  - simpl. destruct (answer h c this w) as [[reply this'] w'].
    rewrite IH. unfold andThen. simpl.
    now destruct (outcome (execAmid h meanwhile (k reply) _ w')).
Qed.

(** A program without an awaited call runs as when it is left alone. *)
Lemma execAmid_at_once {R} (p : Prog R) this w :
  only settles_at_once p -> execAmid h meanwhile p this w = exec h p this w.
Proof.
  revert this w. induction p as [r|e|X c k IH]; intros this w Hp; [reflexivity..|].
  destruct Hp as [Hc Hk]. simpl.
  destruct (answer h c this w) as [[reply this'] w'].
  unfold settles_at_once in Hc. apply negb_true_iff in Hc. rewrite Hc.
  now rewrite IH.
Qed.

(** Splits a run of [present] among other code by the answers of the
    handler and by what the instance holds when it is read. *)
Ltac amid_cases :=
  repeat (simpl; unfold answer; simpl;
          match goal with
          | |- context [h ?X ?c ?w] =>
              let e := fresh "error" in
              let x := fresh "value" in
              let w' := fresh "w" in
              destruct (h X c w) as [[e|x] w']
          | |- context [if ?s =? cancelled then _ else _] =>
              destruct (s =? cancelled)
          | |- context [match grapherInstance ?t with Some _ => _ | None => _ end] =>
              let g := fresh "held" in
              let E := fresh "E" in
              destruct (grapherInstance t) as [g|] eqn:E
          end);
  simpl.

Lemma present_amid (g : GraphRef) this w :
  grapherInstance this = Some g ->
  let run := execAmid h meanwhile (present g) this w in
  gather graph_created (trace run) = []
  /\ Forall (eq g) (gather graph_addressed (until_await (trace run)))
  /\ Forall (fun g' => grapherInstance (final run) = Some g')
            (gather graph_addressed (after_await (trace run)))
  /\ (keeps_instance meanwhile -> grapherInstance (final run) = Some g).
Proof.
  intros Hg. cbv zeta. unfold present.
  amid_cases; unfold is_awaited; simpl;
    (split; [reflexivity|]); (split; [repeat constructor|]); split;
    try (intros Hm; first [exact Hg | rewrite Hm; exact Hg]);
    repeat (constructor; [congruence|]); constructor.
Qed.

End Amid.

(** X13. Up to its [await] a run of [render] works on the graph it
    created, and after it on the graph the instance holds by then.  In
    every run, whatever other code does to the instance while the layout
    promise is pending, at most one [grapher.Graph] is created; every
    call up to the layout call that takes a graph addresses that graph;
    and every call after it that takes a graph (style, update, attach)
    addresses the graph that [grapherInstance] holds at the end of the
    run.  When the other code leaves [grapherInstance] alone, as in a run
    that is left alone, that graph is the one the run created, and every
    call addresses it. *)
Theorem render_works_on_the_graph_in_the_field {W : Type} (h : Handler W)
    (meanwhile : W -> GraphLibrary -> GraphLibrary) (this : GraphLibrary) (w : W) :
  let run := execAmid h meanwhile (render this) this w in
  (gather graph_created (trace run) = [] /\ gather graph_addressed (trace run) = [])
  \/ (exists g,
        gather graph_created (trace run) = [g]
        /\ Forall (eq g) (gather graph_addressed (until_await (trace run)))
        /\ Forall (fun g' => grapherInstance (final run) = Some g')
                  (gather graph_addressed (after_await (trace run)))
        /\ (keeps_instance meanwhile ->
            grapherInstance (final run) = Some g
            /\ Forall (eq g) (gather graph_addressed (after_await (trace run))))).
Proof.
  cbv zeta. unfold render.
  change (execAmid h meanwhile (call ClearContainer;; g <- describe this;; present g) this w)
    with (let rest := execAmid h meanwhile (g <- describe this;; present g)
                        (with_children this []) w in
          {| trace := Ev ClearContainer (inr tt) :: trace rest;
             outcome := outcome rest; final := final rest; world := world rest |}).
  cbv zeta. cbn [trace final].
  rewrite execAmid_bind, (execAmid_at_once h meanwhile _ _ _ (describe_settles_at_once this)).
  pose proof (always_exec h (describe this) _ (describe_own_graph this)
                (with_children this []) w) as Hd.
  pose proof (only_exec h settles_at_once (describe this) (with_children this []) w
                (describe_settles_at_once this)) as Hq.
  pose proof (instance_final h (describe this) (with_children this []) w) as Hi.
  set (described := exec h (describe this) (with_children this []) w) in *.
  rewrite trace_andThen.
  change (Ev ClearContainer (inr tt) :: ?t) with ([Ev ClearContainer (inr tt)] ++ t).
  rewrite app_assoc.
  assert (Hq' : forallb (command_is settles_at_once)
                  ([Ev ClearContainer (inr tt)] ++ trace described) = true)
    by (simpl; exact Hq).
  set (presented := match outcome described with
                    | Resolved a => _
                    | Rejected _ => []
                    end).
  destruct (until_await_quiet _ presented Hq') as [E1 E2]. rewrite E1, E2.
  subst presented.
  rewrite !gather_app. cbn [gather flat_map graph_created graph_addressed graph_of app].
  fold (gather graph_created (trace described)).
  fold (gather graph_addressed (trace described)).
  unfold andThen.
  destruct Hd as [(Hc & Ha & e & Ho)|(g & Hc & Ha & Hinst & Hr)].
  - left. rewrite Ho, Hc, Ha. now split.
  - right. exists g. rewrite Hc. rewrite Hinst in Hi.
    destruct (outcome described) as [g'|e].
    + rewrite (Hr g' eq_refl).
      destruct (present_amid h meanwhile g (final described) (world described) Hi)
        as (P1 & P2 & P3 & P4).
      cbn [final]. rewrite P1. split; [reflexivity|]. split; [|split; [exact P3|]].
      * apply Forall_app. split; [exact Ha | exact P2].
      * intros Hm. split; [exact (P4 Hm)|].
        eapply Forall_impl; [|exact P3]. intros g0 Hg0. rewrite (P4 Hm) in Hg0.
        congruence.
    + cbn [final]. split; [reflexivity|]. simpl. rewrite app_nil_r.
      split; [exact Ha|]. split; [constructor|]. intros _. split; [exact Hi | constructor].
Qed.

(** A second call of [render], made while the layout of the first is
    pending, has put its own graph, 7, into the field: the first run
    created graph 0 and laid it out, and then styles, updates and
    attaches listeners to graph 7. *)
Example overlapping_render_updates_the_later_graph :
  let run := execAmid Grapher.handle (fun _ this => with_instance this 7)
               (render Sample.graph) Sample.graph (Grapher.start []) in
  gather graph_created (trace run) = [0]
  /\ filter is_layout (trace run) = [Ev (Layout 0) (inr "")]
  /\ gather graph_addressed (after_await (trace run)) = [7; 7; 7]
  /\ filter is_update (trace run) = [Ev (Update 7) (inr tt)].
Proof. repeat split. Qed.

Example third_run_third_graph :
  let last := renders Grapher.handle 2 Sample.graph (Grapher.start []) in
  grapherInstance (final last) = Some 2
  /\ gather graph_created (trace last) = [2].
Proof. split; reflexivity. Qed.

(** ** Failures *)

(** X14. A failing layout does not make [render] fail: when the layout
    promise is rejected, the promise of [render] is fulfilled all the
    same, the reason is written to the console as an error, and none of
    the later steps (styles, update, fit, attach) is run; and [render]
    writes no other error to the console, in any run. *)
Theorem layout_failure_is_logged_not_thrown {W : Type} (h : Handler W)
    (this : GraphLibrary) (w : W) :
  let run := exec h (render this) this w in
  gather error_logged (trace run)
  = map (fun reason => ("Error during graph layout: " ++ reason)%string)
        (gather layout_rejection (trace run))
  /\ (existsb layout_failed (trace run) = true ->
      outcome run = Resolved tt
      /\ existsb is_after_layout (trace run) = false
      /\ exists reason, gather layout_rejection (trace run) = [reason]).
Proof.
  cbv zeta.
  destruct (render_run h this w) as (described & Hdesc & Hd & ->).
  cbv zeta. cbn [trace outcome]. rewrite trace_andThen.
  change (Ev ClearContainer (inr tt) :: ?t) with ([Ev ClearContainer (inr tt)] ++ t).
  rewrite !gather_app, !existsb_app.
  rewrite (existsb_skip layout_failed (trace described)); [|not_a_phase|exact Hd].
  rewrite (existsb_skip is_after_layout (trace described)); [|not_a_phase|exact Hd].
  rewrite (gather_only error_logged no_error_log (trace described));
    [|intros X c reply; destruct c; try reflexivity; now destruct entry
     |rewrite Hdesc; apply only_exec, describe_no_error_log].
  rewrite (gather_only layout_rejection describing (trace described));
    [|intros X c reply; now destruct c|exact Hd].
  unfold andThen. destruct (outcome described) as [g|e];
    [|simpl; split; [reflexivity | discriminate]].
  cbn [outcome].
  present_cases h; (split; [reflexivity|]); intros; try discriminate; eauto.
Qed.

Lemma layout_failure_is_logged_not_thrown_witness :
  let run := exec Grapher.handle (render Sample.graph) Sample.graph
               (Grapher.start [inl "worker lost"]) in
  existsb layout_failed (trace run) = true
  /\ outcome run = Resolved tt
  /\ gather error_logged (trace run) = ["Error during graph layout: worker lost"].
Proof.
  cbv zeta. split; [reflexivity|].
  split; [|reflexivity].
  apply (layout_failure_is_logged_not_thrown Grapher.handle Sample.graph
           (Grapher.start [inl "worker lost"])).
  reflexivity.
Defined.

Lemma stops_rejected {A B} (t : Trace) (e : string) :
  stops_at_failure t (@Rejected A e) -> stops_at_failure t (@Rejected B e).
Proof.
  induction t as [|ev t IH]; simpl.
  - intros Hf. now apply not_fulfilled in Hf.
  - destruct (failure ev); [|exact IH]. intros [-> H]. split; [reflexivity|].
    injection H as ->. reflexivity.
Qed.

Lemma stops_app {A B} (t1 t2 : Trace) (a : A) (o : Outcome B) :
  stops_at_failure t1 (Resolved a) -> stops_at_failure t2 o ->
  stops_at_failure (t1 ++ t2) o.
Proof.
  induction t1 as [|ev t1 IH]; simpl; [auto|].
  destruct (failure ev); [|exact IH]. intros [_ H]. discriminate.
Qed.

Lemma faithful_ret {R} (r : R) : faithful (Ret r).
Proof. now exists r. Qed.

Lemma faithful_call {X} (c : Cmd X) :
  (forall e, is_layout (Ev c (inl e)) = false) -> faithful (call c).
Proof.
  intros Hc. apply always_call.
  - intros e. cbn [stops_at_failure failure]. rewrite (Hc e). now split.
  - intros x. cbn [stops_at_failure failure]. now exists x.
Qed.

Lemma faithful_bind {A B} (p : Prog A) (f : A -> Prog B) :
  faithful p -> (forall a, faithful (f a)) -> faithful (bind p f).
Proof.
  intros Hp Hf. apply always_bind. eapply always_mono; [|exact Hp].
  intros t1 [a|e] H1.
  - eapply always_mono; [|exact (Hf a)]. intros t2 o2 H2. now apply (stops_app t1 t2 a).
  - exact (stops_rejected t1 e H1).
Qed.

Lemma faithful_forEach {A} (l : list A) (body : A -> Prog unit) :
  (forall a, faithful (body a)) -> faithful (forEach l body).
Proof.
  intros Hbody. induction l as [|a l IH]; simpl; [apply faithful_ret|].
  apply faithful_bind; auto.
Qed.

Lemma faithful_layout {R} (g : GraphRef) (k : Reply string -> Prog R) :
  (forall reply, faithful (k reply)) -> faithful (Do (Layout g) k).
Proof.
  intros H reply. eapply always_mono; [|apply H].
  intros t o Hs. cbn [stops_at_failure]. now destruct reply.
Qed.

Ltac faithful_step :=
  lazymatch goal with
  | |- faithful (bind _ _) => apply faithful_bind; [|intros ?]
  | |- faithful (forEach _ _) => apply faithful_forEach; intros ?
  | |- faithful (call _) => apply faithful_call; intros ?; reflexivity
  | |- faithful (Ret _) => apply faithful_ret
  | |- faithful (renderEdge _ _) => unfold renderEdge
  | |- faithful (Do (Layout _) _) => apply faithful_layout; intros [?|?]; cbv beta iota
  | |- faithful (if ?b then _ else _) => destruct b
  | |- faithful (match ?x with Some _ => _ | None => _ end) => destruct x
  end.

Lemma render_faithful (this : GraphLibrary) : faithful (render this).
Proof. unfold render, describe, present. repeat faithful_step. Qed.

Lemma describe_faithful (this : GraphLibrary) : faithful (describe this).
Proof. unfold describe. repeat faithful_step. Qed.

Lemma fulfilled_without_failure {R} (t : Trace) (r : R) :
  stops_at_failure t (Resolved r) -> existsb describe_failed t = false.
Proof.
  induction t as [|[X c reply] t IH]; [reflexivity|].
  cbn [stops_at_failure existsb]. destruct reply as [error|x].
  - cbn [failure]. destruct (is_layout (Ev c (inl error))) eqn:L.
    + intros H. rewrite (IH H), orb_false_r.
      unfold describe_failed. destruct c; try discriminate. reflexivity.
    + intros [_ H]. discriminate.
  - cbn [failure]. intros H. now rewrite (IH H).
Qed.

Lemma present_presenting (g : GraphRef) : only presenting (present g).
Proof.
  unfold present.
  do 4 (apply only_bind; [apply only_call; reflexivity|]; intros ?).
  split; [reflexivity|].
  intros [error|result]; [now apply only_call|].
  destruct (result =? cancelled); [now apply only_call|].
  do 6 (apply only_bind; [apply only_call; reflexivity|]; intros ?).
  now apply only_call.
Qed.

Section Rejection.

Context {W : Type}.
Variable h : Handler W.

(** A run in which grapher.js throws while the graph is described. *)
Lemma render_rejected_while_described this w :
  let run := exec h (render this) this w in
  existsb describe_failed (trace run) = true ->
  (exists error, outcome run = Rejected error)
  /\ appended (trace run) = []
  /\ children (container (final run)) = [].
Proof.
  cbv zeta. intros H.
  destruct (render_container h this w) as (_ & _ & Hc & _). cbv zeta in Hc.
  rewrite Hc. clear Hc. revert H.
  destruct (render_run h this w) as (described & Hdesc & Hd & ->).
  cbv zeta. cbn [trace outcome]. rewrite trace_andThen.
  cbn [existsb appended]. rewrite existsb_app, appended_skip by exact Hd.
  pose proof (always_exec h (describe this) _ (describe_faithful this)
                (with_children this []) w) as Hs.
  rewrite <- Hdesc in Hs. unfold andThen.
  destruct (outcome described) as [g|e].
  - rewrite (fulfilled_without_failure _ g Hs).
    rewrite (none_of presenting describe_failed
               (trace (exec h (present g) (final described) (world described)))).
    + discriminate.
    + intros [X c reply] Hp. unfold describe_failed. simpl in Hp |- *.
      unfold presenting in Hp. destruct (step X c) as [n|]; [|now rewrite andb_false_r].
      apply Nat.leb_le in Hp. destruct (n <=? 5)%nat eqn:E; [|now rewrite andb_false_r].
      apply Nat.leb_le in E. lia.
    + apply only_exec, present_presenting.
  - intros _. cbn [outcome]. split; [now exists e|]. split; reflexivity.
Qed.

End Rejection.

(** C10, as the code has it.  Rendering does not accumulate content in
    the container: every call of [render] begins by clearing the container
    and does not clear it again, and it appends at most one SVG root:
    exactly one when the call gets to the build step, and none when
    grapher.js throws while the graph is described (steps 1 to 5), in
    which case the promise of [render] is rejected and the container is
    left empty.  So after any number of successive calls the children of
    the container are the SVG roots appended by the last call, never
    anything older. *)
Theorem container_holds_the_last_scene {W : Type} (h : Handler W)
    (n : nat) (this : GraphLibrary) (w : W) :
  let last := renders h n this w in
  hd_error (trace last) = Some (Ev ClearContainer (inr tt))
  /\ existsb is_clear (tl (trace last)) = false
  /\ children (container (final last)) = appended (trace last)
  /\ length (appended (trace last)) <= 1
  /\ (existsb is_build (trace last) = true -> length (appended (trace last)) = 1)
  /\ (existsb describe_failed (trace last) = true ->
      (exists error, outcome last = Rejected error)
      /\ appended (trace last) = []
      /\ children (container (final last)) = []).
Proof.
  cbv zeta. destruct (renders_last h n this w) as (this' & w' & ->).
  destruct (render_container h this' w') as (H1 & H2 & H3 & H4 & H5).
  repeat (split; [assumption|]).
  apply render_rejected_while_described.
Qed.

Lemma container_holds_the_last_scene_witness :
  let last := renders Grapher.handle 2 Sample.graph (Grapher.start []) in
  let failed := renders Grapher.handle 2 Sample.knotted (Grapher.start []) in
  children (container Sample.graph) = [41; 42]
  /\ existsb is_build (trace last) = true
  /\ children (container (final last)) = [2]
  /\ length (appended (trace last)) = 1
  /\ existsb describe_failed (trace failed) = true
  /\ outcome failed = Rejected "Setting the parent would create a cycle"
  /\ children (container (final failed)) = [].
Proof.
  cbv zeta.
  pose proof (container_holds_the_last_scene Grapher.handle 2 Sample.graph
                (Grapher.start [])) as (_ & _ & Hc & _ & H1 & _).
  pose proof (container_holds_the_last_scene Grapher.handle 2 Sample.knotted
                (Grapher.start [])) as (_ & _ & _ & _ & _ & Hf).
  split; [reflexivity|]. split; [reflexivity|]. split; [reflexivity|].
  split; [apply H1; reflexivity|].
  split; [reflexivity|]. split; [reflexivity|].
  apply Hf. reflexivity.
Defined.

(** C10, the claim as stated fails: the cluster of this graph names itself
    as its parent, grapher.js refuses the parent while the graph is
    described, and the call of [render] is rejected before step 6; the old
    children of the container are gone and no SVG root has been appended. *)
Lemma render_rejected_appends_no_svg :
  let run := exec Grapher.handle (render Sample.knotted) Sample.knotted (Grapher.start []) in
  children (container Sample.knotted) = [41; 42]
  /\ outcome run = Rejected "Setting the parent would create a cycle"
  /\ appended (trace run) = []
  /\ children (container (final run)) = [].
Proof. repeat split. Qed.

Lemma stops_explained {R} (t : Trace) (o : Outcome R) :
  stops_at_failure t o ->
  (forall t1 e t2 error, t = t1 ++ e :: t2 -> failure e = Some error ->
     t2 = [] /\ o = Rejected error)
  /\ ((forall e, In e t -> failure e = None) -> fulfilled o).
Proof.
  induction t as [|ev t IH]; simpl; intros H.
  - split; [|auto]. intros t1 e t2 error Heq. now destruct t1.
  - destruct (failure ev) as [err|] eqn:Hf.
    + destruct H as [-> ->]. split.
      * intros t1 e t2 error Heq He. destruct t1 as [|e1 t1]; simpl in Heq.
        -- injection Heq as <- <-. rewrite Hf in He. injection He as <-. now split.
        -- injection Heq as _ Heq. now destruct t1.
      * intros Hall. rewrite (Hall ev) in Hf; [discriminate | now left].
    + destruct (IH H) as [IH1 IH2]. split.
      * intros t1 e t2 error Heq He. destruct t1 as [|e1 t1]; simpl in Heq.
        -- injection Heq as <- <-. congruence.
        -- injection Heq as _ Heq. eapply IH1; eauto.
      * intros Hall. apply IH2. intros e He. apply Hall. now right.
Qed.

(** X15. [render] is rejected exactly by the first call that fails
    outside the layout: when a call other than the layout throws, the run
    ends with that call, and the promise of [render] is rejected with that
    exception; when no such call throws, the promise is fulfilled. *)
Theorem render_stops_at_the_first_failure {W : Type} (h : Handler W)
    (this : GraphLibrary) (w : W) :
  let run := exec h (render this) this w in
  (forall before e after error,
     trace run = before ++ e :: after -> failure e = Some error ->
     after = [] /\ outcome run = Rejected error)
  /\ ((forall e, In e (trace run) -> failure e = None) -> outcome run = Resolved tt).
Proof.
  cbv zeta.
  destruct (stops_explained _ _ (always_exec h (render this) _ (render_faithful this) this w))
    as [H1 H2].
  split; [exact H1|]. intros Hall. destruct (H2 Hall) as [[] Hr]. exact Hr.
Qed.

Lemma render_stops_at_the_first_failure_witness :
  let run := exec Grapher.handle (render Sample.knotted) Sample.knotted (Grapher.start []) in
  trace run
  = firstn 4 (trace run)
    ++ Ev (SetParent 0 (Some "k") (Some "k")) (inl "Setting the parent would create a cycle")
       :: []
  /\ outcome run = Rejected "Setting the parent would create a cycle".
Proof.
  cbv zeta.
  assert (E : trace (exec Grapher.handle (render Sample.knotted) Sample.knotted
                       (Grapher.start []))
              = firstn 4 (trace (exec Grapher.handle (render Sample.knotted) Sample.knotted
                                   (Grapher.start [])))
                ++ Ev (SetParent 0 (Some "k") (Some "k"))
                      (inl "Setting the parent would create a cycle") :: [])
    by (vm_compute; reflexivity).
  split; [exact E|].
  exact (proj2 (proj1 (render_stops_at_the_first_failure Grapher.handle Sample.knotted
                         (Grapher.start [])) _ _ _ _ E eq_refl)).
Defined.

(** ** Nodes and edges as grapher.js gets them *)

(** X16. A zero [minlen] or [weight] cannot be asked for: the edge handed
    to grapher.js never has [minlen] 0 or [weight] 0; an integer other
    than zero in the edge options is passed on as it is, negative ones
    included; and every falsy value, that is a missing one, a zero and
    [NaN], becomes 1. *)
Theorem edge_minlen_and_weight_are_never_zero
    (source target : GNode.t) (edgeOpts : EdgeOpts.t) :
  let gEdge := edge_of source target edgeOpts in
  GEdge.minlen gEdge <> 0%Z /\ GEdge.weight gEdge <> 0%Z
  /\ (forall m, EdgeOpts.minlen edgeOpts = Some (Js.Num m) -> m <> 0%Z ->
        GEdge.minlen gEdge = m)
  /\ (forall m, EdgeOpts.weight edgeOpts = Some (Js.Num m) -> m <> 0%Z ->
        GEdge.weight gEdge = m)
  /\ (Js.truthy_num (EdgeOpts.minlen edgeOpts) = false -> GEdge.minlen gEdge = 1%Z)
  /\ (Js.truthy_num (EdgeOpts.weight edgeOpts) = false -> GEdge.weight gEdge = 1%Z).
Proof.
  cbv zeta. unfold edge_of, Js.num_or, Js.truthy_num. simpl.
  repeat apply conj.
  - destruct (EdgeOpts.minlen edgeOpts) as [[m|]|]; try discriminate.
    destruct (m =? 0)%Z eqn:E; [discriminate | now apply Z.eqb_neq].
  - destruct (EdgeOpts.weight edgeOpts) as [[m|]|]; try discriminate.
    destruct (m =? 0)%Z eqn:E; [discriminate | now apply Z.eqb_neq].
  - intros m -> Hm. apply Z.eqb_neq in Hm. now rewrite Hm.
  - intros m -> Hm. apply Z.eqb_neq in Hm. now rewrite Hm.
  - destruct (EdgeOpts.minlen edgeOpts) as [[m|]|]; try reflexivity.
    now destruct (m =? 0)%Z.
  - destruct (EdgeOpts.weight edgeOpts) as [[m|]|]; try reflexivity.
    now destruct (m =? 0)%Z.
Qed.

Lemma edge_minlen_and_weight_are_never_zero_witness :
  let a := regular_node (Sample.node "a" None) in
  let unnumbered :=
    {| EdgeOpts.from := Some "a"; EdgeOpts.to := Some "b"; EdgeOpts.id := None;
       EdgeOpts.label := None; EdgeOpts.styleClass := None;
       EdgeOpts.minlen := Some Js.NaN; EdgeOpts.weight := Some (Js.Num 0) |} in
  GEdge.minlen (edge_of a a (Sample.edge "a" "b" (Some (-2)%Z))) = (-2)%Z
  /\ GEdge.minlen (edge_of a a unnumbered) = 1%Z
  /\ GEdge.weight (edge_of a a unnumbered) = 1%Z.
Proof.
  cbv zeta.
  pose proof (edge_minlen_and_weight_are_never_zero
                (regular_node (Sample.node "a" None)) (regular_node (Sample.node "a" None))
                (Sample.edge "a" "b" (Some (-2)%Z))) as (_ & _ & Hm & _).
  pose proof (edge_minlen_and_weight_are_never_zero
                (regular_node (Sample.node "a" None)) (regular_node (Sample.node "a" None))
                {| EdgeOpts.from := Some "a"; EdgeOpts.to := Some "b"; EdgeOpts.id := None;
                   EdgeOpts.label := None; EdgeOpts.styleClass := None;
                   EdgeOpts.minlen := Some Js.NaN; EdgeOpts.weight := Some (Js.Num 0) |})
    as (_ & _ & _ & _ & Hn & Hz).
  split; [apply Hm; [reflexivity | discriminate]|].
  split; [apply Hn; reflexivity | apply Hz; reflexivity].
Defined.

Lemma truthy_opt_or (a b : option string) :
  Js.truthy b = true -> Js.truthy (Js.opt_or a b) = true.
Proof.
  intros Hb. unfold Js.opt_or. now destruct (Js.truthy a) eqn:Ha.
Qed.

Lemma truthy_key (k : string) : k <> "" -> Js.truthy (Some k) = true.
Proof.
  intros Hk. simpl. apply String.eqb_neq in Hk. now rewrite Hk.
Qed.

Lemma cluster_node_named (entry : string * ClusterOpts.t) :
  cluster_ok entry -> named (cluster_node (snd entry)) = true.
Proof.
  intros (Hk & Hid & _). unfold named, cluster_node. simpl.
  rewrite Hid, (truthy_key _ Hk). simpl. rewrite String.eqb_refl. reflexivity.
Qed.

Lemma regular_node_named (entry : string * NodeOpts.t) :
  node_ok entry -> named (regular_node (snd entry)) = true.
Proof.
  intros (Hk & Hid & _). unfold named, regular_node. cbn [GNode.name GNode.id
    GNode._isCluster GNode.header HeaderEntry.content].
  rewrite Hid, (truthy_key _ Hk), truthy_opt_or by exact (truthy_key _ Hk).
  simpl. rewrite String.eqb_refl. reflexivity.
Qed.

Lemma render_hands_named (this : GraphLibrary) :
  WellFormed this -> only hands_named (render this).
Proof.
  intros [_ Hn Hc _]. unfold render.
  apply only_bind; [apply only_call; reflexivity|]. intros _.
  apply only_bind.
  - unfold describe.
    apply only_bind; [apply only_call; reflexivity|]. intros g.
    apply only_bind; [apply only_call; reflexivity|]. intros _.
    apply only_bind.
    { apply only_forEach_in. intros c Hin. apply only_call. simpl.
      apply in_map_iff in Hin. destruct Hin as (entry & <- & Hin).
      apply cluster_node_named. rewrite Forall_forall in Hc. now apply Hc. }
    intros _. apply only_bind.
    { apply only_forEach_in. intros n Hin. apply only_call. simpl.
      apply in_map_iff in Hin. destruct Hin as (entry & <- & Hin).
      apply regular_node_named. rewrite Forall_forall in Hn. now apply Hn. }
    intros _. only_program.
  - intros g. apply present_only; [|reflexivity].
    intros X c. now destruct c.
Qed.

Lemma NoDup_swap {A} (l l' : list A) : NoDup (l ++ l') -> NoDup (l' ++ l).
Proof.
  induction l as [|a l IH]; simpl; intros H; [now rewrite app_nil_r|].
  apply NoDup_cons_iff in H. destruct H as [Hin H].
  apply NoDup_insert; [now apply IH|].
  intros Hin'. apply Hin. apply in_app_iff. apply in_app_iff in Hin'. tauto.
Qed.

Lemma NoDup_map_Some {A} (l : list A) : NoDup l -> NoDup (map Some l).
Proof.
  induction 1 as [|a l Hin Hnd IH]; simpl; constructor; [|exact IH].
  intros H. apply in_map_iff in H. destruct H as (b & Hb & Hinb).
  injection Hb as ->. contradiction.
Qed.

Lemma names_of_clusters (m : Js.Map ClusterOpts.t) :
  Forall cluster_ok m ->
  map GNode.name (map cluster_node (Js.values m)) = map Some (keys m).
Proof.
  induction 1 as [|entry m (_ & Hid & _) Hm IH]; simpl; [reflexivity|].
  now rewrite Hid, <- IH.
Qed.

Lemma names_of_nodes (m : Js.Map NodeOpts.t) :
  Forall node_ok m ->
  map GNode.name (map regular_node (Js.values m)) = map Some (keys m).
Proof.
  induction 1 as [|entry m (_ & Hid & _) Hm IH]; simpl; [reflexivity|].
  now rewrite Hid, <- IH.
Qed.

(** X17. grapher.js gets well-named nodes: for an instance that was
    constructed and changed only through the methods, every node handed
    to [setNode], in every run, is named by its id, the id is not empty,
    and a regular node has a header text that is not empty; and in a run
    that gets to the build step no two nodes handed over share a name, so
    no [setNode] call overwrites an earlier one. *)
Theorem render_hands_over_named_nodes {W : Type} (h : Handler W)
    (this : GraphLibrary) (w : W) :
  WellFormed this ->
  let t := trace (exec h (render this) this w) in
  Forall (fun node => named node = true) (gather node_set t)
  /\ (existsb is_build t = true -> NoDup (map GNode.name (gather node_set t))).
Proof.
  intros Hwf. cbv zeta. split.
  - apply (gather_forall node_set hands_named).
    + intros X c reply Hc. destruct c; simpl; constructor; auto.
    + apply only_exec, render_hands_named, Hwf.
  - intros Hb. rewrite (nodes_handed_over h this w Hb).
    destruct Hwf as [Hu Hn Hc _].
    rewrite map_app, names_of_clusters, names_of_nodes, <- map_app by assumption.
    apply NoDup_map_Some, NoDup_swap, Hu.
Qed.

Lemma render_hands_over_named_nodes_witness :
  let t := trace (exec Grapher.handle (render Sample.graph) Sample.graph (Grapher.start [])) in
  existsb is_build t = true
  /\ NoDup (map GNode.name (gather node_set t))
  /\ map GNode.name (gather node_set t) = [Some "k"; Some "a"; Some "b"; Some "c"].
Proof.
  cbv zeta. split; [reflexivity|]. split; [|reflexivity].
  apply (render_hands_over_named_nodes Grapher.handle Sample.graph (Grapher.start [])
           sample_well_formed).
  reflexivity.
Defined.

(** ** The class of a cluster *)

Lemma blank_plain (c : ascii) (s : string) :
  plain c = true -> Js.blank (String c s) = false.
Proof.
  destruct c as [[] [] [] [] [] [] [] []]; try discriminate; intros _;
    destruct s as [|c2 [|c3 s]]; reflexivity.
Qed.

Lemma trim_start_plain (c : ascii) (s : string) :
  plain c = true -> Js.trim_start (String c s) = String c s.
Proof.
  destruct c as [[] [] [] [] [] [] [] []]; try discriminate; intros _;
    destruct s as [|c2 [|c3 s]]; reflexivity.
Qed.

Lemma trim_end_step (c : ascii) (s : string) :
  Js.trim_end (String c s)
  = if Js.blank (String c s) then EmptyString else String c (Js.trim_end s).
Proof. reflexivity. Qed.

Lemma trim_end_keeps (c : ascii) (s : string) :
  plain c = true -> Js.trim_end (String c s) = String c (Js.trim_end s).
Proof.
  intros Hc. now rewrite trim_end_step, (blank_plain c s Hc).
Qed.

Lemma trim_end_plain (s : string) :
  (forall c, In c (list_ascii_of_string s) -> plain c = true) ->
  Js.trim_end s = s.
Proof.
  induction s as [|c s IH]; intros H; [reflexivity|].
  rewrite trim_end_keeps by (apply H; now left).
  rewrite IH; [reflexivity|]. intros c' Hc'. apply H. now right.
Qed.

Lemma cluster_class_shape (styleClass : string) :
  Js.trim ("cluster " ++ styleClass) = ("cluster" ++ Js.trim_end (" " ++ styleClass))%string.
Proof.
  unfold Js.trim.
  change ("cluster " ++ styleClass)%string
    with (String "c" (String "l" (String "u" (String "s" (String "t" (String "e"
           (String "r" (" " ++ styleClass))))))))%string.
  rewrite trim_start_plain by reflexivity.
  now rewrite !trim_end_keeps by reflexivity.
Qed.

(** X18. The class of a cluster node always starts with [cluster]: it is
    exactly [cluster] when the options give no style class or an empty
    one, and [cluster], a space and the style class when that is made of
    ASCII characters other than white space. *)
Theorem cluster_class_starts_with_cluster (clusterOpts : ClusterOpts.t) :
  String.prefix "cluster" (GNode.class (cluster_node clusterOpts)) = true
  /\ (Js.truthy (ClusterOpts.styleClass clusterOpts) = false ->
      GNode.class (cluster_node clusterOpts) = "cluster")
  /\ (forall styleClass,
        ClusterOpts.styleClass clusterOpts = Some styleClass -> styleClass <> "" ->
        (forall c, In c (list_ascii_of_string styleClass) -> plain c = true) ->
        GNode.class (cluster_node clusterOpts) = ("cluster " ++ styleClass)%string).
Proof.
  unfold cluster_node. cbn [GNode.class]. rewrite cluster_class_shape.
  split; [apply prefix_append|]. split.
  - unfold Js.truthy, Js.str_or. destruct (ClusterOpts.styleClass clusterOpts) as [s|];
      [|reflexivity].
    destruct (s =? ""); [reflexivity | discriminate].
  - intros s -> Hne Hs. unfold Js.str_or. apply String.eqb_neq in Hne. rewrite Hne.
    change (" " ++ s)%string with (String " " s).
    assert (E : Js.trim_end (String " " s) = String " " s).
    { destruct s as [|c s]; [now rewrite String.eqb_refl in Hne|].
      rewrite trim_end_step.
      change (Js.blank (String " " (String c s))) with (Js.blank (String c s)).
      rewrite (blank_plain c s) by (apply Hs; now left).
      now rewrite (trim_end_plain _ Hs). }
    now rewrite E.
Qed.

Lemma cluster_class_starts_with_cluster_witness :
  GNode.class (cluster_node
                 {| ClusterOpts.id := Some "k"; ClusterOpts.label := Js.Absent;
                    ClusterOpts.parent := None; ClusterOpts.styleClass := Some "wide";
                    ClusterOpts.style := None |}) = "cluster wide"
  /\ GNode.class (cluster_node (Sample.cluster "k" None)) = "cluster".
Proof.
  split.
  - apply (cluster_class_starts_with_cluster
             {| ClusterOpts.id := Some "k"; ClusterOpts.label := Js.Absent;
                ClusterOpts.parent := None; ClusterOpts.styleClass := Some "wide";
                ClusterOpts.style := None |}); [reflexivity | discriminate |].
    simpl. intros c [<-|[<-|[<-|[<-|[]]]]]; reflexivity.
  - apply (cluster_class_starts_with_cluster (Sample.cluster "k" None)). reflexivity.
Defined.

(** ** Saving: the style sheets *)

Lemma string_app_assoc (a b c : string) : ((a ++ b) ++ c = a ++ (b ++ c))%string.
Proof. induction a as [|x a IH]; simpl; [reflexivity | now rewrite IH]. Qed.

Lemma string_app_nil (a : string) : (a ++ "")%string = a.
Proof. induction a as [|x a IH]; simpl; [reflexivity | now rewrite IH]. Qed.

Lemma appendRules_lines (rules : list string) (cssText : string) :
  appendRules rules cssText = (cssText ++ lines rules)%string.
Proof.
  revert cssText. induction rules as [|rule rest IH]; intros cssText; simpl.
  - now rewrite string_app_nil.
  - rewrite IH. now rewrite !string_app_assoc.
Qed.

Lemma lines_app (a b : list string) : lines (a ++ b) = (lines a ++ lines b)%string.
Proof.
  induction a as [|rule a IH]; simpl; [reflexivity|].
  now rewrite IH, !string_app_assoc.
Qed.

Lemma collectCss_from (styleSheets : list StyleSheet) (cssText : string) :
  collectCss styleSheets cssText
  = ((cssText ++ lines (readable_rules styleSheets))%string,
     map (fun error => Warn (cross_origin_warning error)) (unreadable styleSheets)).
Proof.
  revert cssText.
  induction styleSheets as [|[error|[rules|]] rest IH]; intros cssText; simpl.
  - now rewrite string_app_nil.
  - now rewrite IH.
  - rewrite IH, appendRules_lines, lines_app. now rewrite string_app_assoc.
  - apply IH.
Qed.

(** X19. The style text [saveSvg] embeds is the rules of the readable
    style sheets in document order, each followed by a line feed; a sheet
    that cannot be read costs one warning and nothing else: the sheets
    after it are still read. *)
Theorem saveSvg_reads_every_readable_sheet (styleSheets : list StyleSheet) :
  fst (collectCss styleSheets "") = lines (readable_rules styleSheets)
  /\ snd (collectCss styleSheets "")
     = map (fun error => Warn (cross_origin_warning error)) (unreadable styleSheets)
  /\ forall before error after,
       styleSheets = before ++ CrossOrigin error :: after ->
       fst (collectCss styleSheets "")
       = fst (collectCss after (fst (collectCss before ""))).
Proof.
  rewrite collectCss_from. repeat split.
  intros before error after ->. rewrite !collectCss_from. simpl.
  assert (E : readable_rules (before ++ CrossOrigin error :: after)
              = readable_rules before ++ readable_rules after).
  { induction before as [|[e|[rules|]] before IH]; simpl; try assumption.
    - reflexivity.
    - now rewrite IH, app_assoc. }
  now rewrite E, lines_app.
Qed.

(** ** Saving: the document *)

Lemma Dom_induction (P : Dom.t -> Prop) :
  (forall content, P (Dom.Txt content)) ->
  (forall tag attributes children,
     Forall P children -> P (Dom.El tag attributes children)) ->
  forall node, P node.
Proof.
  intros HT HE. fix IH 1. intros [tag attributes children|content]; [|apply HT].
  apply HE. revert children. fix IHc 1. intros [|first rest]; constructor.
  - apply IH.
  - apply IHc.
Qed.

Lemma find_El (tag tag' : string) attributes children :
  Dom.find tag (Dom.El tag' attributes children)
  = if tag' =? tag then Some (Dom.El tag' attributes children)
    else Dom.among tag children.
Proof.
  simpl. destruct (tag' =? tag); [reflexivity|].
  induction children as [|first rest IH]; [reflexivity|].
  simpl. destruct (Dom.find tag first); [reflexivity | exact IH].
Qed.

Lemma appendIn_El (tag : string) (child : Dom.t) tag' attributes children :
  Dom.appendIn tag child (Dom.El tag' attributes children)
  = if tag' =? tag then Some (Dom.El tag' attributes (children ++ [child]))
    else option_map (Dom.El tag' attributes) (Dom.appendAmong tag child children).
Proof.
  simpl. destruct (tag' =? tag); [reflexivity|]. f_equal.
  induction children as [|first rest IH]; [reflexivity|].
  simpl. destruct (Dom.appendIn tag child first); [reflexivity | now rewrite IH].
Qed.

Lemma count_El (tag tag' : string) attributes children :
  Dom.count tag (Dom.El tag' attributes children)
  = (if tag' =? tag then 1 else 0) + Dom.total tag children.
Proof.
  simpl. f_equal.
  induction children as [|first rest IH]; [reflexivity|].
  simpl. now rewrite IH.
Qed.

Lemma find_element (tag : string) (node : Dom.t) :
  forall found, Dom.find tag node = Some found ->
    exists attributes children, found = Dom.El tag attributes children.
Proof.
  induction node as [content|tag' attributes children IH] using Dom_induction;
    intros found; [discriminate|].
  rewrite find_El. destruct (tag' =? tag) eqn:E.
  - intros [= <-]. apply String.eqb_eq in E. subst. now exists attributes, children.
  - induction IH as [|first rest Hfirst _ IHrest]; simpl; [discriminate|].
    destruct (Dom.find tag first) eqn:F.
    + intros [= <-]. exact (Hfirst _ eq_refl).
    + exact IHrest.
Qed.

Lemma among_element (tag : string) (nodes : list Dom.t) (found : Dom.t) :
  Dom.among tag nodes = Some found ->
  exists attributes children, found = Dom.El tag attributes children.
Proof.
  induction nodes as [|first rest IH]; simpl; [discriminate|].
  destruct (Dom.find tag first) eqn:F.
  - intros [= <-]. exact (find_element tag first t F).
  - exact IH.
Qed.

Section Appending.

Variables (tag : string) (child : Dom.t).

Lemma appendIn_none (node : Dom.t) :
  Dom.find tag node = None -> Dom.appendIn tag child node = None.
Proof.
  induction node as [content|tag' attributes children IH] using Dom_induction;
    [reflexivity|].
  rewrite find_El, appendIn_El. destruct (tag' =? tag); [discriminate|].
  intros H. cut (Dom.appendAmong tag child children = None); [now intros ->|].
  induction IH as [|first rest Hfirst _ IHrest]; [reflexivity|].
  simpl in *. destruct (Dom.find tag first); [discriminate|].
  now rewrite Hfirst, IHrest.
Qed.

Lemma appendAmong_none (nodes : list Dom.t) :
  Dom.among tag nodes = None -> Dom.appendAmong tag child nodes = None.
Proof.
  induction nodes as [|first rest IH]; [reflexivity|]. simpl.
  destruct (Dom.find tag first) eqn:F; [discriminate|].
  intros H. now rewrite (appendIn_none first F), IH.
Qed.

Lemma appendIn_found (node : Dom.t) :
  forall attributes children,
    Dom.find tag node = Some (Dom.El tag attributes children) ->
    exists node',
      Dom.appendIn tag child node = Some node'
      /\ Dom.find tag node' = Some (Dom.El tag attributes (children ++ [child])).
Proof.
  induction node as [content|tag' attributes' children' IH] using Dom_induction;
    intros attributes children; [discriminate|].
  rewrite find_El, appendIn_El. destruct (tag' =? tag) eqn:E.
  - intros [= -> -> ->]. eexists. split; [reflexivity|].
    now rewrite find_El, String.eqb_refl.
  - intros H.
    cut (exists nodes', Dom.appendAmong tag child children' = Some nodes'
                        /\ Dom.among tag nodes'
                           = Some (Dom.El tag attributes (children ++ [child]))).
    { intros (nodes' & -> & H'). eexists. split; [reflexivity|].
      now rewrite find_El, E. }
    induction IH as [|first rest Hfirst _ IHrest]; [discriminate|].
    simpl in H |- *. destruct (Dom.find tag first) eqn:F.
    + injection H as ->. destruct (Hfirst _ _ eq_refl) as (first' & -> & H').
      eexists. split; [reflexivity|]. simpl. now rewrite H'.
    + rewrite (appendIn_none first F).
      destruct (IHrest H) as (rest' & -> & H'). eexists. split; [reflexivity|].
      simpl. now rewrite F.
Qed.

Lemma appendAmong_found (nodes : list Dom.t) attributes children :
  Dom.among tag nodes = Some (Dom.El tag attributes children) ->
  exists nodes',
    Dom.appendAmong tag child nodes = Some nodes'
    /\ Dom.among tag nodes' = Some (Dom.El tag attributes (children ++ [child]))
    /\ length nodes' = length nodes.
Proof.
  induction nodes as [|first rest IH]; [discriminate|]. simpl.
  destruct (Dom.find tag first) eqn:F.
  - intros [= ->]. destruct (appendIn_found first _ _ F) as (first' & -> & H').
    eexists. split; [reflexivity|]. simpl. now rewrite H'.
  - intros H. rewrite (appendIn_none first F).
    destruct (IH H) as (rest' & -> & H' & L). eexists. split; [reflexivity|].
    simpl. now rewrite F, L.
Qed.

Lemma total_app (counted : string) (a b : list Dom.t) :
  Dom.total counted (a ++ b) = Dom.total counted a + Dom.total counted b.
Proof. induction a as [|first a IH]; simpl; [reflexivity | rewrite IH; lia]. Qed.

Lemma appendIn_count (counted : string) (node : Dom.t) :
  forall node', Dom.appendIn tag child node = Some node' ->
    Dom.count counted node' = Dom.count counted node + Dom.count counted child.
Proof.
  induction node as [content|tag' attributes children IH] using Dom_induction;
    intros node'; [discriminate|].
  rewrite appendIn_El. destruct (tag' =? tag).
  - intros [= <-]. rewrite !count_El, total_app. simpl. lia.
  - destruct (Dom.appendAmong tag child children) as [children'|] eqn:A;
      [|discriminate].
    intros [= <-]. rewrite !count_El.
    cut (Dom.total counted children'
         = Dom.total counted children + Dom.count counted child); [lia|].
    revert children' A.
    induction IH as [|first rest Hfirst _ IHrest]; intros children'; [discriminate|].
    simpl. destruct (Dom.appendIn tag child first) as [first'|].
    + intros [= <-]. simpl. rewrite (Hfirst _ eq_refl). lia.
    + destruct (Dom.appendAmong tag child rest) as [rest'|]; [|discriminate].
      intros [= <-]. simpl. rewrite (IHrest _ eq_refl). lia.
Qed.

Lemma appendAmong_total (counted : string) (nodes nodes' : list Dom.t) :
  Dom.appendAmong tag child nodes = Some nodes' ->
  Dom.total counted nodes' = Dom.total counted nodes + Dom.count counted child.
Proof.
  revert nodes'. induction nodes as [|first rest IH]; intros nodes'; [discriminate|].
  simpl. destruct (Dom.appendIn tag child first) as [first'|] eqn:A.
  - intros [= <-]. simpl. rewrite (appendIn_count counted first first' A). lia.
  - destruct (Dom.appendAmong tag child rest) as [rest'|]; [|discriminate].
    intros [= <-]. simpl. rewrite (IH _ eq_refl). lia.
Qed.

End Appending.

Lemma find_none_count (tag : string) (node : Dom.t) :
  Dom.find tag node = None <-> Dom.count tag node = 0.
Proof.
  induction node as [content|tag' attributes children IH] using Dom_induction;
    [now split|].
  rewrite find_El, count_El. destruct (tag' =? tag); [split; [discriminate | lia]|].
  simpl. induction IH as [|first rest Hfirst _ IHrest]; [now split|].
  simpl. destruct (Dom.find tag first) eqn:F.
  - split; [discriminate|]. intros H.
    assert (Dom.count tag first = 0) as Z by lia. apply Hfirst in Z. discriminate.
  - rewrite (proj1 Hfirst eq_refl). exact IHrest.
Qed.

Lemma among_none_total (tag : string) (nodes : list Dom.t) :
  Dom.among tag nodes = None <-> Dom.total tag nodes = 0.
Proof.
  induction nodes as [|first rest IH]; [now split|]. simpl.
  destruct (Dom.find tag first) eqn:F.
  - split; [discriminate|]. intros H.
    assert (Dom.count tag first = 0) as Z by lia.
    apply find_none_count in Z. congruence.
  - apply find_none_count in F. rewrite F. exact IH.
Qed.

Lemma saveSvg_found filename container styleSheets tag attributes children :
  Dom.querySelector "svg" container = Some (Dom.El tag attributes children) ->
  saveSvg filename container styleSheets
  = {| said := map (fun error => Warn (cross_origin_warning error))
                   (unreadable styleSheets);
       alerted := [];
       downloaded :=
         [ {| document :=
                embedStyle (Dom.El tag (Js.set attributes "xmlns" svg_namespace) children)
                           (styleElement (lines (readable_rules styleSheets)));
              download := file_name filename |} ] |}.
Proof.
  intros H. unfold saveSvg. rewrite H, collectCss_from. reflexivity.
Qed.

(** X20. When the container holds an SVG element, [saveSvg] downloads one
    file, under the given name or [graph.svg]: the SVG with its [xmlns]
    attribute set and one style element added, which carries the gathered
    style text.  With a [defs] element in the SVG the style element
    becomes the last child of the first one and no child is added to the
    SVG itself; without one, a new [defs] holding only the style element
    is put before the children. *)
Theorem saveSvg_embeds_the_styles filename container styleSheets tag attributes children :
  Dom.querySelector "svg" container = Some (Dom.El tag attributes children) ->
  let saved := saveSvg filename container styleSheets in
  let style := styleElement (lines (readable_rules styleSheets)) in
  exists children',
    downloaded saved
    = [ {| document := Dom.El tag (Js.set attributes "xmlns" svg_namespace) children';
           download := file_name filename |} ]
    /\ alerted saved = []
    /\ Js.get (Js.set attributes "xmlns" svg_namespace) "xmlns" = Some svg_namespace
    /\ Dom.total "style" children' = S (Dom.total "style" children)
    /\ match Dom.among "defs" children with
       | Some defs =>
           exists defs_attributes defs_children,
             defs = Dom.El "defs" defs_attributes defs_children
             /\ Dom.among "defs" children'
                = Some (Dom.El "defs" defs_attributes (defs_children ++ [style]))
             /\ length children' = length children
             /\ Dom.total "defs" children' = Dom.total "defs" children
       | None => children' = Dom.El "defs" [] [style] :: children
       end.
Proof.
  intros H saved style. subst saved. rewrite (saveSvg_found filename _ styleSheets _ _ _ H).
  fold style. cbn [downloaded alerted embedStyle].
  assert (S1 : Dom.count "style" style = 1).
  { unfold style, styleElement. destruct (_ =? ""); reflexivity. }
  assert (D0 : Dom.count "defs" style = 0).
  { unfold style, styleElement. destruct (_ =? ""); reflexivity. }
  destruct (Dom.among "defs" children) as [defs|] eqn:A.
  - destruct (among_element _ _ _ A) as (a & c & ->).
    destruct (appendAmong_found "defs" style children a c A) as (children' & E & F & L).
    rewrite E. exists children'. repeat apply conj; try reflexivity.
    + apply get_set_same.
    + rewrite (appendAmong_total "defs" style "style" children children' E). lia.
    + exists a, c. repeat apply conj; try reflexivity; try assumption.
      rewrite (appendAmong_total "defs" style "defs" children children' E). lia.
  - rewrite (appendAmong_none "defs" style children A).
    eexists. repeat apply conj; try reflexivity.
    + apply get_set_same.
    + cbn [Dom.total]. rewrite count_El. cbn [Dom.total]. rewrite S1. reflexivity.
Qed.

Lemma saveSvg_embeds_the_styles_witness :
  let container :=
    Dom.El "div" []
      [Dom.El "svg" [("class", "graph")]
         [Dom.El "g" [] [Dom.El "defs" [] [Dom.El "marker" [] []]]]] in
  let styleSheets :=
    [Readable (Some ["a{}"]); CrossOrigin "SecurityError"; Readable (Some ["b{}"])] in
  exists children',
    downloaded (saveSvg None container styleSheets)
    = [ {| document :=
             Dom.El "svg" [("class", "graph"); ("xmlns", svg_namespace)] children';
           download := "graph.svg" |} ]
    /\ Dom.among "defs" children'
       = Some (Dom.El "defs" []
                 [Dom.El "marker" [] [];
                  Dom.El "style" [] [Dom.Txt (lines ["a{}"; "b{}"])]]).
Proof.
  intros container styleSheets.
  destruct (saveSvg_embeds_the_styles None container styleSheets
              "svg" [("class", "graph")]
              [Dom.El "g" [] [Dom.El "defs" [] [Dom.El "marker" [] []]]] eq_refl)
    as (children' & E & _ & _ & _ & M).
  exists children'. split; [exact E|].
  simpl in M. destruct M as (a & c & Heq & F & _).
  injection Heq as <- <-. exact F.
Defined.

(** X21. [saveSvg] downloads a file exactly when the container has an SVG
    element below it.  Without one it writes an error to the console,
    alerts the user and downloads nothing, whatever the style sheets are;
    with one it alerts nobody and the console gets only the warnings for
    the unreadable style sheets. *)
Theorem saveSvg_needs_a_rendered_graph filename tag attributes children styleSheets :
  let saved := saveSvg filename (Dom.El tag attributes children) styleSheets in
  (Dom.total "svg" children = 0 ->
     downloaded saved = []
     /\ alerted saved = ["Please render a graph before trying to save it."]
     /\ said saved = [Error "SVG element not found. Please render the graph first."])
  /\ (Dom.total "svg" children <> 0 ->
        length (downloaded saved) = 1
        /\ alerted saved = []
        /\ said saved
           = map (fun error => Warn (cross_origin_warning error)) (unreadable styleSheets)).
Proof.
  intros saved. subst saved. split; intros H.
  - apply among_none_total in H. unfold saveSvg. cbn [Dom.querySelector].
    rewrite H. now repeat split.
  - destruct (Dom.among "svg" children) as [found|] eqn:A.
    + destruct (among_element _ _ _ A) as (a & c & ->).
      rewrite (saveSvg_found filename (Dom.El tag attributes children) styleSheets
                 "svg" a c A).
      now repeat split.
    + apply among_none_total in A. contradiction.
Qed.

(** ** The React component *)

Lemma performAll_app (a b : list Op) (this : GraphLibrary) :
  performAll (a ++ b) this = performAll b (performAll a this).
Proof. apply fold_left_app. Qed.

Lemma performAll_frame (ops : list Op) (this : GraphLibrary) :
  container (performAll ops this) = container this
  /\ options (performAll ops this) = options this.
Proof.
  revert this. induction ops as [|op ops IH]; intros this; [now split|].
  change (performAll (op :: ops) this) with (performAll ops (perform this op)).
  destruct (IH (perform this op)) as [-> ->].
  destruct (perform_frame this op) as (-> & -> & _). now split.
Qed.

Lemma andThenCall_returned (first : Call) (next : GraphLibrary -> Call) :
  completion (andThenCall first next) = Returned <->
  completion first = Returned /\ completion (next (after first)) = Returned.
Proof.
  unfold andThenCall. destruct (completion first) eqn:E; simpl.
  - tauto.
  - rewrite E. split; [discriminate | intros [H _]; discriminate].
Qed.

Lemma andThenCall_after (first : Call) (next : GraphLibrary -> Call) :
  completion first = Returned ->
  after (andThenCall first next) = after (next (after first))
  /\ logged (andThenCall first next) = logged first ++ logged (next (after first)).
Proof. unfold andThenCall. now intros ->. Qed.

Section Loops.

Context {A : Type} (method : A -> GraphLibrary -> Call) (op : A -> Op).

Hypothesis method_performs :
  forall item graph, after (method item graph) = perform graph (op item).

Lemma forEachCall_performs (items : list A) (graph : GraphLibrary) :
  completion (forEachCall method items graph) = Returned ->
  after (forEachCall method items graph) = performAll (map op items) graph.
Proof.
  revert graph. induction items as [|item rest IH]; intros graph; [reflexivity|].
  cbn [forEachCall map]. intros H. apply andThenCall_returned in H as [H1 H2].
  destruct (andThenCall_after _ (forEachCall method rest) H1) as [-> _].
  rewrite (IH _ H2), method_performs. reflexivity.
Qed.

Lemma whenGiven_performs (items : option (list A)) (graph : GraphLibrary) :
  completion (whenGiven method items graph) = Returned ->
  after (whenGiven method items graph) = performAll (map op (given items)) graph.
Proof.
  destruct items as [l|]; [apply forEachCall_performs | reflexivity].
Qed.

Variables (ok : A -> bool) (stable : GraphLibrary -> Prop).

Hypothesis method_returns :
  forall item graph, stable graph ->
    (completion (method item graph) = Returned <-> ok item = true)
    /\ stable (after (method item graph)).

Lemma forEachCall_returned (items : list A) (graph : GraphLibrary) :
  stable graph ->
  (completion (forEachCall method items graph) = Returned <-> forallb ok items = true)
  /\ (completion (forEachCall method items graph) = Returned ->
      stable (after (forEachCall method items graph))).
Proof.
  revert graph. induction items as [|item rest IH]; intros graph Hs; [now split|].
  cbn [forEachCall forallb]. rewrite andThenCall_returned, andb_true_iff.
  destruct (method_returns item graph Hs) as [H1 H2].
  destruct (IH _ H2) as [H3 H4]. split.
  - rewrite H1, H3. reflexivity.
  - intros [Hf Hr].
    destruct (andThenCall_after _ (forEachCall method rest) Hf) as [-> _].
    exact (H4 Hr).
Qed.

Lemma whenGiven_returned (items : option (list A)) (graph : GraphLibrary) :
  stable graph ->
  (completion (whenGiven method items graph) = Returned
   <-> forallb ok (given items) = true)
  /\ (completion (whenGiven method items graph) = Returned ->
      stable (after (whenGiven method items graph))).
Proof.
  destruct items as [l|]; [apply forEachCall_returned | now split].
Qed.

End Loops.

Lemma on_function_returns (eventType : string) (f : Callback) (this : GraphLibrary) :
  completion (on eventType (Function f) this) = Returned.
Proof.
  unfold on. destruct (Js.has (_eventListeners this) eventType) eqn:H.
  - destruct (has_true_get _ _ H) as [l ->]. reflexivity.
  - rewrite get_set_same. reflexivity.
Qed.

Lemma whenHandled_performs (eventType : string) handler (graph : GraphLibrary) :
  completion (whenHandled eventType handler graph) = Returned
  /\ after (whenHandled eventType handler graph)
     = performAll (handled eventType handler) graph
  /\ logged (whenHandled eventType handler graph) = [].
Proof.
  destruct handler as [f|]; [|now repeat split]. cbn [whenHandled handled].
  split; [apply on_function_returns|]. split; [reflexivity|].
  assert (H := on_function_returns eventType f graph). unfold on in *.
  destruct (Js.get _ eventType); [reflexivity | discriminate].
Qed.

(** What the three loops of the effect amount to when the effect gets
    through them. *)
Lemma populate_returned (props : Props.t) (graph : GraphLibrary) :
  completion (populate props graph) = Returned ->
  let clustered := whenGiven addCluster (Props.clusters props) graph in
  let noded := whenGiven addNode (Props.nodes props) (after clustered) in
  let edged := whenGiven addEdge (Props.edges props) (after noded) in
  completion clustered = Returned
  /\ completion noded = Returned
  /\ completion edged = Returned
  /\ after (populate props graph)
     = performAll (handled "node:click" (Props.onNodeClick props)
                   ++ handled "edge:click" (Props.onEdgeClick props)
                   ++ handled "node:argument:click" (Props.onNodeArgumentClick props))
         (after edged)
  /\ logged (populate props graph) = logged clustered ++ logged noded ++ logged edged.
Proof.
  intros H clustered noded edged. unfold populate in H |- *.
  fold clustered in H |- *.
  apply andThenCall_returned in H as [H1 H]. fold noded in H.
  apply andThenCall_returned in H as [H2 H]. fold edged in H.
  apply andThenCall_returned in H as [H3 H].
  repeat (split; [assumption|]).
  destruct (andThenCall_after clustered
    (fun graph =>
       andThenCall (whenGiven addNode (Props.nodes props) graph) (fun graph =>
       andThenCall (whenGiven addEdge (Props.edges props) graph) (fun graph =>
       andThenCall (whenHandled "node:click" (Props.onNodeClick props) graph) (fun graph =>
       andThenCall (whenHandled "edge:click" (Props.onEdgeClick props) graph) (fun graph =>
       whenHandled "node:argument:click" (Props.onNodeArgumentClick props) graph))))) H1)
    as [-> ->].
  fold noded.
  destruct (andThenCall_after noded
    (fun graph =>
       andThenCall (whenGiven addEdge (Props.edges props) graph) (fun graph =>
       andThenCall (whenHandled "node:click" (Props.onNodeClick props) graph) (fun graph =>
       andThenCall (whenHandled "edge:click" (Props.onEdgeClick props) graph) (fun graph =>
       whenHandled "node:argument:click" (Props.onNodeArgumentClick props) graph)))) H2)
    as [-> ->].
  fold edged.
  destruct (andThenCall_after edged
    (fun graph =>
       andThenCall (whenHandled "node:click" (Props.onNodeClick props) graph) (fun graph =>
       andThenCall (whenHandled "edge:click" (Props.onEdgeClick props) graph) (fun graph =>
       whenHandled "node:argument:click" (Props.onNodeArgumentClick props) graph))) H3)
    as [-> ->].
  set (g3 := after edged).
  destruct (whenHandled_performs "node:click" (Props.onNodeClick props) g3)
    as (C1 & A1 & L1).
  destruct (andThenCall_after _
    (fun graph =>
       andThenCall (whenHandled "edge:click" (Props.onEdgeClick props) graph) (fun graph =>
       whenHandled "node:argument:click" (Props.onNodeArgumentClick props) graph)) C1)
    as [-> ->].
  rewrite A1, L1. set (g4 := performAll _ g3).
  destruct (whenHandled_performs "edge:click" (Props.onEdgeClick props) g4)
    as (C2 & A2 & L2).
  destruct (andThenCall_after _
    (fun graph =>
       whenHandled "node:argument:click" (Props.onNodeArgumentClick props) graph) C2)
    as [-> ->].
  rewrite A2, L2. set (g5 := performAll _ g4).
  destruct (whenHandled_performs "node:argument:click"
              (Props.onNodeArgumentClick props) g5) as (C3 & A3 & L3).
  rewrite A3, L3. subst g5 g4. rewrite !performAll_app. simpl. rewrite !app_nil_r.
  split; reflexivity.
Qed.

Lemma populate_performs (props : Props.t) (graph : GraphLibrary) :
  completion (populate props graph) = Returned ->
  after (populate props graph) = performAll (calls_of props) graph.
Proof.
  intros H. destruct (populate_returned props graph H) as (H1 & H2 & H3 & -> & _).
  rewrite (whenGiven_performs addEdge OpAddEdge (fun _ _ => eq_refl) _ _ H3).
  rewrite (whenGiven_performs addNode OpAddNode (fun _ _ => eq_refl) _ _ H2).
  rewrite (whenGiven_performs addCluster OpAddCluster (fun _ _ => eq_refl) _ _ H1).
  unfold calls_of. now rewrite !performAll_app.
Qed.

Lemma draw_mounted (props : Props.t) (element : Container) position :
  exists graph,
    component_graph props element position = inr graph
    /\ draw props (Some element) position = Some (inr (populate props graph))
    /\ children (container graph) = []
    /\ _nodes graph = [] /\ _clusters graph = []
    /\ Js.truthy_bool (Options.compound (options graph)) = component_compound props.
Proof.
  unfold draw, component_graph, component_compound, constructor. eexists. split; [reflexivity|].
  split; [reflexivity|]. repeat split.
  - destruct position as [p|]; [|reflexivity].
    destruct (String.eqb_spec p "static") as [->|Hne]; [reflexivity|].
    destruct p as [|c p]; [reflexivity|].
    repeat (match goal with
            | |- context [match ?p with EmptyString => _ | String _ _ => _ end] =>
                destruct p
            | |- context [match ?c with Ascii _ _ _ _ _ _ _ _ => _ end] =>
                destruct c as [[] [] [] [] [] [] [] []]
            end; try reflexivity).
  - cbn [options Options.compound]. destruct (Props.options props) as [given|];
      [|reflexivity].
    cbn. destruct (UserOptions.compound given); reflexivity.
Qed.

Lemma populate_completion (props : Props.t) (graph : GraphLibrary) :
  completion (populate props graph) = Returned <->
  let clustered := whenGiven addCluster (Props.clusters props) graph in
  let noded := whenGiven addNode (Props.nodes props) (after clustered) in
  let edged := whenGiven addEdge (Props.edges props) (after noded) in
  completion clustered = Returned /\ completion noded = Returned
  /\ completion edged = Returned.
Proof.
  split.
  - intros H. destruct (populate_returned props graph H) as (H1 & H2 & H3 & _).
    now repeat split.
  - intros (H1 & H2 & H3). unfold populate.
    apply andThenCall_returned. split; [exact H1|].
    apply andThenCall_returned. split; [exact H2|].
    apply andThenCall_returned. split; [exact H3|].
    apply andThenCall_returned. split; [apply whenHandled_performs|].
    apply andThenCall_returned. split; apply whenHandled_performs.
Qed.

Lemma addCluster_returns (flag : bool) (item : option ClusterOpts.t) (graph : GraphLibrary) :
  Js.truthy_bool (Options.compound (options graph)) = flag ->
  (completion (addCluster item graph) = Returned
   <-> (if flag then cluster_given item else true) = true)
  /\ Js.truthy_bool (Options.compound (options (after (addCluster item graph)))) = flag.
Proof.
  intros H. split.
  - unfold addCluster. rewrite H. destruct flag; [|now split]. simpl.
    destruct item as [o|]; [|now split]. unfold cluster_given, Js.truthy.
    destruct (ClusterOpts.id o) as [id|]; [|now split].
    destruct (id =? ""); [now split|]. simpl.
    destruct (Js.has (_nodes graph) id || Js.has (_clusters graph) id); now split.
  - destruct (perform_frame graph (OpAddCluster item)) as (_ & E & _).
    unfold perform in E. now rewrite E.
Qed.

Lemma addNode_returns (item : option NodeOpts.t) (graph : GraphLibrary) :
  True ->
  (completion (addNode item graph) = Returned <-> node_given item = true) /\ True.
Proof.
  intros _. split; [|exact I]. unfold addNode, node_given, Js.truthy.
  destruct item as [o|]; [|now split].
  destruct (NodeOpts.id o) as [id|]; [|now split].
  destruct (id =? ""); [now split|]. simpl.
  destruct (Js.has (_nodes graph) id || Js.has (_clusters graph) id); now split.
Qed.

Lemma addEdge_returns (item : option EdgeOpts.t) (graph : GraphLibrary) :
  True ->
  (completion (addEdge item graph) = Returned <-> edge_given item = true) /\ True.
Proof.
  intros _. split; [|exact I]. unfold addEdge, edge_given.
  destruct item as [o|]; [|now split].
  destruct (Js.truthy (EdgeOpts.from o)), (Js.truthy (EdgeOpts.to o)); now split.
Qed.

(** X22. When the drawing effect of the React component gets through its
    loops, the instance it made is the new instance after [addCluster]
    for every cluster of the props, then [addNode] for every node, then
    [addEdge] for every edge, then [on] for every handler given, in that
    order; its ids are unique and its container starts out empty.  The
    instance is compound unless the [options] prop has a [compound] key
    with a falsy value, [undefined] included. *)
Theorem draw_fills_the_instance_from_the_props
    (props : Props.t) (element : Container) (position : option string) (call : Call) :
  draw props (Some element) position = Some (inr call) ->
  completion call = Returned ->
  exists graph,
    component_graph props element position = inr graph
    /\ after call = performAll (calls_of props) graph
    /\ WellFormed (after call)
    /\ children (container (after call)) = []
    /\ Js.truthy_bool (Options.compound (options (after call)))
       = match Props.options props with
         | Some given =>
             match UserOptions.compound given with
             | Js.Absent => true
             | Js.Present value => Js.truthy_bool value
             end
         | None => true
         end.
Proof.
  intros Hd Hc. destruct (draw_mounted props element position)
    as (graph & Hg & Hd' & Hk & _ & _ & Hcompound).
  rewrite Hd' in Hd. injection Hd as <-. exists graph.
  rewrite (populate_performs props graph Hc).
  split; [exact Hg|]. split; [reflexivity|].
  destruct (performAll_frame (calls_of props) graph) as [-> ->].
  split; [|split; [exact Hk|]].
  - exact (constructed_well_formed _ position _ graph (calls_of props) Hg).
  - rewrite Hcompound. unfold component_compound.
    destruct (Props.options props) as [given|]; [|reflexivity].
    now destruct (UserOptions.compound given).
Qed.

Lemma draw_fills_the_instance_from_the_props_witness :
  let filled := after (populate SampleProps.clash SampleProps.mounted) in
  WellFormed filled
  /\ filled = performAll (calls_of SampleProps.clash) SampleProps.mounted
  /\ keys (_clusters filled) = ["k"] /\ keys (_nodes filled) = ["a"]
  /\ Js.truthy_bool
       (Options.compound (options (after (populate SampleProps.undecided SampleProps.flat))))
     = false.
Proof.
  intros filled.
  destruct (draw_fills_the_instance_from_the_props SampleProps.clash Sample.page
              (Some "static") (populate SampleProps.clash SampleProps.mounted)
              eq_refl eq_refl) as (graph & Hg & Ha & Hw & _).
  injection Hg as <-.
  split; [exact Hw|]. split; [exact Ha|]. split; [reflexivity|]. split; [reflexivity|].
  destruct (draw_fills_the_instance_from_the_props SampleProps.undecided Sample.page
              (Some "static") (populate SampleProps.undecided SampleProps.flat)
              eq_refl eq_refl) as (_ & _ & _ & _ & _ & Hflat).
  exact Hflat.
Defined.

(** X23. The drawing effect throws exactly when the props hold an item
    an add method throws on: it gets through its loops if and only if
    every node has an id, every edge has its two ends and, unless the
    [options] prop switches [compound] off, every cluster has an id. *)
Theorem draw_throws_exactly_on_a_bad_item
    (props : Props.t) (element : Container) (position : option string) (call : Call) :
  draw props (Some element) position = Some (inr call) ->
  (completion call = Returned <->
   (if component_compound props
    then forallb cluster_given (given (Props.clusters props)) else true) = true
   /\ forallb node_given (given (Props.nodes props)) = true
   /\ forallb edge_given (given (Props.edges props)) = true).
Proof.
  intros Hd. destruct (draw_mounted props element position)
    as (graph & _ & Hd' & _ & _ & _ & Hk).
  rewrite Hd' in Hd. injection Hd as <-.
  rewrite populate_completion. cbv zeta.
  destruct (whenGiven_returned addCluster
              (fun item => if component_compound props then cluster_given item else true)
              (fun graph => Js.truthy_bool (Options.compound (options graph)) = component_compound props)
              (fun item graph => addCluster_returns (component_compound props) item graph)
              (Props.clusters props) graph Hk) as [H1 _].
  destruct (whenGiven_returned addNode node_given (fun _ => True) addNode_returns
              (Props.nodes props)
              (after (whenGiven addCluster (Props.clusters props) graph)) I) as [H2 _].
  destruct (whenGiven_returned addEdge edge_given (fun _ => True) addEdge_returns
              (Props.edges props)
              (after (whenGiven addNode (Props.nodes props)
                 (after (whenGiven addCluster (Props.clusters props) graph)))) I)
    as [H3 _].
  rewrite H1, H2, H3.
  destruct (component_compound props); [reflexivity|].
  assert (E : forallb (fun _ : option ClusterOpts.t => true)
                (given (Props.clusters props)) = true).
  { generalize (given (Props.clusters props)). intros l.
    induction l; [reflexivity | exact IHl]. }
  rewrite E. reflexivity.
Qed.

Lemma draw_throws_exactly_on_a_bad_item_witness :
  completion (populate SampleProps.clash SampleProps.mounted) = Returned
  /\ completion (populate SampleProps.nameless SampleProps.mounted)
     = Threw "Cluster options with an `id` must be provided."
  /\ completion (populate SampleProps.undecided SampleProps.flat) = Returned.
Proof.
  split; [|split; [reflexivity|]].
  - apply (draw_throws_exactly_on_a_bad_item SampleProps.clash Sample.page (Some "static")
             (populate SampleProps.clash SampleProps.mounted) eq_refl).
    repeat split.
  - apply (draw_throws_exactly_on_a_bad_item SampleProps.undecided Sample.page
             (Some "static") (populate SampleProps.undecided SampleProps.flat) eq_refl).
    repeat split.
Defined.

Lemma NoDup_app_apart {A} (a b : list A) (x : A) :
  NoDup (a ++ b) -> In x a -> In x b -> False.
Proof.
  induction a as [|y a IH]; simpl; [tauto|].
  intros H [->|Hin] Hb; inversion H as [|? ? Hnot Hrest]; subst.
  - apply Hnot, in_or_app. now right.
  - exact (IH Hrest Hin Hb).
Qed.

Lemma addCluster_nodes (item : option ClusterOpts.t) (graph : GraphLibrary) :
  _nodes (after (addCluster item graph)) = _nodes graph.
Proof.
  unfold addCluster. destruct (negb (Js.truthy_bool (Options.compound (options graph)))); [reflexivity|].
  destruct item as [o|]; [|reflexivity].
  destruct (ClusterOpts.id o) as [id|]; [|reflexivity].
  destruct (id =? ""); [reflexivity|].
  destruct (Js.has (_nodes graph) id || Js.has (_clusters graph) id); reflexivity.
Qed.

Lemma addNode_clusters (item : option NodeOpts.t) (graph : GraphLibrary) :
  _clusters (after (addNode item graph)) = _clusters graph.
Proof.
  unfold addNode. destruct item as [o|]; [|reflexivity].
  destruct (NodeOpts.id o) as [id|]; [|reflexivity].
  destruct (id =? ""); [reflexivity|].
  destruct (Js.has (_nodes graph) id || Js.has (_clusters graph) id); reflexivity.
Qed.

Lemma performAll_keeps_cluster (ops : list Op) (this : GraphLibrary) (id : string) :
  Js.has (_clusters this) id = true -> Js.has (_clusters (performAll ops this)) id = true.
Proof.
  intros H. destruct (has_true_get _ _ H) as [entry Hget].
  exact (get_some_has _ _ _ (proj2 (performAll_keeps_entries ops this) _ _ Hget)).
Qed.

(** With no node stored yet, a cluster that has an id is in the cluster
    map after the loop over the clusters. *)
Lemma clusters_added (items : list (option ClusterOpts.t)) (clusterOpts : ClusterOpts.t)
    (id : string) :
  forall graph,
    Js.truthy_bool (Options.compound (options graph)) = true -> _nodes graph = [] ->
    In (Some clusterOpts) items -> ClusterOpts.id clusterOpts = Some id -> id <> "" ->
    Js.has (_clusters (performAll (map OpAddCluster items) graph)) id = true.
Proof.
  induction items as [|item rest IH]; intros graph Hk Hn Hin Hid Hne; [destruct Hin|].
  change (performAll (map OpAddCluster (item :: rest)) graph)
    with (performAll (map OpAddCluster rest) (perform graph (OpAddCluster item))).
  destruct Hin as [->|Hin].
  - apply performAll_keeps_cluster. unfold perform, addCluster.
    rewrite Hk, Hid, Hn. apply String.eqb_neq in Hne. rewrite Hne. cbn [negb Js.has orb].
    destruct (Js.has (_clusters graph) id) eqn:Hh; [exact Hh|].
    cbn [after returns with_clusters _clusters].
    exact (get_some_has _ _ _ (get_set_same _ _ _)).
  - apply IH; try assumption.
    + destruct (perform_frame graph (OpAddCluster item)) as (_ & -> & _). exact Hk.
    + unfold perform. now rewrite addCluster_nodes.
Qed.

(** A node whose id a cluster already has costs a warning in the loop
    over the nodes. *)
Lemma clash_warned (items : list (option NodeOpts.t)) (nodeOpts : NodeOpts.t)
    (id : string) :
  forall graph,
    completion (forEachCall addNode items graph) = Returned ->
    Js.has (_clusters graph) id = true ->
    In (Some nodeOpts) items -> NodeOpts.id nodeOpts = Some id -> id <> "" ->
    In (Warn (already_exists id)) (logged (forEachCall addNode items graph)).
Proof.
  induction items as [|item rest IH]; intros graph Hc Hh Hin Hid Hne; [destruct Hin|].
  cbn [forEachCall] in Hc |- *. apply andThenCall_returned in Hc as [Hf Hr].
  destruct (andThenCall_after _ (forEachCall addNode rest) Hf) as [_ ->].
  apply in_or_app. destruct Hin as [->|Hin].
  - left. unfold addNode. rewrite Hid, Hh. apply String.eqb_neq in Hne. rewrite Hne.
    rewrite orb_true_r. now left.
  - right. apply IH; try assumption. now rewrite addNode_clusters.
Qed.

(** X24. In the React component a cluster wins an id clash with a node:
    the clusters are added first, so when the effect gets through its
    loops on a compound instance, every cluster of the props has its id
    in the cluster map, no node is stored under that id, and a node of
    the props with that id has cost a warning. *)
Theorem component_cluster_wins_an_id_clash
    (props : Props.t) (element : Container) (position : option string) (call : Call)
    (clusterOpts : ClusterOpts.t) (id : string) :
  draw props (Some element) position = Some (inr call) ->
  completion call = Returned ->
  component_compound props = true ->
  In (Some clusterOpts) (given (Props.clusters props)) ->
  ClusterOpts.id clusterOpts = Some id ->
  Js.has (_clusters (after call)) id = true
  /\ Js.has (_nodes (after call)) id = false
  /\ forall nodeOpts,
       In (Some nodeOpts) (given (Props.nodes props)) ->
       NodeOpts.id nodeOpts = Some id ->
       In (Warn (already_exists id)) (logged call).
Proof.
  intros Hd Hc Hk Hin Hid.
  destruct (draw_mounted props element position)
    as (graph & Hg & Hd' & _ & Hn0 & _ & Hk0).
  rewrite Hd' in Hd. injection Hd as <-. rewrite Hk in Hk0.
  destruct (populate_returned props graph Hc) as (H1 & H2 & H3 & _ & Hl).
  assert (Hne : id <> "").
  { destruct (whenGiven_returned addCluster cluster_given
                (fun graph => Js.truthy_bool (Options.compound (options graph)) = true)
                (fun item graph => addCluster_returns true item graph)
                (Props.clusters props) graph Hk0) as [Hv _].
    apply Hv in H1. rewrite forallb_forall in H1. specialize (H1 _ Hin).
    unfold cluster_given, Js.truthy in H1. rewrite Hid in H1.
    intros ->. discriminate. }
  assert (Hclustered :
    Js.has (_clusters (after (whenGiven addCluster (Props.clusters props) graph))) id
    = true).
  { rewrite (whenGiven_performs addCluster OpAddCluster (fun _ _ => eq_refl) _ _ H1).
    exact (clusters_added _ clusterOpts id graph Hk0 Hn0 Hin Hid Hne). }
  assert (Hhas : Js.has (_clusters (after (populate props graph))) id = true).
  { rewrite (populate_performs props graph Hc). unfold calls_of.
    rewrite performAll_app. apply performAll_keeps_cluster.
    rewrite <- (whenGiven_performs addCluster OpAddCluster (fun _ _ => eq_refl) _ _ H1).
    exact Hclustered. }
  split; [exact Hhas|]. split.
  - destruct (Js.has (_nodes (after (populate props graph))) id) eqn:Hnode;
      [|reflexivity].
    exfalso.
    assert (Hw : WellFormed (after (populate props graph))).
    { rewrite (populate_performs props graph Hc).
      exact (constructed_well_formed _ position _ graph (calls_of props) Hg). }
    apply (NoDup_app_apart _ _ id (ids_unique _ Hw)); now apply has_keys.
  - intros nodeOpts Hnin Hnid. rewrite Hl.
    apply in_or_app. right. apply in_or_app. left.
    destruct (Props.nodes props) as [items|]; [|destruct Hnin].
    exact (clash_warned items nodeOpts id _ H2 Hclustered Hnin Hnid Hne).
Qed.

Lemma component_cluster_wins_an_id_clash_witness :
  let call := populate SampleProps.clash SampleProps.mounted in
  Js.has (_clusters (after call)) "k" = true
  /\ Js.has (_nodes (after call)) "k" = false
  /\ In (Warn (already_exists "k")) (logged call).
Proof.
  intros call.
  destruct (component_cluster_wins_an_id_clash SampleProps.clash Sample.page
              (Some "static") call (Sample.cluster "k" None) "k"
              eq_refl eq_refl eq_refl (or_introl eq_refl) eq_refl) as (Hc & Hn & Hw).
  split; [exact Hc|]. split; [exact Hn|].
  apply (Hw (Sample.node "k" None)); [right; left; reflexivity | reflexivity].
Defined.

(** ** Clicks *)

Lemma get_of_entry {V} (m : Js.Map V) (k : string) (v : V) :
  NoDup (keys m) -> In (k, v) m -> Js.get m k = Some v.
Proof.
  induction m as [|[k' v'] m IH]; intros Hnd Hin; [destruct Hin|].
  inversion Hnd as [|? ? Hnot Hrest]; subst. simpl.
  destruct Hin as [[= -> ->]|Hin].
  - now rewrite String.eqb_refl.
  - destruct (String.eqb_spec k' k) as [->|_]; [|exact (IH Hrest Hin)].
    exfalso. apply Hnot. unfold keys. apply in_map_iff. now exists (k, v).
Qed.

Lemma NoDup_app_left {A} (a b : list A) : NoDup (a ++ b) -> NoDup a.
Proof.
  induction a as [|x a IH]; intros H; [constructor|].
  inversion H as [|? ? Hnot Hrest]; subst. constructor; [|exact (IH Hrest)].
  intros Hin. apply Hnot, in_or_app. now left.
Qed.

(** X25. A click always names a stored node: in a run of [render] that
    gets to the build step, for an instance that was constructed and
    changed only through the methods, every click handler on a node
    handed to grapher.js emits either [node:click] with the id or
    [node:argument:click] with the id and one of the arguments of a node
    that is stored under that id; the cluster nodes carry no click
    handler. *)
Theorem clicks_name_stored_nodes {W : Type} (h : Handler W)
    (this : GraphLibrary) (w : W) :
  WellFormed this ->
  let t := trace (exec h (render this) this w) in
  existsb is_build t = true ->
  forall node eventType data,
    In node (gather node_set t) -> In (eventType, data) (clicks node) ->
    GNode._isCluster node = false
    /\ exists id entry,
         Js.get (_nodes this) id = Some entry
         /\ GNode.name node = Some id
         /\ ((eventType = "node:click" /\ data = NodeClick (Some id))
             \/ (eventType = "node:argument:click"
                 /\ exists name value,
                      In (name, value) (NodeOpts.arguments entry)
                      /\ data = ArgumentClick (Some id) name value)).
Proof.
  intros [Hu Hn _ _] t Hb node eventType data Hnode Hclick. subst t.
  rewrite (nodes_handed_over h this w Hb) in Hnode.
  apply in_app_or in Hnode. destruct Hnode as [Hnode|Hnode].
  - apply in_map_iff in Hnode. destruct Hnode as (c & <- & _). destruct Hclick.
  - apply in_map_iff in Hnode. destruct Hnode as (n & <- & Hin).
    split; [reflexivity|].
    apply in_map_iff in Hin. destruct Hin as ([id entry] & Hsnd & Hin).
    simpl in Hsnd. subst n.
    rewrite Forall_forall in Hn. destruct (Hn _ Hin) as (_ & Hid & _).
    simpl in Hid.
    exists id, entry. split; [exact (get_of_entry _ _ _ (NoDup_app_left _ _ Hu) Hin)|].
    split; [exact Hid|].
    unfold clicks, regular_node in Hclick. cbn [GNode.header GNode.list] in Hclick.
    rewrite Hid in Hclick.
    destruct Hclick as [[= <- <-]|Hclick]; [left; now split|].
    destruct (NodeOpts.arguments entry) as [|a rest] eqn:Ha; [destruct Hclick|].
    cbn [ArgumentList.click ArgumentList.items] in Hclick.
    destruct Hclick as [[= <- <-]|Hclick]; [left; now split|].
    right. apply in_map_iff in Hclick. destruct Hclick as (argument & Hact & Harg).
    apply in_map_iff in Harg. destruct Harg as ([name value] & <- & Harg).
    unfold argument_of in Hact. cbn [Argument.activate fst snd] in Hact.
    rewrite Hid in Hact. injection Hact as <- <-.
    split; [reflexivity|]. now exists name, value.
Qed.

Lemma clicks_name_stored_nodes_witness :
  let node := regular_node (node_entry (Sample.node "a" (Some "k"))) in
  clicks node = [("node:click", NodeClick (Some "a"))]
  /\ GNode._isCluster node = false
  /\ exists id entry,
       Js.get (_nodes Sample.graph) id = Some entry
       /\ GNode.name node = Some id
       /\ (("node:click" = "node:click" /\ NodeClick (Some "a") = NodeClick (Some id))
           \/ ("node:click" = "node:argument:click"
               /\ exists name value,
                    In (name, value) (NodeOpts.arguments entry)
                    /\ NodeClick (Some "a") = ArgumentClick (Some id) name value)).
Proof.
  intros node. split; [reflexivity|].
  apply (clicks_name_stored_nodes Grapher.handle Sample.graph (Grapher.start [])
           sample_well_formed).
  - reflexivity.
  - assert (E : gather node_set
                  (trace (exec Grapher.handle (render Sample.graph) Sample.graph
                            (Grapher.start [])))
                = map cluster_node (Js.values (_clusters Sample.graph))
                  ++ map regular_node (Js.values (_nodes Sample.graph)))
      by (vm_compute; reflexivity).
    rewrite E. right. left. reflexivity.
  - left. reflexivity.
Defined.
